(** * SA-Phrase-Search: suffix-array phrase search, a shallow embedding

    The development follows the C++ sources:
    - [src/include/sa_is.hpp]: [class SuffixArray] with [buildSimple],
      [computeLCP] and the constructor;
    - [src/unnamed/part_001]: the SA-IS variant of the same class
      ([computeTypes], [isLMS], [induceSort], [buildSAIS], its constructor);
    - [src/include/parser.hpp], lines 461-643 (the file sa_match.hpp):
      [class SAMatcher] with [comparePattern], [findLeft], [findRight],
      [findAll], [exists], [count];
    - [src/include/sa-match.hpp]: [sa_ps::detail::sa_match];
    - [src/include/grouped-data.hpp]: [grouped_data], the operators [&], [&=],
      [|], [|=], and the two overloads of [grouped_match];
    - [src/include/parser.hpp], lines 272-460 (the file andor.hpp):
      [andOperation], [orOperation], [notOperation], [proximityAnd],
      [orderedProximity], [multiAnd], [multiOr];
    - [src/include/parser.hpp], lines 1-271: [class QueryParser] with
      [startsWithIgnoreCase], [tokenize], the recursive-descent functions,
      [parse] and [extractWords].

    Conventions.
    - An [int] is a [Z]; arithmetic that the code performs on [int]s goes through
      [Int32], which writes the 32-bit two's-complement wrap-around out.
    - A code unit ([char], [wchar_t]) is a [Z]; a string is a [list Z].
    - A [std::vector] is a [list]; an access outside the vector, and a read of
      string storage past its terminator, is undefined behaviour: the model
      returns [None] there, as it does where the code throws.
    - A [for] loop over an index range is a fold over that range; a [while]
      loop is a [Fixpoint] on a fuel argument.  Every caller passes a fuel that
      the loop cannot use up, which the theorems establish by producing the
      result.  The counters [j], [k] of the two-pointer loops of
      [grouped_match], which the loop guard keeps below a vector's size, are
      stepped on [Z].
    - In the logical operations and in the query parser a cursor only moves
      forward and only the element under it is read: an iterator of
      [std::set_intersection], the indices [j] and [k] of [proximityAnd], the
      index [i] of [tokenize], the member [current_] of the parser.  Such a
      cursor is the part of the sequence from the cursor on.
    - [std::isspace] is the one of the "C" locale. *)

From Stdlib Require Import ZArith List Lia Bool Sorted Permutation.
Import ListNotations.
Local Open Scope Z_scope.

(** ** Machine integers *)

Module Int32.

Definition min_int : Z := - 2 ^ 31.
Definition max_int : Z := 2 ^ 31 - 1.

(** The value of a mathematical integer once stored in an [int]. *)
Definition wrap (z : Z) : Z := (z + 2 ^ 31) mod 2 ^ 32 - 2 ^ 31.

Definition add (a b : Z) : Z := wrap (a + b).
Definition sub (a b : Z) : Z := wrap (a - b).
(** [/] on [int]: truncation toward zero. *)
Definition div (a b : Z) : Z := wrap (Z.quot a b).
(** [abs] on [int]. *)
Definition abs (a : Z) : Z := wrap (Z.abs a).
(** Conversion of a [size_t] to [int]. *)
Definition of_size (n : nat) : Z := wrap (Z.of_nat n).

End Int32.

(** [size_t] arithmetic (64 bits, unsigned). *)
Module Size.

Definition wrap (z : Z) : Z := z mod 2 ^ 64.
Definition add (a b : Z) : Z := wrap (a + b).

End Size.

(** ** Undefined behaviour as [None] *)

Definition bind {A B : Type} (m : option A) (k : A -> option B) : option B :=
  match m with
  | Some a => k a
  | None => None
  end.

Notation "x <- m ;; k" := (bind m (fun x => k))
  (at level 61, m at next level, right associativity).
Notation "' pat <- m ;; k" := (bind m (fun x => match x with pat => k end))
  (at level 61, pat pattern, m at next level, right associativity).

Fixpoint mapM {A B : Type} (f : A -> option B) (l : list A) : option (list B) :=
  match l with
  | [] => Some []
  | a :: l' => b <- f a ;; bs <- mapM f l' ;; Some (b :: bs)
  end.

(** ** Vectors indexed by [int] *)

Definition len {A : Type} (v : list A) : Z := Z.of_nat (length v).

(** [v[i]] as an rvalue. *)
Definition vget {A : Type} (v : list A) (i : Z) : option A :=
  if i <? 0 then None else nth_error v (Z.to_nat i).

Fixpoint list_set {A : Type} (l : list A) (i : nat) (x : A) : list A :=
  match l, i with
  | [], _ => []
  | _ :: t, O => x :: t
  | h :: t, S i' => h :: list_set t i' x
  end.

(** [v[i] = x]. *)
Definition vset {A : Type} (v : list A) (i : Z) (x : A) : option (list A) :=
  if (0 <=? i) && (i <? len v) then Some (list_set v (Z.to_nat i) x) else None.

(** The integers [lo, lo+1, ..., lo+count-1]. *)
Fixpoint zseq (lo : Z) (count : nat) : list Z :=
  match count with
  | O => []
  | S c => lo :: zseq (lo + 1) c
  end.

(** The positions [0, 1, ..., n-1]. *)
Definition iota (n : Z) : list Z := zseq 0 (Z.to_nat n).

(** [std::iota(first, last, value)] on a [std::vector<int>] of [count]
    elements: each element takes [value], an [int], which is then
    incremented. *)
Fixpoint std_iota (count : nat) (value : Z) : list Z :=
  match count with
  | O => []
  | S c => value :: std_iota c (Int32.add value 1)
  end.

(** [for (int i = lo; i < hi; ++i) body], the loop state threaded through. *)
Fixpoint for_up {St : Type} (count : nat) (i : Z) (body : Z -> St -> option St) (s : St)
  : option St :=
  match count with
  | O => Some s
  | S c => s' <- body i s ;; for_up c (i + 1) body s'
  end.

Definition for_range {St : Type} (lo hi : Z) (body : Z -> St -> option St) (s : St)
  : option St :=
  for_up (Z.to_nat (hi - lo)) lo body s.

(** [for (int i = hi - 1; i >= lo; --i) body]. *)
Fixpoint for_down {St : Type} (count : nat) (i : Z) (body : Z -> St -> option St) (s : St)
  : option St :=
  match count with
  | O => Some s
  | S c => s' <- body i s ;; for_down c (i - 1) body s'
  end.

Definition for_range_down {St : Type} (lo hi : Z) (body : Z -> St -> option St) (s : St)
  : option St :=
  for_down (Z.to_nat (hi - lo)) (hi - 1) body s.

(** ** [std::sort]

    The standard leaves the algorithm open and fixes the result: a sorted
    permutation of the input.  Every comparator used below is a strict total
    order on the values sorted, so that result is unique ([sorted_perm_unique]
    below) and an insertion sort computes it. *)

Section Sort.
Context {A : Type} (lt : A -> A -> bool).

Fixpoint sort_insert (x : A) (l : list A) : list A :=
  match l with
  | [] => [x]
  | y :: l' => if lt x y then x :: y :: l' else y :: sort_insert x l'
  end.

Fixpoint std_sort (l : list A) : list A :=
  match l with
  | [] => []
  | x :: l' => sort_insert x (std_sort l')
  end.

End Sort.

(** * [namespace sa_phrase_search] *)

Module sa_phrase_search.

(** ** [class SuffixArray] (src/include/sa_is.hpp) *)

Record SuffixArray : Type := mkSuffixArray {
  sa_ : list Z;      (* std::vector<int> sa_  *)
  lcp_ : list Z;     (* std::vector<int> lcp_ *)
  text_ : list Z;    (* const CharT* text_, the n_ code units it points to *)
  n_ : Z             (* size_t n_ *)
}.

(** The comparator of [buildSimple]: is the suffix at [a] less than the suffix
    at [b]?  [s[a + i]] is read under the guard [a + i < n]; the sort only ever
    passes positions [0 <= a, b < n]. *)
Fixpoint suffix_less_loop (fuel : nat) (s : list Z) (n a b i : Z) : bool :=
  match fuel with
  | O => false
  | S fuel' =>
      if (Int32.add a i <? n) && (Int32.add b i <? n) then
        let x := nth (Z.to_nat (Int32.add a i)) s 0 in
        let y := nth (Z.to_nat (Int32.add b i)) s 0 in
        if x <? y then true
        else if y <? x then false
        else suffix_less_loop fuel' s n a b (Int32.add i 1)
      else (Int32.add a i =? n) && (Int32.add b i <? n)
  end.

Definition suffix_less (s : list Z) (n : Z) (a b : Z) : bool :=
  suffix_less_loop (S (Z.to_nat n)) s n a b 0.

(** [buildSimple(s, n, sa)]: [sa.resize(n)], fill with [0..n-1], sort.
    A negative [n] makes [resize] throw. *)
Definition buildSimple (s : list Z) (n : Z) : option (list Z) :=
  if n <? 0 then None
  else Some (std_sort (suffix_less s n) (iota n)).

(** The inner loop of [computeLCP]:
    [while (i + h < n && j + h < n && text_[i + h] == text_[j + h]) h++;] *)
Fixpoint lcp_extend (fuel : nat) (text : list Z) (n i j h : Z) : option Z :=
  match fuel with
  | O => None
  | S fuel' =>
      if (Int32.add i h <? n) && (Int32.add j h <? n) then
        x <- vget text (Int32.add i h) ;;
        y <- vget text (Int32.add j h) ;;
        if x =? y then lcp_extend fuel' text n i j (Int32.add h 1)
        else Some h
      else Some h
  end.

(** First loop of [computeLCP]: [rank[sa_[i]] = i]. *)
Definition compute_rank (sa : list Z) (n : Z) : option (list Z) :=
  for_range 0 n (fun i rank => x <- vget sa i ;; vset rank x i)
            (repeat 0 (Z.to_nat n)).

(** Body of the second loop of [computeLCP], on the state [(h, lcp_)]. *)
Definition kasai_step (text sa rank : list Z) (n : Z) (i : Z) (st : Z * list Z)
  : option (Z * list Z) :=
  let '(h, lcp) := st in
  ri <- vget rank i ;;
  if 0 <? ri then
    j <- vget sa (Int32.sub ri 1) ;;
    h' <- lcp_extend (S (Z.to_nat n)) text n i j h ;;
    lcp' <- vset lcp ri h' ;;
    Some (if 0 <? h' then Int32.sub h' 1 else h', lcp')
  else Some (h, lcp).

(** [computeLCP()] on the members [text_], [sa_]; returns the new [lcp_]
    (empty before the call). *)
Definition computeLCP (text sa : list Z) : option (list Z) :=
  let n := Int32.of_size (length sa) in
  if n <? 0 then None
  else
    rank <- compute_rank sa n ;;
    st <- for_range 0 n (kasai_step text sa rank n) (0, repeat 0 (Z.to_nat n)) ;;
    Some (snd st).

(** The constructor [SuffixArray(text, len)]. *)
Definition SuffixArray_new (text : list Z) : option SuffixArray :=
  let n := length text in
  if (n =? 0)%nat then Some (mkSuffixArray [] [] text 0)
  else
    sa <- buildSimple text (Int32.of_size n) ;;
    lcp <- computeLCP text sa ;;
    Some (mkSuffixArray sa lcp text (Z.of_nat n)).

(** ** The SA-IS variant of [class SuffixArray] (src/unnamed/part_001) *)

(** [computeTypes(s, n, types)]: [false] is S-type, [true] is L-type. *)
Definition computeTypes (s : list Z) (n : Z) : option (list bool) :=
  if n <? 0 then None
  else
    types <- vset (repeat false (Z.to_nat n)) (Int32.sub n 1) false ;;
    for_range_down 0 (Int32.sub n 1)
      (fun i types =>
         x <- vget s i ;;
         y <- vget s (Int32.add i 1) ;;
         if x <? y then vset types i false
         else if y <? x then vset types i true
         else t <- vget types (Int32.add i 1) ;; vset types i t)
      types.

(** [isLMS(i, types)]. *)
Definition isLMS (i : Z) (types : list bool) : option bool :=
  if i =? 0 then Some false
  else
    ti <- vget types i ;;
    if negb ti then vget types (Int32.sub i 1) else Some false.

(** [sa[--bucket_tails[c]] = v]. *)
Definition place_tail (c v : Z) (st : list Z * list Z) : option (list Z * list Z) :=
  let '(sa, tails) := st in
  t <- vget tails c ;;
  tails' <- vset tails c (Int32.sub t 1) ;;
  sa' <- vset sa (Int32.sub t 1) v ;;
  Some (sa', tails').

(** [sa[bucket_heads[c]++] = v]. *)
Definition place_head (c v : Z) (st : list Z * list Z) : option (list Z * list Z) :=
  let '(sa, heads) := st in
  h <- vget heads c ;;
  heads' <- vset heads c (Int32.add h 1) ;;
  sa' <- vset sa h v ;;
  Some (sa', heads').

(** [induceSort(s, n, sa, types, buckets, bucket_ends)]. *)
Definition induceSort (s : list Z) (n : Z) (sa : list Z) (types : list bool)
    (buckets bucket_ends : list Z) : option (list Z) :=
  let sa0 := repeat (-1) (length sa) in
  (* place LMS suffixes at the end of their buckets *)
  st1 <- for_range_down 0 n
           (fun i st =>
              lms <- isLMS i types ;;
              if lms then c <- vget s i ;; place_tail c i st else Some st)
           (sa0, bucket_ends) ;;
  (* induce L-type suffixes *)
  st2 <- for_range 0 n
           (fun i st =>
              x <- vget (fst st) i ;;
              if 0 <? x then
                t <- vget types (Int32.sub x 1) ;;
                if t then c <- vget s (Int32.sub x 1) ;; place_head c (Int32.sub x 1) st
                else Some st
              else Some st)
           (fst st1, buckets) ;;
  (* induce S-type suffixes *)
  st3 <- for_range_down 0 n
           (fun i st =>
              x <- vget (fst st) i ;;
              if 0 <? x then
                t <- vget types (Int32.sub x 1) ;;
                if negb t then c <- vget s (Int32.sub x 1) ;; place_tail c (Int32.sub x 1) st
                else Some st
              else Some st)
           (fst st2, bucket_ends) ;;
  Some (fst st3).

(** Bucket sizes, then the running sums: [(bucket_starts, bucket_ends)]. *)
Definition bucket_bounds (s : list Z) (n alphabet_size : Z) : option (list Z * list Z) :=
  if alphabet_size <? 0 then None
  else
    let zeros := repeat 0 (Z.to_nat alphabet_size) in
    buckets <- for_range 0 n
                 (fun i b => c <- vget s i ;; k <- vget b c ;; vset b c (Int32.add k 1))
                 zeros ;;
    '(starts, ends, _) <-
      for_range 0 alphabet_size
        (fun i '(starts, ends, sum) =>
           starts' <- vset starts i sum ;;
           k <- vget buckets i ;;
           ends' <- vset ends i (Int32.add sum k) ;;
           Some (starts', ends', Int32.add sum k))
        (zeros, zeros, 0) ;;
    Some (starts, ends).

(** [buildSAIS(s, n, sa, alphabet_size)]; returns the new contents of [sa]. *)
Definition buildSAIS (s : list Z) (n : Z) (sa : list Z) (alphabet_size : Z)
  : option (list Z) :=
  if n =? 0 then Some sa
  else if n =? 1 then vset sa 0 0
  else
    types <- computeTypes s n ;;
    '(bucket_starts, bucket_ends) <- bucket_bounds s n alphabet_size ;;
    induceSort s n sa types bucket_starts bucket_ends.

(** The alphabet size the constructor computes: largest code unit plus one. *)
Definition alphabet_size_of (text : list Z) : Z :=
  Int32.add (fold_left (fun max_char c => if max_char <? c then c else max_char) text 0) 1.

(** The constructor of the SA-IS variant, up to the call of [computeLCP]. *)
Definition SuffixArray_new_sais (text : list Z) : option (list Z) :=
  let n := length text in
  let sa := repeat 0 n in
  if (n =? 0)%nat then Some sa
  else buildSAIS text (Int32.of_size n) sa (alphabet_size_of text).

(** ** [class SAMatcher] (src/include/parser.hpp, from line 461) *)

(** The loop of [comparePattern]: [pos] and [i] are [size_t]; [text[pos + i]]
    is read under the guard [pos + i < text_len]. *)
Fixpoint comparePattern_loop (text : list Z) (text_len pos : Z) (pattern : list Z)
    (i : Z) : Z :=
  match pattern with
  | [] => 0
  | c :: rest =>
      if text_len <=? Size.add pos i then 1
      else
        let x := nth (Z.to_nat (Size.add pos i)) text 0 in
        if c <? x then -1
        else if x <? c then 1
        else comparePattern_loop text text_len pos rest (Size.add i 1)
  end.

Definition comparePattern (sa : SuffixArray) (pattern : list Z) (suffix_idx : Z) : Z :=
  comparePattern_loop (text_ sa) (n_ sa) (Size.wrap suffix_idx) pattern 0.

(** The two binary searches differ in one test: [findLeft] goes right when
    [comparePattern(...) > 0], [findRight] when [comparePattern(...) >= 0]. *)
Fixpoint search_loop (go_right : Z -> bool) (fuel : nat) (sa : SuffixArray)
    (pattern : list Z) (left right : Z) : option Z :=
  match fuel with
  | O => None
  | S fuel' =>
      if left <? right then
        let mid := Int32.add left (Int32.div (Int32.sub right left) 2) in
        x <- vget (sa_ sa) mid ;;
        if go_right (comparePattern sa pattern x)
        then search_loop go_right fuel' sa pattern (Int32.add mid 1) right
        else search_loop go_right fuel' sa pattern left mid
      else Some left
  end.

Definition findLeft (sa : SuffixArray) (pattern : list Z) : option Z :=
  search_loop (fun c => 0 <? c) (S (length (sa_ sa))) sa pattern
              0 (Int32.of_size (length (sa_ sa))).

Definition findRight (sa : SuffixArray) (pattern : list Z) : option Z :=
  search_loop (fun c => 0 <=? c) (S (length (sa_ sa))) sa pattern
              0 (Int32.of_size (length (sa_ sa))).

Definition findAll (sa : SuffixArray) (pattern : list Z) : option (list Z) :=
  if (len pattern =? 0) || (n_ sa =? 0) then Some []
  else
    left <- findLeft sa pattern ;;
    right <- findRight sa pattern ;;
    result <- mapM (vget (sa_ sa)) (zseq left (Z.to_nat (right - left))) ;;
    Some (std_sort Z.ltb result).

Definition exists_ (sa : SuffixArray) (pattern : list Z) : option bool :=
  if (len pattern =? 0) || (n_ sa =? 0) then Some false
  else
    left <- findLeft sa pattern ;;
    right <- findRight sa pattern ;;
    Some (left <? right).

Definition count (sa : SuffixArray) (pattern : list Z) : option Z :=
  if (len pattern =? 0) || (n_ sa =? 0) then Some 0
  else
    left <- findLeft sa pattern ;;
    right <- findRight sa pattern ;;
    Some (Int32.sub right left).

(** ** Logical operations on result lists
    (src/include/parser.hpp, lines 272-460: the file andor.hpp) *)

(** [std::set_intersection(first1, last1, first2, last2, out)].  The standard
    fixes the result for sorted ranges, and the theorems below assume them
    sorted; the walk is the one every implementation performs.  Each input
    iterator is the part of its range not yet passed. *)
Fixpoint set_intersection (a b : list Z) {struct a} : list Z :=
  match a with
  | [] => []
  | x :: a' =>
      (fix walk (b : list Z) : list Z :=
         match b with
         | [] => []
         | y :: b' =>
             if x <? y then set_intersection a' b
             else if y <? x then walk b'
             else x :: set_intersection a' b'
         end) b
  end.

(** [std::set_union]. *)
Fixpoint set_union (a b : list Z) {struct a} : list Z :=
  match a with
  | [] => b
  | x :: a' =>
      (fix walk (b : list Z) : list Z :=
         match b with
         | [] => x :: a'
         | y :: b' =>
             if x <? y then x :: set_union a' b
             else if y <? x then y :: walk b'
             else x :: set_union a' b'
         end) b
  end.

(** [std::set_difference]. *)
Fixpoint set_difference (a b : list Z) {struct a} : list Z :=
  match a with
  | [] => []
  | x :: a' =>
      (fix walk (b : list Z) : list Z :=
         match b with
         | [] => x :: a'
         | y :: b' =>
             if x <? y then x :: set_difference a' b
             else if y <? x then walk b'
             else set_difference a' b'
         end) b
  end.

Definition andOperation (a b : list Z) : list Z := set_intersection a b.
Definition orOperation (a b : list Z) : list Z := set_union a b.
Definition notOperation (a b : list Z) : list Z := set_difference a b.

(** [while (j < b.size() && b[j] < bound) j++;] on the part of [b] from [j]
    on; it returns the part of [b] from the new [j] on. *)
Fixpoint skip_below (bound : Z) (b : list Z) : list Z :=
  match b with
  | [] => []
  | y :: b' => if y <? bound then skip_below bound b' else b
  end.

(** The inner loop of [proximityAnd] from [k = j]: does it reach
    [result.push_back(a[i])]? *)
Fixpoint near (x max_distance : Z) (b : list Z) : bool :=
  match b with
  | [] => false
  | y :: b' =>
      if y <=? Int32.add x max_distance then
        if Int32.abs (Int32.sub y x) <=? max_distance then true
        else near x max_distance b'
      else false
  end.

(** [proximityAnd(a, b, max_distance)]; the loop state is [(j, result)]. *)
Definition proximityAnd (a b : list Z) (max_distance : Z) : list Z :=
  snd (fold_left
         (fun '(bj, result) x =>
            let bj' := skip_below (Int32.sub x max_distance) bj in
            (bj', if near x max_distance bj' then result ++ [x] else result))
         a (b, [])).

(** The inner loop of [orderedProximity], which pushes and breaks in its
    first iteration. *)
Definition followed (end_of_a max_distance : Z) (b : list Z) : bool :=
  match b with
  | [] => false
  | y :: _ => y <=? Int32.add end_of_a max_distance
  end.

(** [orderedProximity(a, b, pattern_a_len, max_distance)]. *)
Definition orderedProximity (a b : list Z) (pattern_a_len max_distance : Z) : list Z :=
  snd (fold_left
         (fun '(bj, result) x =>
            let end_of_a := Int32.add x pattern_a_len in
            let bj' := skip_below end_of_a bj in
            (bj', if followed end_of_a max_distance bj' then result ++ [x] else result))
         a (b, [])).

Definition multiAnd (results : list (list Z)) : list Z :=
  match results with
  | [] => []
  | r0 :: rest => fold_left andOperation rest r0
  end.

Definition multiOr (results : list (list Z)) : list Z :=
  match results with
  | [] => []
  | r0 :: rest => fold_left orOperation rest r0
  end.

(** ** [class QueryParser] (src/include/parser.hpp, lines 21-269) *)

Module TokenType.
Inductive t : Type := WORD | AND | OR | NOT | LPAREN | RPAREN | END.
End TokenType.

Module Token.
Record t : Type := mk { type : TokenType.t; value : list Z }.
End Token.

Module NodeType.
Inductive t : Type := WORD | AND | OR | NOT.
End NodeType.

(** [std::shared_ptr<ASTNode>]: [None] is [nullptr]. *)
Module ASTNode.
#[warnings="-register-all"]
Inductive t : Type :=
  mk (type : NodeType.t) (value : list Z) (left right : option t).
End ASTNode.

(** [std::isspace] in the "C" locale: space, and [\t \n \v \f \r]. *)
Definition isspace (c : Z) : bool := (c =? 32) || ((9 <=? c) && (c <=? 13)).

(** [static_cast<unsigned char>(c)]. *)
Definition to_uchar (c : Z) : Z := c mod 2 ^ 8.

(** [if (c >= 'a' && c <= 'z') c = c - 'a' + 'A';] *)
Definition toupper_ascii (c : Z) : Z :=
  if (97 <=? c) && (c <=? 122) then c - 97 + 65 else c.

(** The loop of [startsWithIgnoreCase] over [prefix]; [str[i]] is read under
    the length test that precedes the loop. *)
Fixpoint startsWith_loop (str prefix : list Z) {struct prefix} : bool :=
  match prefix with
  | [] => true
  | c2 :: prefix' =>
      match str with
      | [] => false
      | c1 :: str' =>
          if toupper_ascii c1 =? toupper_ascii c2 then startsWith_loop str' prefix'
          else false
      end
  end.

Definition startsWithIgnoreCase (str prefix : list Z) : bool :=
  if (length str <? length prefix)%nat then false
  else startsWith_loop str prefix.

(** The loops of [tokenize] on the part of [query] from [i] on.

    [while (i < query.length() && std::isspace(...)) i++;] *)
Fixpoint skip_spaces (q : list Z) : list Z :=
  match q with
  | [] => []
  | c :: q' => if isspace (to_uchar c) then skip_spaces q' else q
  end.

(** [while (i < query.length() && query[i] != '_') { op += query[i]; i++; }]:
    [op] and the part of [query] from the new [i] on. *)
Fixpoint read_operator (q : list Z) : list Z * list Z :=
  match q with
  | [] => ([], [])
  | c :: q' =>
      if c =? 95 then ([], q)
      else let '(op, rest) := read_operator q' in (c :: op, rest)
  end.

(** The guard of the loop that reads a word. *)
Definition word_char (c : Z) : bool :=
  negb (isspace (to_uchar c)) && negb (c =? 40) && negb (c =? 41) && negb (c =? 95).

Fixpoint read_word (q : list Z) : list Z * list Z :=
  match q with
  | [] => ([], [])
  | c :: q' =>
      if word_char c then let '(word, rest) := read_word q' in (c :: word, rest)
      else ([], q)
  end.

(** [operator==] on [std::basic_string]. *)
Definition string_eqb (s t : list Z) : bool :=
  if list_eq_dec Z.eq_dec s t then true else false.

(** The token for [_op_]: [op] is upper-cased and compared with "AND", "OR"
    and "NOT"; anything else is a word, spelled as in the query. *)
Definition operator_token (op spelling : list Z) : Token.t :=
  let op_upper := map toupper_ascii op in
  if string_eqb op_upper [65; 78; 68] then Token.mk TokenType.AND []
  else if string_eqb op_upper [79; 82] then Token.mk TokenType.OR []
  else if string_eqb op_upper [78; 79; 84] then Token.mk TokenType.NOT []
  else Token.mk TokenType.WORD spelling.

(** The outer loop of [tokenize]. *)
Fixpoint tokenize_loop (fuel : nat) (q : list Z) (tokens_ : list Token.t)
  : option (list Token.t) :=
  match fuel with
  | O => None
  | S fuel' =>
      match q with
      | [] => Some tokens_
      | _ :: _ =>
          match skip_spaces q with
          | [] => Some tokens_
          | c :: q1 =>
              if c =? 95 then
                let '(op, q2) := read_operator q1 in
                let '(closing, q3) :=
                  match q2 with
                  | d :: q3 => if d =? 95 then ([d], q3) else ([], q2)
                  | [] => ([], q2)
                  end in
                tokenize_loop fuel' q3
                  (tokens_ ++ [operator_token op (c :: op ++ closing)])
              else if c =? 40 then
                tokenize_loop fuel' q1 (tokens_ ++ [Token.mk TokenType.LPAREN []])
              else if c =? 41 then
                tokenize_loop fuel' q1 (tokens_ ++ [Token.mk TokenType.RPAREN []])
              else
                let '(word, q2) := read_word (c :: q1) in
                tokenize_loop fuel' q2 (tokens_ ++ [Token.mk TokenType.WORD word])
          end
      end
  end.

(** [tokenize(query)]: the new contents of [tokens_]. *)
Definition tokenize (query : list Z) : option (list Token.t) :=
  tokens_ <- tokenize_loop (S (length query)) query [] ;;
  Some (tokens_ ++ [Token.mk TokenType.END []]).

(** [tok.type == ty]. *)
Definition is_type (ty : TokenType.t) (tok : Token.t) : bool :=
  match Token.type tok, ty with
  | TokenType.WORD, TokenType.WORD | TokenType.AND, TokenType.AND
  | TokenType.OR, TokenType.OR | TokenType.NOT, TokenType.NOT
  | TokenType.LPAREN, TokenType.LPAREN | TokenType.RPAREN, TokenType.RPAREN
  | TokenType.END, TokenType.END => true
  | _, _ => false
  end.

(** What a parsing function leaves: the node it returns, and the part of
    [tokens_] from [current_] on. *)
Definition parsed : Type := option ASTNode.t * list Token.t.

Section Descent.
(** [parseExpression], which [parsePrimary] calls back. *)
Variable parseExpression : list Token.t -> option parsed.

Definition parsePrimary (ts : list Token.t) : option parsed :=
  match ts with
  | [] => Some (None, ts)
  | tok :: ts' =>
      if is_type TokenType.LPAREN tok then
        '(expr, ts1) <- parseExpression ts' ;;
        match ts1 with
        | tok1 :: ts2 =>
            if is_type TokenType.RPAREN tok1 then Some (expr, ts2) else Some (expr, ts1)
        | [] => Some (expr, ts1)
        end
      else if is_type TokenType.WORD tok then
        Some (Some (ASTNode.mk NodeType.WORD (Token.value tok) None None), ts')
      else Some (None, ts)
  end.

Definition parseNot (ts : list Token.t) : option parsed :=
  match ts with
  | tok :: ts' =>
      if is_type TokenType.NOT tok then
        '(operand, ts1) <- parsePrimary ts' ;;
        Some (Some (ASTNode.mk NodeType.NOT [] operand None), ts1)
      else parsePrimary ts
  | [] => parsePrimary ts
  end.

(** The [while] loop of [parseAnd]. *)
Fixpoint parseAnd_loop (fuel : nat) (left_ : option ASTNode.t) (ts : list Token.t)
  : option parsed :=
  match fuel with
  | O => None
  | S fuel' =>
      match ts with
      | tok :: ts' =>
          if is_type TokenType.AND tok then
            '(right_, ts1) <- parseNot ts' ;;
            parseAnd_loop fuel' (Some (ASTNode.mk NodeType.AND [] left_ right_)) ts1
          else Some (left_, ts)
      | [] => Some (left_, ts)
      end
  end.

Definition parseAnd (fuel : nat) (ts : list Token.t) : option parsed :=
  '(left_, ts1) <- parseNot ts ;;
  parseAnd_loop fuel left_ ts1.

(** The [while] loop of [parseOr]. *)
Fixpoint parseOr_loop (fuel : nat) (left_ : option ASTNode.t) (ts : list Token.t)
  : option parsed :=
  match fuel with
  | O => None
  | S fuel' =>
      match ts with
      | tok :: ts' =>
          if is_type TokenType.OR tok then
            '(right_, ts1) <- parseAnd fuel' ts' ;;
            parseOr_loop fuel' (Some (ASTNode.mk NodeType.OR [] left_ right_)) ts1
          else Some (left_, ts)
      | [] => Some (left_, ts)
      end
  end.

Definition parseOr (fuel : nat) (ts : list Token.t) : option parsed :=
  '(left_, ts1) <- parseAnd fuel ts ;;
  parseOr_loop fuel left_ ts1.

End Descent.

Fixpoint parseExpression (fuel : nat) (ts : list Token.t) : option parsed :=
  match fuel with
  | O => None
  | S fuel' => parseOr (parseExpression fuel') fuel' ts
  end.

(** [parse(query)]: the outer [None] is fuel running out, which does not
    happen ([parse_lenient] below); the inner one is [nullptr]. *)
Definition parse (query : list Z) : option (option ASTNode.t) :=
  tokens_ <- tokenize query ;;
  '(ast, _) <- parseExpression (S (S (length tokens_))) tokens_ ;;
  Some ast.

Definition extractWords (query : list Z) : option (list (list Z)) :=
  tokens_ <- tokenize query ;;
  Some (map Token.value (filter (is_type TokenType.WORD) tokens_)).

End sa_phrase_search.

(** * [namespace sa_ps::detail] *)

Module sa_ps.

Definition wstring : Type := list Z.

Fixpoint wstring_eqb (s t : wstring) : bool :=
  match s, t with
  | [], [] => true
  | x :: s', y :: t' => (x =? y) && wstring_eqb s' t'
  | _, _ => false
  end.

(** ** src/include/sa-match.hpp *)

(** [s.data()[i]]: the code units of [s], then the terminator [0] at index
    [s.size()]; nothing beyond is the string's. *)
Definition data_at (s : wstring) (i : Z) : option Z :=
  if i =? len s then Some 0 else vget s i.

(** [std::char_traits<wchar_t>::compare(s.data() + off, t.data(), t.size())]:
    the code units are compared in order and the first difference decides;
    nothing after it is read. *)
Fixpoint compare_from (s : wstring) (off : Z) (t : wstring) : option comparison :=
  match t with
  | [] => Some Eq
  | c :: t' =>
      x <- data_at s off ;;
      if x <? c then Some Lt
      else if c <? x then Some Gt
      else compare_from s (off + 1) t'
  end.

(** The lambda [bin] of [sa_match], its loop state [(l, r, ans)]. *)
Fixpoint bin_loop (fuel : nat) (s : wstring) (sa : list Z) (t : wstring)
    (first : bool) (l r ans : Z) : option Z :=
  match fuel with
  | O => None
  | S fuel' =>
      if l <=? r then
        let mid := Int32.div (Int32.add l r) 2 in
        x <- vget sa mid ;;
        cmp <- compare_from s x t ;;
        match cmp with
        | Eq =>
            if first then bin_loop fuel' s sa t first l (Int32.sub mid 1) mid
            else bin_loop fuel' s sa t first (Int32.add mid 1) r mid
        | Gt => bin_loop fuel' s sa t first l (Int32.sub mid 1) ans
        | Lt => bin_loop fuel' s sa t first (Int32.add mid 1) r ans
        end
      else Some ans
  end.

Definition bin (s : wstring) (sa : list Z) (t : wstring) (n : Z) (first : bool)
  : option Z :=
  bin_loop (S (Z.to_nat n)) s sa t first 0 (Int32.sub n 1) (-1).

Definition sa_match (s : wstring) (sa : list Z) (t : wstring) : option (list Z) :=
  if (length s <? length t)%nat then Some []
  else if (length s =? length t)%nat then
    if wstring_eqb s t then Some [0] else Some []
  else
    let n := Int32.of_size (length s) in
    ansl <- bin s sa t n true ;;
    ansr <- bin s sa t n false ;;
    if ansl =? -1 then Some []
    else
      let size := Int32.add (Int32.sub ansr ansl) 1 in
      if size <? 0 then None
      else
        ans <- mapM (vget sa) (zseq ansl (Z.to_nat size)) ;;
        Some (std_sort Z.ltb ans).

(** ** src/include/grouped-data.hpp *)

Inductive group_type : Type := AND | OR.

Record grouped_data (Type_ : group_type) : Type := mk_grouped_data {
  strs : list wstring
}.
Arguments mk_grouped_data {Type_} _.
Arguments strs {Type_} _.

(** Group objects live in a store and are passed by reference (an address);
    a local object is allocated at the end of the store and dropped when the
    function returns. *)
Definition store (Type_ : group_type) : Type := list (grouped_data Type_).

(** [operator&(s1, s2)] and [operator|(s1, s2)]. *)
Definition op_str_str {Type_ : group_type} (s1 s2 : wstring) : grouped_data Type_ :=
  mk_grouped_data [s1; s2].

(** [operator&=(value, s2)] and [operator|=(value, s2)]:
    [value.strs.push_back(s2)] on the object at address [value]. *)
Definition op_assign {Type_ : group_type} (value : nat) (s2 : wstring)
    (st : store Type_) : option (store Type_) :=
  g <- nth_error st value ;;
  Some (list_set st value (mk_grouped_data (strs g ++ [s2]))).

(** [operator&(value, s2)] and [operator|(value, s2)]:
    [result = value; result &= s2; return result;] *)
Definition op_group_str {Type_ : group_type} (value : nat) (s2 : wstring)
    (st : store Type_) : option (grouped_data Type_ * store Type_) :=
  g <- nth_error st value ;;
  let result := length st in
  st1 <- op_assign result s2 (st ++ [g]) ;;
  r <- nth_error st1 result ;;
  Some (r, firstn result st1).

(** [operator&(s1, value)] and [operator|(s1, value)]:
    [result = value; result &= s1; return result;] *)
Definition op_str_group {Type_ : group_type} (s1 : wstring) (value : nat)
    (st : store Type_) : option (grouped_data Type_ * store Type_) :=
  g <- nth_error st value ;;
  let result := length st in
  st1 <- op_assign result s1 (st ++ [g]) ;;
  r <- nth_error st1 result ;;
  Some (r, firstn result st1).

(** The [while] loop of [grouped_match] for an AND group, on [(j, k, buffer)];
    [ans[j]] and [fevery[i][k]] are read under the loop guard. *)
Fixpoint and_loop (fuel : nat) (ans fe : list Z) (md : Z) (j k : Z)
    (buffer : list Z) : list Z :=
  match fuel with
  | O => buffer
  | S fuel' =>
      if (j <? len ans) && (k <? len fe) then
        let a := nth (Z.to_nat j) ans 0 in
        let b := nth (Z.to_nat k) fe 0 in
        if Int32.abs (Int32.sub a b) <=? md then
          and_loop fuel' ans fe md (j + 1) (k + 1) (buffer ++ [Z.min a b])
        else if a <? b then and_loop fuel' ans fe md (j + 1) k buffer
        else and_loop fuel' ans fe md j (k + 1) buffer
      else buffer
  end.

(** One round of the AND fold: the new [ans] from [ans] and [fevery[i]]. *)
Definition and_step (md : Z) (ans fe : list Z) : list Z :=
  and_loop (S (length ans + length fe)) ans fe md 0 0 [].

(** The first [while] loop of [grouped_match] for an OR group; it returns
    [(j, k, buffer)] for the two draining loops. *)
Fixpoint or_loop (fuel : nat) (ans fe : list Z) (md : Z) (j k : Z)
    (buffer : list Z) : Z * Z * list Z :=
  match fuel with
  | O => (j, k, buffer)
  | S fuel' =>
      if (j <? len ans) && (k <? len fe) then
        let a := nth (Z.to_nat j) ans 0 in
        let b := nth (Z.to_nat k) fe 0 in
        if Int32.abs (Int32.sub a b) <=? md then
          or_loop fuel' ans fe md (j + 1) (k + 1) (buffer ++ [Z.min a b])
        else if a <? b then or_loop fuel' ans fe md (j + 1) k (buffer ++ [a])
        else or_loop fuel' ans fe md j (k + 1) (buffer ++ [b])
      else (j, k, buffer)
  end.

(** [while (j < v.size()) { buffer.push_back(v[j]); ++j; }] *)
Definition drain (v : list Z) (j : Z) (buffer : list Z) : list Z :=
  buffer ++ skipn (Z.to_nat j) v.

Definition or_step (md : Z) (ans fe : list Z) : list Z :=
  let '(j, k, buffer) := or_loop (S (length ans + length fe)) ans fe md 0 0 [] in
  drain fe k (drain ans j buffer).

(** [grouped_match(str, sa, data, md)] for [grouped_data<AND>].  The empty
    group returns [std::vector<int> ans(str.size())] filled by
    [std::iota(ans.begin(), ans.end(), 0)]. *)
Definition grouped_match_AND (str : wstring) (sa : list Z) (data : grouped_data AND)
    (md : Z) : option (list Z) :=
  match strs data with
  | [] => Some (std_iota (length str) 0)
  | _ =>
      fevery <- mapM (sa_match str sa) (strs data) ;;
      match fevery with
      | [] => None
      | f0 :: rest => Some (fold_left (and_step md) rest f0)
      end
  end.

(** [grouped_match(str, sa, data, md)] for [grouped_data<OR>], with the same
    empty-group branch. *)
Definition grouped_match_OR (str : wstring) (sa : list Z) (data : grouped_data OR)
    (md : Z) : option (list Z) :=
  match strs data with
  | [] => Some (std_iota (length str) 0)
  | _ =>
      fevery <- mapM (sa_match str sa) (strs data) ;;
      match fevery with
      | [] => None
      | f0 :: rest => Some (fold_left (or_step md) rest f0)
      end
  end.

End sa_ps.

Import sa_phrase_search sa_ps.

(** * Specification vocabulary *)

(** [suffix T i] is [T[i..n)]. *)
Definition suffix (T : list Z) (i : Z) : list Z := skipn (Z.to_nat i) T.

(** Code-unit lexicographic order; a proper prefix compares smaller. *)
Fixpoint lex_ltb (u v : list Z) : bool :=
  match u, v with
  | _, [] => false
  | [], _ :: _ => true
  | x :: u', y :: v' =>
      if x <? y then true else if y <? x then false else lex_ltb u' v'
  end.

Definition lex_lt (u v : list Z) : Prop := lex_ltb u v = true.

(** Length of the longest common prefix. *)
Fixpoint lcp (u v : list Z) : Z :=
  match u, v with
  | x :: u', y :: v' => if x =? y then 1 + lcp u' v' else 0
  | _, _ => 0
  end.

(** [v[i]] where the index is known to be in range. *)
Definition at_ (v : list Z) (i : Z) : Z := nth (Z.to_nat i) v 0.

(** The data-model invariants of a suffix array of [T]. *)
Definition sa_sorted (T SA : list Z) : Prop :=
  forall i, 0 <= i -> i + 1 < len SA ->
            lex_lt (suffix T (at_ SA i)) (suffix T (at_ SA (i + 1))).

Definition valid_sa (T SA : list Z) : Prop :=
  Permutation SA (iota (len T)) /\ sa_sorted T SA.

(** [P] occurs in [T] at position [i]: [T[i..i+|P|) = P]. *)
Definition occurs_at (T P : list Z) (i : Z) : Prop :=
  0 <= i /\ i + len P <= len T /\ firstn (length P) (suffix T i) = P.

(** Text offsets: non-negative [int]s. *)
Definition position (x : Z) : Prop := 0 <= x <= Int32.max_int.

(** A list the searches and the loops produce: strictly increasing offsets. *)
Definition position_list (L : list Z) : Prop :=
  StronglySorted Z.lt L /\ Forall position L.

(** A pattern of positive code units: it holds no code unit [0], and none
    below. *)
Definition nul_free (P : list Z) : Prop := Forall (fun c => 0 < c) P.

Definition banana : list Z := [98; 97; 110; 97; 110; 97].

(** The two-pointer loops of [grouped_match] as recursions on the unread parts
    of the two lists ([and_step_merge], [or_step_merge] below). *)
Fixpoint merge_and (md : Z) (A B : list Z) {struct A} : list Z :=
  match A with
  | [] => []
  | a :: A' =>
      (fix inner (B : list Z) : list Z :=
         match B with
         | [] => []
         | b :: B' =>
             if Int32.abs (Int32.sub a b) <=? md then Z.min a b :: merge_and md A' B'
             else if a <? b then merge_and md A' B
             else inner B'
         end) B
  end.

Fixpoint merge_or (md : Z) (A B : list Z) {struct A} : list Z :=
  match A with
  | [] => B
  | a :: A' =>
      (fix inner (B : list Z) : list Z :=
         match B with
         | [] => a :: A'
         | b :: B' =>
             if Int32.abs (Int32.sub a b) <=? md then Z.min a b :: merge_or md A' B'
             else if a <? b then a :: merge_or md A' B
             else b :: inner B'
         end) B
  end.

(** The invariant of the second loop of [computeLCP] before iteration [i], on
    the state [(h, lcp_)]; [R] is the rank array.  Entries of suffixes already
    visited are final, the others are still 0, and [h] does not exceed the
    common prefix of suffix [i] with its predecessor in suffix-array order. *)
Definition kasai_inv (T SA R : list Z) (i : Z) (st : Z * list Z) : Prop :=
  let '(h, L) := st in
  len L = len T /\
  0 <= h /\
  (h = 0 \/
   (i < len T /\ 0 < at_ R i /\
    h <= lcp (suffix T i) (suffix T (at_ SA (at_ R i - 1))))) /\
  (forall p, 0 <= p < len T ->
             at_ L p =
             if (at_ SA p <? i) && (0 <? p)
             then lcp (suffix T (at_ SA p)) (suffix T (at_ SA (p - 1)))
             else 0).

(** What [compare] sees of a suffix [u] against the pattern [P]: the suffix,
    then the terminator, cut to the length of the pattern. *)
Fixpoint prefix_cmp (u P : list Z) {struct P} : comparison :=
  match P with
  | [] => Eq
  | c :: P' =>
      match u with
      | [] => Lt
      | x :: u' =>
          if x <? c then Lt else if c <? x then Gt else prefix_cmp u' P'
      end
  end.

(** What [comparePattern] computes: the pattern [P] against the suffix [u],
    cut to the length of the pattern; a suffix that ends first is smaller. *)
Fixpoint pat_cmp (P u : list Z) {struct P} : Z :=
  match P with
  | [] => 0
  | c :: P' =>
      match u with
      | [] => 1
      | x :: u' =>
          if c <? x then -1 else if x <? c then 1 else pat_cmp P' u'
      end
  end.

(** The [SuffixArray] object with the suffix array [SA] and the LCP array [L]
    of the text [T]. *)
Definition built_object (SA L T : list Z) : SuffixArray :=
  mkSuffixArray SA L T (len T).

(** [Lt], [Eq], [Gt] in increasing order. *)
Definition cmp_rank (c : comparison) : Z :=
  match c with
  | Lt => 0
  | Eq => 1
  | Gt => 2
  end.

(** [not_after lt x y]: the comparator does not put [y] before [x]. *)
Definition not_after {A : Type} (lt : A -> A -> bool) (x y : A) : Prop :=
  lt y x = false.

(** ** Result lists *)

(** How many times [x] occurs in [l]. *)
Definition occ (l : list Z) (x : Z) : nat := count_occ Z.eq_dec l x.

(** Some element of [b] is within [md] of [x]. *)
Definition within (md x : Z) (b : list Z) : bool :=
  existsb (fun y => Z.abs (y - x) <=? md) b.

(** Some element of [b] starts at most [md] after the end [x + len_a] of the
    occurrence at [x], and not before it. *)
Definition follows (len_a md x : Z) (b : list Z) : bool :=
  existsb (fun y => (x + len_a <=? y) && (y <=? x + len_a + md)) b.

(** ** Suffix types *)

(** The type [computeTypes] gives to the first position of [u]: [true] (L-type)
    when the first change of code unit in [u] is a decrease. *)
Fixpoint l_type (u : list Z) : bool :=
  match u with
  | x :: ((y :: _) as u') =>
      if x <? y then false else if y <? x then true else l_type u'
  | _ => false
  end.

(** ** Queries *)

(** A code unit that [tokenize] takes for white space. *)
Definition space_like (c : Z) : Prop := isspace (to_uchar c) = true.

(** A word as the word loop of [tokenize] reads it: not empty, and without
    white space, parentheses and underscores. *)
Definition plain (w : list Z) : Prop :=
  w <> [] /\ Forall (fun c => word_char c = true) w.

(** The word loop stops in front of [rest]. *)
Definition stops (rest : list Z) : Prop :=
  match rest with
  | [] => True
  | c :: _ => word_char c = false
  end.

(** What [tokenize] puts in front of [END]: operators and parentheses carry no
    value; a word is plain, or it begins with the underscore of an operator
    that was not recognised. *)
Definition proper (tok : Token.t) : Prop :=
  match Token.type tok with
  | TokenType.WORD =>
      plain (Token.value tok) \/ exists rest, Token.value tok = 95 :: rest
  | TokenType.END => False
  | _ => Token.value tok = []
  end.

(** A token spelled out: a word as it is, an operator in capitals between
    underscores. *)
Definition spell (tok : Token.t) : list Z :=
  match Token.type tok with
  | TokenType.WORD => Token.value tok
  | TokenType.AND => [95; 65; 78; 68; 95]
  | TokenType.OR => [95; 79; 82; 95]
  | TokenType.NOT => [95; 78; 79; 84; 95]
  | TokenType.LPAREN => [40]
  | TokenType.RPAREN => [41]
  | TokenType.END => []
  end.

(** The query that spells the tokens out, a space after each. *)
Definition unlex (toks : list Token.t) : list Z :=
  flat_map (fun tok => spell tok ++ [32]) toks.

(** The tokens [unlex] spells unambiguously. *)
Definition canonical (tok : Token.t) : Prop :=
  match Token.type tok with
  | TokenType.WORD => plain (Token.value tok)
  | TokenType.END => False
  | _ => Token.value tok = []
  end.

Definition upper_token (tok : Token.t) : Token.t :=
  Token.mk (Token.type tok) (map toupper_ascii (Token.value tok)).

(** The concrete syntax the parser accepts:
    [or ::= and (OR and)*], [and ::= not (AND not)*],
    [not ::= NOT primary | primary], [primary ::= WORD | ( or )]. *)
Inductive syntax : Type :=
| SWord (w : list Z)
| SNot (x : syntax)
| SAnd (l r : syntax)
| SOr (l r : syntax)
| SParen (x : syntax).

(** The grammar level an expression stands at: 0 for [or], 1 for [and],
    2 for [not], 3 for [primary]. *)
Definition level (s : syntax) : nat :=
  match s with
  | SOr _ _ => 0
  | SAnd _ _ => 1
  | SNot _ => 2
  | SWord _ | SParen _ => 3
  end.

(** Every operand stands at the level its place asks for; AND and OR
    associate to the left. *)
Fixpoint grammatical (s : syntax) : Prop :=
  match s with
  | SWord w => plain w
  | SNot x => (3 <= level x)%nat /\ grammatical x
  | SAnd l r => (1 <= level l)%nat /\ (2 <= level r)%nat /\ grammatical l /\ grammatical r
  | SOr l r => (1 <= level r)%nat /\ grammatical l /\ grammatical r
  | SParen x => grammatical x
  end.

Fixpoint tokens (s : syntax) : list Token.t :=
  match s with
  | SWord w => [Token.mk TokenType.WORD w]
  | SNot x => Token.mk TokenType.NOT [] :: tokens x
  | SAnd l r => tokens l ++ Token.mk TokenType.AND [] :: tokens r
  | SOr l r => tokens l ++ Token.mk TokenType.OR [] :: tokens r
  | SParen x => Token.mk TokenType.LPAREN [] :: tokens x ++ [Token.mk TokenType.RPAREN []]
  end.

(** The tree the expression stands for; parentheses leave no node. *)
Fixpoint node_of (s : syntax) : ASTNode.t :=
  match s with
  | SWord w => ASTNode.mk NodeType.WORD w None None
  | SNot x => ASTNode.mk NodeType.NOT [] (Some (node_of x)) None
  | SAnd l r => ASTNode.mk NodeType.AND [] (Some (node_of l)) (Some (node_of r))
  | SOr l r => ASTNode.mk NodeType.OR [] (Some (node_of l)) (Some (node_of r))
  | SParen x => node_of x
  end.

(** The words at the leaves of a tree, from left to right. *)
Fixpoint leaves (t : ASTNode.t) : list (list Z) :=
  match t with
  | ASTNode.mk ty v l r =>
      match ty with NodeType.WORD => [v] | _ => [] end
      ++ match l with Some x => leaves x | None => [] end
      ++ match r with Some x => leaves x | None => [] end
  end.

(** The AND (OR) operators at the top of an expression: the iterations of the
    loop of [parseAnd] ([parseOr]) that reads it. *)
Fixpoint ands (s : syntax) : nat :=
  match s with
  | SAnd l _ => S (ands l)
  | _ => 0
  end.

Fixpoint ors (s : syntax) : nat :=
  match s with
  | SOr l _ => S (ors l)
  | _ => 0
  end.

(** [rest] does not begin with a token of type [ty]. *)
Definition no_operator (ty : TokenType.t) (rest : list Token.t) : Prop :=
  match rest with
  | [] => True
  | tok :: _ => is_type ty tok = false
  end.

(** What each parsing function does on the tokens of an expression followed
    by [rest], [rec] standing for [parseExpression]. *)
Definition primary_ok (rec : list Token.t -> option parsed) (s : syntax) : Prop :=
  forall rest, parsePrimary rec (tokens s ++ rest) = Some (Some (node_of s), rest).

Definition not_ok (rec : list Token.t -> option parsed) (s : syntax) : Prop :=
  forall rest, parseNot rec (tokens s ++ rest) = Some (Some (node_of s), rest).

Definition and_ok (rec : list Token.t -> option parsed) (s : syntax) : Prop :=
  forall k rest, (ands s < k)%nat ->
    parseAnd rec k (tokens s ++ rest) = parseAnd_loop rec (k - ands s) (Some (node_of s)) rest.

Definition or_ok (rec : list Token.t -> option parsed) (s : syntax) : Prop :=
  forall k rest, (length (tokens s) < k)%nat -> no_operator TokenType.AND rest ->
    parseOr rec k (tokens s ++ rest) = parseOr_loop rec (k - ors s) (Some (node_of s)) rest.

(** A parsing function returns, and leaves no more tokens than it found. *)
Definition returns_shorter (res : option parsed) (ts : list Token.t) : Prop :=
  exists r ts', res = Some (r, ts') /\ (length ts' <= length ts)%nat.

(** * Proof automation *)

(** Facts about the heads of two strictly increasing position lists. *)
Ltac heads SA SB PA PB :=
  apply StronglySorted_inv in SA; destruct SA as [SA ?];
  apply StronglySorted_inv in SB; destruct SB as [SB ?];
  pose proof (Forall_inv PA); pose proof (Forall_inv PB);
  pose proof (Forall_inv_tail PA); pose proof (Forall_inv_tail PB).

Ltac above x H :=
  match goal with
  | F : Forall (Z.lt ?a) ?l, I : In x ?l |- _ =>
      pose proof (proj1 (Forall_forall _ _) F x I); clear I
  end.

(** Case analysis on the heads of two ranges walked in step. *)
Ltac by_heads x y :=
  destruct (Z.ltb_spec x y); [| destruct (Z.ltb_spec y x)].

(** Close the four statements about an expression at once: a statement above
    the level of the expression is void, the others have been proved. *)
Ltac by_level :=
  repeat match goal with |- _ /\ _ => split end;
  first [ assumption
        | intros _; assumption
        | let L := fresh in intros L; cbn [level] in L; lia ].

(** A property of every element of a list that is written out. *)
Ltac all_of tac := repeat (apply Forall_cons; [tac |]); apply Forall_nil.

(** A list that is written out is sorted. *)
Ltac sorted_list := repeat (apply SSorted_cons; [| all_of lia]); apply SSorted_nil.

Ltac positions_list := all_of ltac:(unfold position, Int32.max_int; lia).

(** * Machine integers and vectors: basic facts *)

Lemma wrap_small z :
  Int32.min_int <= z <= Int32.max_int -> Int32.wrap z = z.
Proof.
  unfold Int32.min_int, Int32.max_int, Int32.wrap. intros H.
  rewrite Z.mod_small by lia. lia.
Qed.

Lemma wrap_range z : Int32.min_int <= Int32.wrap z <= Int32.max_int.
Proof.
  unfold Int32.min_int, Int32.max_int, Int32.wrap.
  pose proof (Z.mod_pos_bound (z + 2 ^ 31) (2 ^ 32) ltac:(lia)). lia.
Qed.

Lemma of_size_le n : Int32.of_size n <= Z.of_nat n.
Proof.
  unfold Int32.of_size, Int32.wrap.
  pose proof (Z.mod_le (Z.of_nat n + 2 ^ 31) (2 ^ 32) ltac:(lia) ltac:(lia)). lia.
Qed.

Lemma of_size_small n :
  Z.of_nat n <= Int32.max_int -> Int32.of_size n = Z.of_nat n.
Proof.
  intros H. apply wrap_small. unfold Int32.min_int, Int32.max_int in *. lia.
Qed.

Lemma add_small a b :
  Int32.min_int <= a + b <= Int32.max_int -> Int32.add a b = a + b.
Proof. apply wrap_small. Qed.

Lemma sub_small a b :
  Int32.min_int <= a - b <= Int32.max_int -> Int32.sub a b = a - b.
Proof. apply wrap_small. Qed.

Lemma max_int_val : Int32.max_int = 2147483647.
Proof. reflexivity. Qed.

Lemma min_int_val : Int32.min_int = -2147483648.
Proof. reflexivity. Qed.

Lemma len_nonneg {A} (v : list A) : 0 <= len v.
Proof. unfold len. lia. Qed.

Lemma vget_in_range {A} (v : list A) i d :
  0 <= i < len v -> vget v i = Some (nth (Z.to_nat i) v d).
Proof.
  unfold vget, len. intros H.
  destruct (Z.ltb_spec i 0); [lia|].
  apply nth_error_nth'. lia.
Qed.

Lemma vget_Some {A} (v : list A) i x d :
  vget v i = Some x -> 0 <= i < len v /\ nth (Z.to_nat i) v d = x.
Proof.
  unfold vget, len. destruct (Z.ltb_spec i 0); [discriminate|]. intros H1.
  assert (Z.to_nat i < length v)%nat
    by (apply nth_error_Some; congruence).
  split; [lia|]. now apply nth_error_nth.
Qed.

Lemma length_list_set {A} (l : list A) i x : length (list_set l i x) = length l.
Proof.
  revert i; induction l as [|h t IH]; intros [|i]; simpl; auto.
Qed.

Lemma nth_list_set_eq {A} (l : list A) i x d :
  (i < length l)%nat -> nth i (list_set l i x) d = x.
Proof.
  revert i; induction l as [|h t IH]; intros [|i]; simpl; intros H;
    try lia; auto. apply IH. lia.
Qed.

Lemma nth_list_set_ne {A} (l : list A) i j x d :
  i <> j -> nth j (list_set l i x) d = nth j l d.
Proof.
  revert i j; induction l as [|h t IH]; intros [|i] [|j]; simpl; intros H;
    try congruence; auto.
Qed.

Lemma vset_in_range {A} (v : list A) i x :
  0 <= i < len v -> vset v i x = Some (list_set v (Z.to_nat i) x).
Proof.
  unfold vset. intros H.
  destruct (Z.leb_spec 0 i); [|lia]. destruct (Z.ltb_spec i (len v)); [|lia].
  reflexivity.
Qed.

Lemma length_zseq lo count : length (zseq lo count) = count.
Proof. revert lo; induction count; simpl; auto. Qed.

Lemma nth_zseq lo count i d :
  (i < count)%nat -> nth i (zseq lo count) d = lo + Z.of_nat i.
Proof.
  revert lo i; induction count as [|c IH]; intros lo [|i] H; simpl; try lia.
  rewrite IH by lia. lia.
Qed.

Lemma in_zseq lo count x :
  In x (zseq lo count) <-> lo <= x < lo + Z.of_nat count.
Proof.
  revert lo; induction count as [|c IH]; intros lo; simpl; [lia|].
  rewrite IH. lia.
Qed.

Lemma NoDup_zseq lo count : NoDup (zseq lo count).
Proof.
  revert lo; induction count as [|c IH]; intros lo; simpl; constructor; auto.
  rewrite in_zseq. lia.
Qed.

Lemma zseq_app lo c1 c2 :
  zseq lo (c1 + c2) = zseq lo c1 ++ zseq (lo + Z.of_nat c1) c2.
Proof.
  revert lo; induction c1 as [|c IH]; intros lo; simpl.
  - f_equal. lia.
  - rewrite IH. do 3 f_equal. lia.
Qed.

(** Loop rule for [for_up]: an invariant that the body maintains holds at exit,
    and the loop returns. *)
(** [std::iota] from [value] counts up as long as the [int] does not
    overflow. *)
Lemma std_iota_zseq : forall k value,
  Int32.min_int <= value -> value + Z.of_nat k <= Int32.max_int + 1 ->
  std_iota k value = zseq value k.
Proof.
  intros k. induction k as [|c IH]; intros value Hlo Hhi; [reflexivity|].
  cbn [std_iota zseq]. f_equal.
  destruct c as [|c]; [reflexivity|].
  rewrite add_small by (rewrite max_int_val, min_int_val in *; lia).
  apply IH; rewrite ?max_int_val, ?min_int_val in *; lia.
Qed.

Lemma std_iota_positions {A} (T : list A) :
  len T <= Int32.max_int -> std_iota (length T) 0 = iota (len T).
Proof.
  intros Hn. unfold iota, len in *. rewrite Nat2Z.id.
  apply std_iota_zseq; rewrite ?max_int_val, ?min_int_val in *; lia.
Qed.

Lemma for_up_inv {St} (Inv : Z -> St -> Prop) (body : Z -> St -> option St) count :
  forall lo s,
    Inv lo s ->
    (forall i s, lo <= i < lo + Z.of_nat count -> Inv i s ->
                 exists s', body i s = Some s' /\ Inv (i + 1) s') ->
    exists s', for_up count lo body s = Some s' /\ Inv (lo + Z.of_nat count) s'.
Proof.
  induction count as [|c IH]; intros lo s H0 Hstep; cbn [for_up].
  - exists s. split; auto. now replace (lo + Z.of_nat 0) with lo by lia.
  - destruct (Hstep lo s ltac:(lia) H0) as (s1 & -> & H1). cbn [bind].
    destruct (IH (lo + 1) s1 H1) as (s2 & E & H2).
    + intros i s' Hi. apply Hstep. lia.
    + exists s2. split; auto.
      now replace (lo + Z.of_nat (S c)) with (lo + 1 + Z.of_nat c) by lia.
Qed.

Lemma for_range_inv {St} (Inv : Z -> St -> Prop) (body : Z -> St -> option St) lo hi s :
  lo <= hi ->
  Inv lo s ->
  (forall i s, lo <= i < hi -> Inv i s ->
               exists s', body i s = Some s' /\ Inv (i + 1) s') ->
  exists s', for_range lo hi body s = Some s' /\ Inv hi s'.
Proof.
  intros Hle H0 Hstep. unfold for_range.
  destruct (for_up_inv Inv body (Z.to_nat (hi - lo)) lo s H0) as (s' & E & H).
  - intros i s1 Hi. apply Hstep. lia.
  - exists s'. split; auto.
    now replace (lo + Z.of_nat (Z.to_nat (hi - lo))) with hi in H by lia.
Qed.

Lemma mapM_vget_zseq (v : list Z) lo count :
  0 <= lo -> lo + Z.of_nat count <= len v ->
  mapM (vget v) (zseq lo count) = Some (firstn count (skipn (Z.to_nat lo) v)).
Proof.
  revert lo; induction count as [|c IH]; intros lo H1 H2; simpl; auto.
  rewrite (vget_in_range v lo 0) by lia. simpl.
  rewrite IH by lia. simpl. f_equal.
  replace (Z.to_nat (lo + 1)) with (S (Z.to_nat lo)) by lia.
  assert (Hlt : (Z.to_nat lo < length v)%nat) by (unfold len in *; lia).
  clear - Hlt. revert Hlt. generalize (Z.to_nat lo) as k.
  induction v as [|a v IHv]; intros [|k] H; simpl in *; try lia; auto.
  apply IHv. lia.
Qed.

(** * The two-pointer loops *)


Lemma merge_and_nil_r md A : merge_and md A [] = [].
Proof. destruct A; reflexivity. Qed.

Lemma merge_and_cons md a A b B :
  merge_and md (a :: A) (b :: B) =
  if Int32.abs (Int32.sub a b) <=? md then Z.min a b :: merge_and md A B
  else if a <? b then merge_and md A (b :: B)
  else merge_and md (a :: A) B.
Proof. reflexivity. Qed.

Lemma merge_or_nil_r md A : merge_or md A [] = A.
Proof. destruct A; reflexivity. Qed.

Lemma merge_or_cons md a A b B :
  merge_or md (a :: A) (b :: B) =
  if Int32.abs (Int32.sub a b) <=? md then Z.min a b :: merge_or md A B
  else if a <? b then a :: merge_or md A (b :: B)
  else b :: merge_or md (a :: A) B.
Proof. reflexivity. Qed.

Lemma skipn_at (v : list Z) j :
  0 <= j < len v ->
  skipn (Z.to_nat j) v = at_ v j :: skipn (Z.to_nat (j + 1)) v.
Proof.
  unfold len, at_. intros H.
  replace (Z.to_nat (j + 1)) with (S (Z.to_nat j)) by lia.
  assert (Hlt : (Z.to_nat j < length v)%nat) by lia.
  revert Hlt. generalize (Z.to_nat j) as k. clear.
  induction v as [|a v IH]; intros [|k] H; simpl in *; try lia; auto.
  apply IH. lia.
Qed.

Lemma skipn_past (v : list Z) j : len v <= j -> skipn (Z.to_nat j) v = [].
Proof. unfold len. intros H. apply skipn_all2. lia. Qed.

Lemma length_skipn_Z (v : list Z) j :
  0 <= j -> Z.of_nat (length (skipn (Z.to_nat j) v)) = Z.max 0 (len v - j).
Proof. unfold len. intros H. rewrite length_skipn. lia. Qed.

(** The AND loop emits, after what is in the buffer already, the merge of the
    unread parts. *)
Lemma and_loop_merge ans fe md :
  forall fuel j k buffer,
    0 <= j -> 0 <= k ->
    Z.max 0 (len ans - j) + Z.max 0 (len fe - k) < Z.of_nat fuel ->
    and_loop fuel ans fe md j k buffer =
    buffer ++ merge_and md (skipn (Z.to_nat j) ans) (skipn (Z.to_nat k) fe).
Proof.
  induction fuel as [|fuel IH]; intros j k buffer Hj Hk Hfuel; [lia|].
  cbn [and_loop].
  destruct (Z.ltb_spec j (len ans)) as [Hja|Hja]; cbn [andb].
  - destruct (Z.ltb_spec k (len fe)) as [Hkf|Hkf].
    + rewrite (skipn_at ans j), (skipn_at fe k) by lia.
      rewrite merge_and_cons. fold (at_ ans j) (at_ fe k).
      destruct (Int32.abs (Int32.sub (at_ ans j) (at_ fe k)) <=? md).
      * rewrite IH by lia. now rewrite <- app_assoc.
      * destruct (at_ ans j <? at_ fe k).
        -- rewrite IH by lia. now rewrite (skipn_at fe k) by lia.
        -- rewrite IH by lia. now rewrite (skipn_at ans j) by lia.
    + rewrite (skipn_past fe k) by lia. now rewrite merge_and_nil_r, app_nil_r.
  - rewrite (skipn_past ans j) by lia. now rewrite app_nil_r.
Qed.

Lemma and_step_merge md ans fe : and_step md ans fe = merge_and md ans fe.
Proof.
  unfold and_step. rewrite and_loop_merge; [reflexivity|lia|lia|].
  unfold len. lia.
Qed.

Lemma or_loop_merge ans fe md :
  forall fuel j k buffer,
    0 <= j -> 0 <= k ->
    Z.max 0 (len ans - j) + Z.max 0 (len fe - k) < Z.of_nat fuel ->
    (let '(j', k', buffer') := or_loop fuel ans fe md j k buffer in
     drain fe k' (drain ans j' buffer')) =
    buffer ++ merge_or md (skipn (Z.to_nat j) ans) (skipn (Z.to_nat k) fe).
Proof.
  induction fuel as [|fuel IH]; intros j k buffer Hj Hk Hfuel; [lia|].
  cbn [or_loop].
  destruct (Z.ltb_spec j (len ans)) as [Hja|Hja]; cbn [andb].
  - destruct (Z.ltb_spec k (len fe)) as [Hkf|Hkf].
    + rewrite (skipn_at ans j), (skipn_at fe k) by lia.
      rewrite merge_or_cons. fold (at_ ans j) (at_ fe k).
      destruct (Int32.abs (Int32.sub (at_ ans j) (at_ fe k)) <=? md).
      * rewrite IH by lia. now rewrite <- app_assoc.
      * destruct (at_ ans j <? at_ fe k).
        -- rewrite IH by lia. rewrite (skipn_at fe k) by lia.
           now rewrite <- app_assoc.
        -- rewrite IH by lia. rewrite (skipn_at ans j) by lia.
           now rewrite <- app_assoc.
    + unfold drain. rewrite (skipn_past fe k) by lia.
      now rewrite merge_or_nil_r, app_nil_r.
  - unfold drain. rewrite (skipn_past ans j) by lia. cbn [merge_or].
    now rewrite app_nil_r.
Qed.

Lemma or_step_merge md ans fe : or_step md ans fe = merge_or md ans fe.
Proof.
  unfold or_step. rewrite or_loop_merge; [reflexivity|lia|lia|].
  unfold len. lia.
Qed.

Lemma abs_sub_positions a b :
  position a -> position b -> Int32.abs (Int32.sub a b) = Z.abs (a - b).
Proof.
  unfold position, Int32.abs. rewrite max_int_val. intros Ha Hb.
  rewrite sub_small by (rewrite max_int_val, min_int_val; lia).
  apply wrap_small. rewrite max_int_val, min_int_val. lia.
Qed.

Lemma merge_and_In md x : forall A B,
  In x (merge_and md A B) -> In x A \/ In x B.
Proof.
  induction A as [|a A IHA]; intros B; [simpl; tauto|].
  induction B as [|b B IHB]; [rewrite merge_and_nil_r; simpl; tauto|].
  rewrite merge_and_cons.
  destruct (Int32.abs (Int32.sub a b) <=? md).
  - intros [H|H].
    + destruct (Z.min_spec a b) as [[_ E]|[_ E]]; rewrite E in H; subst;
        simpl; auto.
    + apply IHA in H. simpl. tauto.
  - destruct (a <? b); intros H.
    + apply IHA in H. simpl in *. tauto.
    + apply IHB in H. simpl in *. tauto.
Qed.

Lemma merge_or_In md x : forall A B,
  In x (merge_or md A B) -> In x A \/ In x B.
Proof.
  induction A as [|a A IHA]; intros B; [simpl; tauto|].
  induction B as [|b B IHB]; [rewrite merge_or_nil_r; simpl; tauto|].
  rewrite merge_or_cons.
  destruct (Int32.abs (Int32.sub a b) <=? md).
  - intros [H|H].
    + destruct (Z.min_spec a b) as [[_ E]|[_ E]]; rewrite E in H; subst;
        simpl; auto.
    + apply IHA in H. simpl. tauto.
  - destruct (a <? b); intros [H|H]; subst; simpl; auto.
    + apply IHA in H. simpl in *. tauto.
    + apply IHB in H. simpl in *. tauto.
Qed.

(** Every emission of the AND loop consumes one element of each list. *)
Lemma merge_and_length md : forall A B,
  (length (merge_and md A B) <= Nat.min (length A) (length B))%nat.
Proof.
  induction A as [|a A IHA]; intros B; [simpl; lia|].
  induction B as [|b B IHB]; [rewrite merge_and_nil_r; simpl; lia|].
  rewrite merge_and_cons.
  destruct (Int32.abs (Int32.sub a b) <=? md).
  - specialize (IHA B). cbn [length]. lia.
  - destruct (a <? b).
    + specialize (IHA (b :: B)). cbn [length] in *. lia.
    + cbn [length] in *. lia.
Qed.

Lemma merge_and_sorted md : forall A B,
  0 <= md ->
  StronglySorted Z.lt A -> StronglySorted Z.lt B ->
  Forall position A -> Forall position B ->
  StronglySorted Z.lt (merge_and md A B).
Proof.
  intros A B Hmd. revert B.
  induction A as [|a A IHA]; intros B SA SB PA PB; [constructor|].
  induction B as [|b B IHB]; [rewrite merge_and_nil_r; constructor|].
  rewrite merge_and_cons.
  pose proof SA as SA'. pose proof SB as SB'. heads SA SB PA PB.
  rewrite abs_sub_positions by assumption.
  destruct (Z.leb_spec (Z.abs (a - b)) md).
  - constructor; [now apply IHA|].
    apply Forall_forall. intros x Hx.
    apply merge_and_In in Hx. destruct Hx as [Hx|Hx]; above x Hx; lia.
  - destruct (Z.ltb_spec a b).
    + now apply IHA.
    + now apply IHB.
Qed.

Lemma merge_or_sorted md : forall A B,
  0 <= md ->
  StronglySorted Z.lt A -> StronglySorted Z.lt B ->
  Forall position A -> Forall position B ->
  StronglySorted Z.lt (merge_or md A B).
Proof.
  intros A B Hmd. revert B.
  induction A as [|a A IHA]; intros B SA SB PA PB; [assumption|].
  induction B as [|b B IHB]; [now rewrite merge_or_nil_r|].
  rewrite merge_or_cons.
  pose proof SA as SA'. pose proof SB as SB'. heads SA SB PA PB.
  rewrite abs_sub_positions by assumption.
  destruct (Z.leb_spec (Z.abs (a - b)) md).
  - constructor; [now apply IHA|].
    apply Forall_forall. intros x Hx.
    apply merge_or_In in Hx. destruct Hx as [Hx|Hx]; above x Hx; lia.
  - destruct (Z.ltb_spec a b).
    + constructor; [now apply IHA|].
      apply Forall_forall. intros x Hx.
      apply merge_or_In in Hx. destruct Hx as [Hx|[Hx|Hx]];
        [above x Hx; lia | lia | above x Hx; lia].
    + constructor; [now apply IHB|].
      apply Forall_forall. intros x Hx.
      apply merge_or_In in Hx. destruct Hx as [[Hx|Hx]|Hx];
        [lia | above x Hx; lia | above x Hx; lia].
Qed.

Lemma merge_and_positions md A B :
  Forall position A -> Forall position B -> Forall position (merge_and md A B).
Proof.
  intros PA PB. apply Forall_forall. intros x Hx.
  apply merge_and_In in Hx. rewrite Forall_forall in PA, PB.
  destruct Hx; auto.
Qed.

Lemma merge_or_positions md A B :
  Forall position A -> Forall position B -> Forall position (merge_or md A B).
Proof.
  intros PA PB. apply Forall_forall. intros x Hx.
  apply merge_or_In in Hx. rewrite Forall_forall in PA, PB.
  destruct Hx; auto.
Qed.

(** Every position of either list is emitted by the OR loop, or was paired
    with a position of the other list at most [md] below it, which is. *)
Lemma merge_or_cover md : forall A B x,
  0 <= md ->
  Forall position A -> Forall position B ->
  In x A \/ In x B ->
  exists e, In e (merge_or md A B) /\ e <= x <= e + md.
Proof.
  intros A B x Hmd. revert B.
  induction A as [|a A IHA]; intros B PA PB Hx.
  - exists x. simpl in *. split; [tauto|lia].
  - induction B as [|b B IHB].
    + exists x. rewrite merge_or_nil_r. simpl in *. split; [tauto|lia].
    + rewrite merge_or_cons.
      pose proof (Forall_inv PA). pose proof (Forall_inv PB).
      pose proof (Forall_inv_tail PA) as PA'. pose proof (Forall_inv_tail PB) as PB'.
      rewrite abs_sub_positions by assumption.
      destruct (Z.leb_spec (Z.abs (a - b)) md).
      * destruct Hx as [[<-|Hx]|[<-|Hx]];
          try (exists (Z.min a b); split; [now left|lia]).
        -- destruct (IHA B PA' PB' (or_introl Hx)) as (e & He & Hb).
           exists e. split; [now right|lia].
        -- destruct (IHA B PA' PB' (or_intror Hx)) as (e & He & Hb).
           exists e. split; [now right|lia].
      * destruct (Z.ltb_spec a b).
        -- destruct Hx as [[<-|Hx]|Hx].
           ++ exists a. split; [now left|lia].
           ++ destruct (IHA (b :: B) PA' PB (or_introl Hx)) as (e & He & Hb).
              exists e. split; [now right|lia].
           ++ destruct (IHA (b :: B) PA' PB (or_intror Hx)) as (e & He & Hb).
              exists e. split; [now right|lia].
        -- destruct Hx as [Hx|[<-|Hx]].
           ++ destruct (IHB PB' (or_introl Hx)) as (e & He & Hb).
              exists e. split; [now right|lia].
           ++ exists b. split; [now left|lia].
           ++ destruct (IHB PB' (or_intror Hx)) as (e & He & Hb).
              exists e. split; [now right|lia].
Qed.

(** The OR loop emits a position of one list unless it paired it with a
    smaller position of the other list, at most [md] below it; that smaller
    position is emitted. *)
Lemma merge_or_paired md : forall A B,
  0 <= md ->
  Forall position A -> Forall position B ->
  (forall x, In x A ->
     In x (merge_or md A B) \/
     exists e, In e B /\ In e (merge_or md A B) /\ e < x <= e + md) /\
  (forall x, In x B ->
     In x (merge_or md A B) \/
     exists e, In e A /\ In e (merge_or md A B) /\ e < x <= e + md).
Proof.
  intros A B Hmd. revert B.
  induction A as [|a A IHA]; intros B PA PB.
  - split; intros x Hx; [destruct Hx|now left].
  - induction B as [|b B IHB].
    + rewrite merge_or_nil_r. split; intros x Hx; [now left|destruct Hx].
    + rewrite merge_or_cons.
      pose proof (Forall_inv PA). pose proof (Forall_inv PB).
      pose proof (Forall_inv_tail PA) as PA'. pose proof (Forall_inv_tail PB) as PB'.
      rewrite abs_sub_positions by assumption.
      destruct (Z.leb_spec (Z.abs (a - b)) md).
      * destruct (IHA B PA' PB') as [Ha Hb].
        split; intros x [<-|Hx].
        -- destruct (Z.le_gt_cases a b).
           ++ left. left. lia.
           ++ right. exists b. split; [now left|]. split; [left|]; lia.
        -- destruct (Ha x Hx) as [Hi|(e & He & Hi & Hd)]; [left; now right|].
           right. exists e. split; [now right|]. split; [now right|lia].
        -- destruct (Z.le_gt_cases b a).
           ++ left. left. lia.
           ++ right. exists a. split; [now left|]. split; [left|]; lia.
        -- destruct (Hb x Hx) as [Hi|(e & He & Hi & Hd)]; [left; now right|].
           right. exists e. split; [now right|]. split; [now right|lia].
      * destruct (Z.ltb_spec a b).
        -- destruct (IHA (b :: B) PA' PB) as [Ha Hb].
           split.
           ++ intros x [<-|Hx]; [left; now left|].
              destruct (Ha x Hx) as [Hi|(e & He & Hi & Hd)]; [left; now right|].
              right. exists e. split; [assumption|]. split; [now right|lia].
           ++ intros x Hx.
              destruct (Hb x Hx) as [Hi|(e & He & Hi & Hd)]; [left; now right|].
              right. exists e. split; [now right|]. split; [now right|lia].
        -- destruct (IHB PB') as [Ha Hb].
           split.
           ++ intros x Hx.
              destruct (Ha x Hx) as [Hi|(e & He & Hi & Hd)]; [left; now right|].
              right. exists e. split; [now right|]. split; [now right|lia].
           ++ intros x [<-|Hx]; [left; now left|].
              destruct (Hb x Hx) as [Hi|(e & He & Hi & Hd)]; [left; now right|].
              right. exists e. split; [assumption|]. split; [now right|lia].
Qed.

(** A position that is in one list, and in the other or below all of it, is
    emitted by the OR loop. *)
Lemma merge_or_keeps md x : forall A B,
  0 <= md ->
  StronglySorted Z.lt A -> StronglySorted Z.lt B ->
  Forall position A -> Forall position B ->
  (In x A /\ (In x B \/ Forall (Z.lt x) B)) \/
  (In x B /\ (In x A \/ Forall (Z.lt x) A)) ->
  In x (merge_or md A B).
Proof.
  intros A B Hmd. revert B.
  induction A as [|a A IHA]; intros B SA SB PA PB Hx.
  - simpl in *. tauto.
  - induction B as [|b B IHB]; [rewrite merge_or_nil_r; simpl in *; tauto|].
    rewrite merge_or_cons.
    pose proof SA as SA'. pose proof SB as SB'. heads SA SB PA PB.
    rewrite abs_sub_positions by assumption.
    assert (HA : forall y, In y A -> a < y)
      by (intros y Hy; above y Hy; assumption).
    assert (HB : forall y, In y B -> b < y)
      by (intros y Hy; above y Hy; assumption).
    assert (FA : forall y, Forall (Z.lt y) (a :: A) -> y < a /\ Forall (Z.lt y) A)
      by (intros y Hy; split; [apply (Forall_inv Hy)|apply (Forall_inv_tail Hy)]).
    assert (FB : forall y, Forall (Z.lt y) (b :: B) -> y < b /\ Forall (Z.lt y) B)
      by (intros y Hy; split; [apply (Forall_inv Hy)|apply (Forall_inv_tail Hy)]).
    assert (GA : forall y, a <= y -> Forall (Z.lt y) (a :: A) -> False)
      by (intros y Hy F; apply FA in F; lia).
    assert (GB : forall y, b <= y -> Forall (Z.lt y) (b :: B) -> False)
      by (intros y Hy F; apply FB in F; lia).
    assert (UA : forall y, a < y -> Forall (Z.lt a) A ->
                           In y (a :: A) -> In y A)
      by (intros y Hy _ [E|I]; [lia|assumption]).
    assert (UB : forall y, b < y -> In y (b :: B) -> In y B)
      by (intros y Hy [E|I]; [lia|assumption]).
    assert (LA : forall y, y <= a -> Forall (Z.lt y) A).
    { intros y Hy. apply Forall_forall. intros z Hz. apply HA in Hz. lia. }
    assert (LB : forall y, y <= b -> Forall (Z.lt y) B).
    { intros y Hy. apply Forall_forall. intros z Hz. apply HB in Hz. lia. }
    assert (Cx : In x (a :: A) -> x = a \/ (a < x /\ In x A))
      by (intros [E|I]; [left; congruence|right; split; [now apply HA|assumption]]).
    assert (Dx : In x (b :: B) -> x = b \/ (b < x /\ In x B))
      by (intros [E|I]; [left; congruence|right; split; [now apply HB|assumption]]).
    destruct (Z.leb_spec (Z.abs (a - b)) md).
    + (* paired: min a b is emitted, both heads are consumed *)
      destruct (Z.eq_dec x (Z.min a b)) as [E|NE]; [now left|right].
      apply IHA; try assumption.
      destruct Hx as [[I1 [I2|F2]]|[I2 [I1|F1]]].
      * apply Cx in I1. apply Dx in I2.
        destruct I1 as [->|[? I1]], I2 as [E2|[? I2]]; try lia.
        -- right. split; [assumption|]. right. apply LA. lia.
        -- left. split; [assumption|]. right. apply LB. lia.
        -- left. split; [assumption|]. now left.
      * apply Cx in I1. apply FB in F2. destruct F2 as [? F2].
        destruct I1 as [->|[? I1]]; [lia|].
        left. split; [assumption|]. now right.
      * apply Dx in I2. apply Cx in I1.
        destruct I1 as [->|[? I1]], I2 as [E2|[? I2]]; try lia.
        -- right. split; [assumption|]. right. apply LA. lia.
        -- left. split; [assumption|]. right. apply LB. lia.
        -- left. split; [assumption|]. now left.
      * apply Dx in I2. apply FA in F1. destruct F1 as [? F1].
        destruct I2 as [->|[? I2]]; [lia|].
        right. split; [assumption|]. now right.
    + destruct (Z.ltb_spec a b).
      * (* a is emitted and consumed *)
        destruct (Z.eq_dec x a) as [E|NE]; [now left|right].
        apply IHA; try assumption.
        destruct Hx as [[I1 C]|[I2 [I1|F1]]].
        -- apply Cx in I1. destruct I1 as [->|[? I1]]; [lia|].
           left. split; assumption.
        -- apply Cx in I1. destruct I1 as [->|[? I1]]; [lia|].
           right. split; [assumption|now left].
        -- apply FA in F1. destruct F1 as [? F1].
           right. split; [assumption|now right].
      * (* b is emitted and consumed *)
        destruct (Z.eq_dec x b) as [E|NE]; [now left|right].
        apply IHB; try assumption.
        destruct Hx as [[I1 [I2|F2]]|[I2 C]].
        -- apply Dx in I2. destruct I2 as [->|[? I2]]; [lia|].
           left. split; [assumption|now left].
        -- apply FB in F2. destruct F2 as [? F2].
           left. split; [assumption|now right].
        -- apply Dx in I2. destruct I2 as [->|[? I2]]; [lia|].
           right. split; assumption.
Qed.

(** * Grouped queries *)

Lemma fold_and_length md : forall rest f0,
  (length (fold_left (and_step md) rest f0) <= length f0)%nat /\
  Forall (fun L => (length (fold_left (and_step md) rest f0) <= length L)%nat) rest.
Proof.
  induction rest as [|L rest IH]; intros f0; cbn [fold_left].
  - split; [lia|constructor].
  - destruct (IH (and_step md f0 L)) as [H1 H2].
    pose proof (merge_and_length md f0 L) as H3.
    rewrite <- and_step_merge in H3.
    split; [lia|]. constructor; [lia|assumption].
Qed.

Lemma list_set_app_end {A} (l : list A) a x :
  list_set (l ++ [a]) (length l) x = l ++ [x].
Proof. induction l as [|h t IH]; simpl; [reflexivity|now rewrite IH]. Qed.

Lemma nth_error_app_end {A} (l : list A) a :
  nth_error (l ++ [a]) (length l) = Some a.
Proof. induction l as [|h t IH]; simpl; auto. Qed.

Lemma firstn_app_exact {A} (l r : list A) : firstn (length l) (l ++ r) = l.
Proof. induction l as [|h t IH]; simpl; [reflexivity|now rewrite IH]. Qed.

(** C8. With the group [g] stored at address [value], [s & g] (and [s | g])
    returns the group whose pattern list is [g]'s with [s] appended at the end,
    which is what [g & s] returns, and leaves the store, hence [g], as it was. *)
Theorem mixed_operand_appends (Type_ : group_type) (st : store Type_) (value : nat)
    (g : grouped_data Type_) (s : wstring) :
  nth_error st value = Some g ->
  op_str_group s value st = Some (mk_grouped_data (strs g ++ [s]), st) /\
  op_str_group s value st = op_group_str value s st /\
  (forall r st', op_str_group s value st = Some (r, st') ->
                 nth_error st' value = Some g).
Proof.
  intros Hg.
  assert (E : op_str_group s value st = Some (mk_grouped_data (strs g ++ [s]), st)).
  { unfold op_str_group, op_assign. rewrite Hg. cbn [bind].
    rewrite nth_error_app_end. cbn [bind].
    rewrite list_set_app_end, nth_error_app_end. cbn [bind].
    now rewrite firstn_app_exact. }
  split; [exact E|]. split; [reflexivity|].
  intros r st' H. rewrite E in H. now inversion H; subst.
Qed.

(** [mixed_operand_appends] on a store that holds one AND group. *)
Lemma mixed_operand_appends_witness :
  op_str_group [3] 0 [mk_grouped_data (Type_ := AND) [[1]; [2]]] =
    Some (mk_grouped_data [[1]; [2]; [3]], [mk_grouped_data [[1]; [2]]]) /\
  op_str_group [3] 0 [mk_grouped_data (Type_ := AND) [[1]; [2]]] =
    op_group_str 0 [3] [mk_grouped_data [[1]; [2]]] /\
  (forall r st', op_str_group [3] 0 [mk_grouped_data (Type_ := AND) [[1]; [2]]]
                   = Some (r, st') ->
                 nth_error st' 0%nat = Some (mk_grouped_data [[1]; [2]])).
Proof.
  apply (mixed_operand_appends AND [mk_grouped_data [[1]; [2]]] 0
           (mk_grouped_data [[1]; [2]]) [3]).
  reflexivity.
Defined.

(** * [std::sort] returns a permutation *)

Lemma sort_insert_perm {A} (lt : A -> A -> bool) x l :
  Permutation (sort_insert lt x l) (x :: l).
Proof.
  induction l as [|y l IH]; simpl; [reflexivity|].
  destruct (lt x y); [reflexivity|].
  rewrite IH. apply perm_swap.
Qed.

Lemma std_sort_perm {A} (lt : A -> A -> bool) l :
  Permutation (std_sort lt l) l.
Proof.
  induction l as [|x l IH]; simpl; [reflexivity|].
  rewrite sort_insert_perm. now constructor.
Qed.

Lemma std_sort_length {A} (lt : A -> A -> bool) l :
  length (std_sort lt l) = length l.
Proof. apply Permutation_length, std_sort_perm. Qed.

(** * [SAMatcher]: the three queries agree *)


Lemma mid_bounds l r :
  0 <= l -> l < r -> r <= Int32.max_int ->
  l <= Int32.add l (Int32.div (Int32.sub r l) 2) < r.
Proof.
  intros Hl Hlr Hr. rewrite max_int_val in Hr.
  rewrite sub_small by (rewrite max_int_val, min_int_val; lia).
  unfold Int32.div. rewrite Z.quot_div_nonneg by lia.
  assert (0 <= (r - l) / 2 < r - l)
    by (split; [apply Z.div_pos; lia|apply Z.div_lt; lia]).
  rewrite (wrap_small ((r - l) / 2)) by (rewrite max_int_val, min_int_val; lia).
  rewrite add_small by (rewrite max_int_val, min_int_val; lia). lia.
Qed.

(** A binary search of [SAMatcher] returns, and its result lies in the range
    it was started on. *)
Lemma search_loop_bounds go sa pattern :
  forall fuel left right,
    0 <= left -> right <= len (sa_ sa) -> right <= Int32.max_int ->
    Z.max 0 (right - left) < Z.of_nat fuel ->
    exists x, search_loop go fuel sa pattern left right = Some x /\
              left <= x <= Z.max left right.
Proof.
  induction fuel as [|fuel IH]; intros left right Hl Hr Hm Hf; [lia|].
  cbn [search_loop].
  destruct (Z.ltb_spec left right) as [Hlt|Hge].
  - pose proof (mid_bounds left right Hl Hlt Hm) as Hmid.
    set (mid := Int32.add left (Int32.div (Int32.sub right left) 2)) in *.
    rewrite (vget_in_range (sa_ sa) mid 0) by lia. cbn [bind].
    destruct (go _).
    + rewrite add_small by (rewrite max_int_val, min_int_val in *; lia).
      destruct (IH (mid + 1) right) as (x & E & Hx); try lia.
      exists x. split; [assumption|lia].
    + destruct (IH left mid) as (x & E & Hx); try lia.
      exists x. split; [assumption|lia].
  - exists left. split; [reflexivity|lia].
Qed.

(** Two searches over the same range, the second going right whenever the
    first does: the first result is not above the second. *)
Lemma search_loop_ordered go1 go2 sa pattern :
  (forall c, go1 c = true -> go2 c = true) ->
  forall fuel left right,
    0 <= left -> right <= len (sa_ sa) -> right <= Int32.max_int ->
    Z.max 0 (right - left) < Z.of_nat fuel ->
    exists x1 x2,
      search_loop go1 fuel sa pattern left right = Some x1 /\
      search_loop go2 fuel sa pattern left right = Some x2 /\
      left <= x1 /\ x1 <= x2 /\ x2 <= Z.max left right.
Proof.
  intros Hgo.
  induction fuel as [|fuel IH]; intros left right Hl Hr Hm Hf; [lia|].
  cbn [search_loop].
  destruct (Z.ltb_spec left right) as [Hlt|Hge].
  - pose proof (mid_bounds left right Hl Hlt Hm) as Hmid.
    set (mid := Int32.add left (Int32.div (Int32.sub right left) 2)) in *.
    rewrite (vget_in_range (sa_ sa) mid 0) by lia. cbn [bind].
    set (c := comparePattern sa pattern (nth (Z.to_nat mid) (sa_ sa) 0)).
    assert (Hadd : Int32.add mid 1 = mid + 1)
      by (apply add_small; rewrite max_int_val, min_int_val in *; lia).
    destruct (go1 c) eqn:E1.
    + rewrite (Hgo c E1), Hadd.
      destruct (IH (mid + 1) right) as (x1 & x2 & ? & ? & ?); try lia.
      exists x1, x2. repeat split; try assumption; lia.
    + destruct (go2 c) eqn:E2.
      * rewrite Hadd.
        destruct (search_loop_bounds go1 sa pattern fuel left mid)
          as (x1 & ? & ?); try lia.
        destruct (search_loop_bounds go2 sa pattern fuel (mid + 1) right)
          as (x2 & ? & ?); try lia.
        exists x1, x2. repeat split; try assumption; lia.
      * destruct (IH left mid) as (x1 & x2 & ? & ? & ?); try lia.
        exists x1, x2. repeat split; try assumption; lia.
  - exists left, left. repeat split; lia.
Qed.

Lemma find_left_right sa pattern :
  exists left right,
    findLeft sa pattern = Some left /\ findRight sa pattern = Some right /\
    0 <= left /\ left <= right /\ right <= len (sa_ sa) /\
    right <= Int32.max_int.
Proof.
  unfold findLeft, findRight.
  pose proof (of_size_le (length (sa_ sa))) as H1.
  pose proof (wrap_range (Z.of_nat (length (sa_ sa)))) as H2.
  fold (Int32.of_size (length (sa_ sa))) in H2.
  assert (Hgo : forall c, (0 <? c) = true -> (0 <=? c) = true)
    by (intros c Hc; apply Z.ltb_lt in Hc; apply Z.leb_le; lia).
  destruct (search_loop_ordered (fun c => 0 <? c) (fun c => 0 <=? c) sa pattern
              Hgo (S (length (sa_ sa))) 0 (Int32.of_size (length (sa_ sa))))
    as (x1 & x2 & E1 & E2 & B1 & B2 & B3); try (unfold len; lia).
  exists x1, x2. unfold len. rewrite max_int_val, min_int_val in *.
  repeat split; try assumption; lia.
Qed.

(** C10. On every [SuffixArray] object and every pattern the three queries
    return, [count] is the length of [findAll]'s list, and [exists] is true
    exactly when that list is not empty. *)
Theorem matcher_queries_agree (sa : SuffixArray) (pattern : list Z) :
  exists l c e,
    findAll sa pattern = Some l /\
    count sa pattern = Some c /\
    exists_ sa pattern = Some e /\
    c = len l /\
    (e = true <-> l <> []).
Proof.
  unfold findAll, count, exists_.
  destruct ((len pattern =? 0) || (n_ sa =? 0)).
  - exists [], 0, false. repeat split; try reflexivity; try discriminate.
    intros H. now elim H.
  - destruct (find_left_right sa pattern)
      as (left & right & -> & -> & H0 & H1 & H2 & H3).
    cbn [bind].
    rewrite mapM_vget_zseq by lia. cbn [bind].
    set (slice := firstn (Z.to_nat (right - left)) (skipn (Z.to_nat left) (sa_ sa))).
    assert (Hlen : len slice = right - left).
    { unfold len, slice in *. rewrite length_firstn, length_skipn. lia. }
    exists (std_sort Z.ltb slice), (Int32.sub right left), (left <? right).
    repeat split; try reflexivity.
    + rewrite sub_small by (rewrite max_int_val, min_int_val in *; lia).
      unfold len in *. rewrite std_sort_length. lia.
    + intros Hlt. apply Z.ltb_lt in Hlt. intros E.
      apply (f_equal (@length Z)) in E. rewrite std_sort_length in E.
      unfold len in Hlen. simpl in E. lia.
    + intros Hne. apply Z.ltb_lt.
      destruct (Z.lt_ge_cases left right) as [|Hge]; [assumption|].
      exfalso. apply Hne.
      assert (length (std_sort Z.ltb slice) = 0%nat)
        by (rewrite std_sort_length; unfold len in Hlen; lia).
      now destruct (std_sort Z.ltb slice).
Qed.

(** * Inputs on which the code departs from its specification *)

Lemma valid_sa_abc : valid_sa [97; 98; 99] [0; 1; 2].
Proof.
  split; [apply Permutation_refl|].
  intros i H0 H1. unfold len in H1. cbn [length] in H1.
  assert (E : i = 0 \/ i = 1) by lia.
  destruct E; subst; reflexivity.
Qed.

(** C1 (the code departs from it). On the text "abc" with its suffix array
    [0; 1; 2], [sa_match] for the two-unit pattern "c" followed by the code
    unit 0 compares through the terminator of the text and returns position 2,
    where the pattern does not occur (it would end past the text);
    [SAMatcher::findAll], which stops at the end of the text, returns the
    empty list. *)
Theorem sa_match_reads_terminator :
  valid_sa [97; 98; 99] [0; 1; 2] /\
  sa_match [97; 98; 99] [0; 1; 2] [99; 0] = Some [2] /\
  ~ occurs_at [97; 98; 99] [99; 0] 2 /\
  (exists obj, SuffixArray_new [97; 98; 99] = Some obj /\
               sa_ obj = [0; 1; 2] /\
               findAll obj [99; 0] = Some []).
Proof.
  split; [exact valid_sa_abc|]. split; [reflexivity|]. split.
  - unfold occurs_at, len. cbn [length]. lia.
  - eexists. split; [vm_compute; reflexivity|]. split; reflexivity.
Qed.

(** C2 (the code departs from it). [sa_match] with the empty pattern returns
    every position of a non-empty text, and position 0 on the empty text;
    [SAMatcher::findAll] returns the empty list in both cases. *)
Theorem sa_match_empty_pattern :
  sa_match [97] [0] [] = Some [0] /\
  sa_match banana [5; 3; 1; 0; 4; 2] [] = Some [0; 1; 2; 3; 4; 5] /\
  sa_match [] [] [] = Some [0] /\
  (exists obj, SuffixArray_new [97] = Some obj /\ sa_ obj = [0] /\
               findAll obj [] = Some []) /\
  (exists obj, SuffixArray_new [] = Some obj /\ sa_ obj = [] /\
               findAll obj [] = Some []).
Proof.
  repeat split; try reflexivity.
  - eexists. split; [vm_compute; reflexivity|]. split; reflexivity.
  - eexists. split; [vm_compute; reflexivity|]. split; reflexivity.
Qed.

(** C3 (the code departs from it). On "banana" [buildSAIS], called as the
    constructor calls it, leaves [1; 1; 3; 0; 2; 4] in [sa], which is not a
    permutation, while [buildSimple] returns the suffix array
    [5; 3; 1; 0; 4; 2]. *)
Theorem buildSAIS_differs_on_banana :
  buildSAIS banana 6 (repeat 0 6) (alphabet_size_of banana)
    = Some [1; 1; 3; 0; 2; 4] /\
  buildSimple banana 6 = Some [5; 3; 1; 0; 4; 2] /\
  SuffixArray_new_sais banana = Some [1; 1; 3; 0; 2; 4] /\
  ~ NoDup [1; 1; 3; 0; 2; 4].
Proof.
  split; [vm_compute; reflexivity|]. split; [vm_compute; reflexivity|].
  split; [vm_compute; reflexivity|].
  intros H. apply NoDup_cons_iff in H. destruct H as [H _]. apply H. now left.
Qed.

(** * Lexicographic order on code-unit sequences *)

Lemma lex_ltb_irrefl u : lex_ltb u u = false.
Proof.
  induction u as [|x u IH]; simpl; [reflexivity|].
  now rewrite Z.ltb_irrefl.
Qed.

Lemma lex_ltb_cons x u y v :
  lex_ltb (x :: u) (y :: v) = true <-> x < y \/ (x = y /\ lex_ltb u v = true).
Proof.
  simpl. destruct (Z.ltb_spec x y); [intuition lia|].
  destruct (Z.ltb_spec y x); [intuition (try lia; try discriminate)|].
  intuition lia.
Qed.

Lemma lex_lt_trans u : forall v w,
  lex_lt u v -> lex_lt v w -> lex_lt u w.
Proof.
  unfold lex_lt.
  induction u as [|x u IH]; intros [|y v] [|z w] H1 H2;
    try discriminate; try reflexivity.
  apply lex_ltb_cons in H1. apply lex_ltb_cons in H2. apply lex_ltb_cons.
  destruct H1 as [H1|[-> H1]], H2 as [H2|[-> H2]]; try (left; lia).
  right. split; [reflexivity|]. now apply (IH v w).
Qed.

Lemma lex_lt_asym u : forall v, lex_ltb u v = true -> lex_ltb v u = false.
Proof.
  intros v H. destruct (lex_ltb v u) eqn:E; [|reflexivity].
  pose proof (lex_lt_trans u v u H E) as C. unfold lex_lt in C.
  now rewrite lex_ltb_irrefl in C.
Qed.

Lemma lex_total u : forall v,
  u <> v -> lex_ltb u v = true \/ lex_ltb v u = true.
Proof.
  induction u as [|x u IH]; intros [|y v] Hne; simpl;
    [congruence | now left | now right | ].
  destruct (Z.ltb_spec x y); [now left|].
  destruct (Z.ltb_spec y x); [now right|].
  assert (x = y) by lia. subst y.
  apply IH. congruence.
Qed.

Lemma lex_ltb_nil_l v : lex_ltb [] v = negb (Nat.eqb (length v) 0).
Proof. destruct v; reflexivity. Qed.

Lemma lex_ltb_nil_r u : lex_ltb u [] = false.
Proof. destruct u; reflexivity. Qed.

(** ** Suffixes *)

Lemma suffix_cons (T : list Z) i :
  0 <= i < len T -> suffix T i = at_ T i :: suffix T (i + 1).
Proof. apply skipn_at. Qed.

Lemma suffix_end (T : list Z) i : len T <= i -> suffix T i = [].
Proof. apply skipn_past. Qed.

Lemma length_suffix (T : list Z) i :
  0 <= i <= len T -> len (suffix T i) = len T - i.
Proof.
  intros H. unfold suffix, len in *. rewrite length_skipn. lia.
Qed.

Lemma suffix_inj (T : list Z) a b :
  0 <= a <= len T -> 0 <= b <= len T -> suffix T a = suffix T b -> a = b.
Proof.
  intros Ha Hb E. apply (f_equal (@len Z)) in E.
  rewrite !length_suffix in E by assumption. lia.
Qed.

(** The comparator of [buildSimple] decides the lexicographic order of the
    two suffixes. *)
Lemma suffix_less_loop_lex (s : list Z) a b :
  len s <= Int32.max_int -> 0 <= a -> 0 <= b ->
  forall fuel i,
    0 <= i -> a + i <= len s -> b + i <= len s ->
    len s - (a + i) < Z.of_nat fuel ->
    suffix_less_loop fuel s (len s) a b i =
    lex_ltb (suffix s (a + i)) (suffix s (b + i)).
Proof.
  intros Hn Ha Hb. rewrite max_int_val in Hn.
  induction fuel as [|fuel IH]; intros i Hi Hai Hbi Hf; [lia|].
  cbn [suffix_less_loop].
  rewrite !add_small by (rewrite max_int_val, min_int_val; lia).
  destruct (Z.ltb_spec (a + i) (len s)) as [H1|H1]; cbn [andb].
  - destruct (Z.ltb_spec (b + i) (len s)) as [H2|H2].
    + rewrite (suffix_cons s (a + i)), (suffix_cons s (b + i)) by lia.
      cbn [lex_ltb]. fold (at_ s (a + i)) (at_ s (b + i)).
      destruct (at_ s (a + i) <? at_ s (b + i)); [reflexivity|].
      destruct (at_ s (b + i) <? at_ s (a + i)); [reflexivity|].
      rewrite add_small by (rewrite max_int_val, min_int_val; lia).
      rewrite IH by lia. now rewrite !Z.add_assoc.
    + rewrite (suffix_end s (b + i)) by lia. rewrite lex_ltb_nil_r.
      destruct (Z.eqb_spec (a + i) (len s)); [lia|reflexivity].
  - rewrite (suffix_end s (a + i)) by lia. rewrite lex_ltb_nil_l.
    destruct (Z.eqb_spec (a + i) (len s)); [|lia]. cbn [andb].
    destruct (Z.ltb_spec (b + i) (len s)) as [H2|H2].
    + rewrite (suffix_cons s (b + i)) by lia. reflexivity.
    + rewrite (suffix_end s (b + i)) by lia. reflexivity.
Qed.

Lemma suffix_less_lex (s : list Z) a b :
  len s <= Int32.max_int -> 0 <= a <= len s -> 0 <= b <= len s ->
  suffix_less s (len s) a b = lex_ltb (suffix s a) (suffix s b).
Proof.
  intros Hn Ha Hb. unfold suffix_less.
  rewrite suffix_less_loop_lex by (unfold len in *; lia).
  now rewrite !Z.add_0_r.
Qed.

(** * [std::sort] returns a sorted list, and the only one *)

Section SortSorted.
Context {A : Type} (lt : A -> A -> bool).
Hypothesis lt_asym : forall x y, lt x y = true -> lt y x = false.

Lemma sort_insert_hd x y l :
  (not_after lt) y x -> HdRel (not_after lt) y l -> HdRel (not_after lt) y (sort_insert lt x l).
Proof.
  intros Hyx H. destruct l as [|z l]; simpl; [now constructor|].
  destruct (lt x z); constructor; [assumption|].
  now inversion H.
Qed.

Lemma sort_insert_sorted x l :
  Sorted (not_after lt) l -> Sorted (not_after lt) (sort_insert lt x l).
Proof.
  induction l as [|y l IH]; intros H; simpl.
  - repeat constructor.
  - destruct (lt x y) eqn:E.
    + constructor; [assumption|]. constructor. now apply lt_asym.
    + inversion H; subst. constructor; [now apply IH|].
      now apply sort_insert_hd.
Qed.

Lemma std_sort_sorted l : Sorted (not_after lt) (std_sort lt l).
Proof.
  induction l as [|x l IH]; simpl; [constructor|].
  now apply sort_insert_sorted.
Qed.

End SortSorted.

Lemma sort_insert_ext {A} (lt lt' : A -> A -> bool) x l :
  (forall y, In y l -> lt x y = lt' x y) ->
  sort_insert lt x l = sort_insert lt' x l.
Proof.
  induction l as [|y l IH]; intros H; simpl; [reflexivity|].
  rewrite <- (H y) by now left.
  destruct (lt x y); [reflexivity|].
  f_equal. apply IH. intros z Hz. apply H. now right.
Qed.

(** The result of the sort depends on the comparator only through its values
    on the elements sorted. *)
Lemma std_sort_ext {A} (lt lt' : A -> A -> bool) l :
  (forall x y, In x l -> In y l -> lt x y = lt' x y) ->
  std_sort lt l = std_sort lt' l.
Proof.
  induction l as [|x l IH]; intros H; simpl; [reflexivity|].
  rewrite IH by (intros; apply H; now right).
  apply sort_insert_ext. intros y Hy. apply H; [now left|right].
  eapply Permutation_in; [apply std_sort_perm|eassumption].
Qed.

Lemma Sorted_adjacent {A} (R : A -> A -> Prop) d l :
  Sorted R l ->
  forall i, (S i < length l)%nat -> R (nth i l d) (nth (S i) l d).
Proof.
  induction 1 as [|a l HS IH Hd]; intros i Hi; simpl in Hi; [lia|].
  destruct i as [|i].
  - destruct l as [|b l]; simpl in *; [lia|]. now inversion Hd.
  - cbn [nth]. apply IH. lia.
Qed.

Lemma adjacent_Sorted {A} (R : A -> A -> Prop) d l :
  (forall i, (S i < length l)%nat -> R (nth i l d) (nth (S i) l d)) ->
  Sorted R l.
Proof.
  induction l as [|a l IH]; intros H; [constructor|].
  constructor.
  - apply IH. intros i Hi. apply (H (S i)). simpl. lia.
  - destruct l as [|b l]; constructor. apply (H 0%nat). simpl. lia.
Qed.

(** Two lists sorted by a strict order that hold the same elements are the
    same list. *)
Lemma sorted_perm_unique {A} (R : A -> A -> Prop) :
  (forall x, ~ R x x) -> (forall x y z, R x y -> R y z -> R x z) ->
  forall l1 l2,
    StronglySorted R l1 -> StronglySorted R l2 -> Permutation l1 l2 -> l1 = l2.
Proof.
  intros Hirr Htr.
  induction l1 as [|a l1 IH]; intros l2 S1 S2 P.
  - apply Permutation_nil in P. now subst.
  - destruct l2 as [|b l2]; [apply Permutation_sym, Permutation_nil in P; discriminate|].
    apply StronglySorted_inv in S1. destruct S1 as [S1 F1].
    apply StronglySorted_inv in S2. destruct S2 as [S2 F2].
    rewrite Forall_forall in F1, F2.
    assert (a = b).
    { assert (Ia : In a (b :: l2)) by (eapply Permutation_in; [exact P|now left]).
      assert (Ib : In b (a :: l1))
        by (eapply Permutation_in; [apply Permutation_sym; exact P|now left]).
      destruct Ia as [->|Ia]; [reflexivity|].
      destruct Ib as [->|Ib]; [reflexivity|].
      exfalso. apply (Hirr a). apply (Htr a b a); auto. }
    subst b. f_equal. apply IH; auto.
    now apply Permutation_cons_inv in P.
Qed.

(** * Suffix arrays *)

Lemma in_iota n x : In x (iota n) <-> 0 <= x < Z.max 0 n.
Proof. unfold iota. rewrite in_zseq. lia. Qed.

Lemma length_iota n : len (iota n) = Z.max 0 n.
Proof. unfold iota, len. rewrite length_zseq. lia. Qed.

Section ValidSA.
Variables T SA : list Z.
Hypothesis HSA : valid_sa T SA.

Lemma valid_sa_length : len SA = len T.
Proof.
  destruct HSA as [P _]. unfold len at 1.
  rewrite (Permutation_length P). fold (len (iota (len T))).
  rewrite length_iota. unfold len. lia.
Qed.

Lemma valid_sa_In x : In x SA <-> 0 <= x < len T.
Proof.
  destruct HSA as [P _]. split; intros H.
  - apply (Permutation_in _ P), in_iota in H. unfold len in *. lia.
  - apply (Permutation_in _ (Permutation_sym P)), in_iota. unfold len in *. lia.
Qed.

Lemma valid_sa_range i : 0 <= i < len SA -> 0 <= at_ SA i < len T.
Proof.
  intros H. apply valid_sa_In. unfold at_. apply nth_In. unfold len in H. lia.
Qed.

Lemma valid_sa_NoDup : NoDup SA.
Proof.
  destruct HSA as [P _].
  apply (Permutation_NoDup (Permutation_sym P)), NoDup_zseq.
Qed.

Lemma valid_sa_inj i j :
  0 <= i < len SA -> 0 <= j < len SA -> at_ SA i = at_ SA j -> i = j.
Proof.
  intros Hi Hj E. unfold at_, len in *.
  pose proof (proj1 (NoDup_nth SA 0) valid_sa_NoDup (Z.to_nat i) (Z.to_nat j)
                    ltac:(lia) ltac:(lia) E).
  lia.
Qed.

Lemma valid_sa_surj x :
  0 <= x < len T -> exists i, 0 <= i < len SA /\ at_ SA i = x.
Proof.
  intros H. apply valid_sa_In in H.
  destruct (In_nth SA x 0 H) as (k & Hk & E).
  exists (Z.of_nat k). unfold at_, len. rewrite Nat2Z.id. split; [lia|assumption].
Qed.

(** Suffixes are increasing along the whole array, not only between
    neighbours. *)
Lemma valid_sa_mono i j :
  0 <= i -> i < j -> j < len SA ->
  lex_lt (suffix T (at_ SA i)) (suffix T (at_ SA j)).
Proof.
  intros Hi Hij Hj. destruct HSA as [_ HS].
  replace j with (i + 1 + Z.of_nat (Z.to_nat (j - i - 1))) in * by lia.
  induction (Z.to_nat (j - i - 1)) as [|k IH].
  - replace (i + 1 + Z.of_nat 0) with (i + 1) in * by lia. apply HS; lia.
  - eapply lex_lt_trans; [apply IH; lia|].
    replace (i + 1 + Z.of_nat (S k)) with (i + 1 + Z.of_nat k + 1) in * by lia.
    apply HS; lia.
Qed.

Lemma valid_sa_mono_inv i j :
  0 <= i < len SA -> 0 <= j < len SA ->
  lex_lt (suffix T (at_ SA i)) (suffix T (at_ SA j)) -> i < j.
Proof.
  intros Hi Hj H.
  destruct (Z.lt_trichotomy i j) as [|[->|Hgt]]; [assumption| |].
  - unfold lex_lt in H. now rewrite lex_ltb_irrefl in H.
  - pose proof (valid_sa_mono j i ltac:(lia) Hgt ltac:(lia)) as H'.
    unfold lex_lt in *. apply lex_lt_asym in H. congruence.
Qed.

End ValidSA.

(** [buildSimple] returns the suffix array. *)
Lemma buildSimple_valid (T : list Z) :
  len T <= Int32.max_int ->
  exists SA, buildSimple T (len T) = Some SA /\ valid_sa T SA.
Proof.
  intros Hn. unfold buildSimple.
  destruct (Z.ltb_spec (len T) 0) as [H|_]; [unfold len in H; lia|].
  eexists. split; [reflexivity|].
  set (lt' := fun a b => lex_ltb (suffix T a) (suffix T b)).
  rewrite (std_sort_ext (suffix_less T (len T)) lt').
  2:{ intros x y Hx Hy. apply in_iota in Hx, Hy.
      apply suffix_less_lex; [assumption|lia|lia]. }
  assert (P : Permutation (std_sort lt' (iota (len T))) (iota (len T)))
    by apply std_sort_perm.
  split; [exact P|].
  intros i Hi0 Hi1.
  set (SA := std_sort lt' (iota (len T))) in *.
  assert (Hs : Sorted (fun x y => lt' y x = false) SA).
  { apply std_sort_sorted. intros x y. apply lex_lt_asym. }
  pose proof (Sorted_adjacent _ 0 SA Hs (Z.to_nat i) ltac:(unfold len in *; lia)) as Hle.
  replace (S (Z.to_nat i)) with (Z.to_nat (i + 1)) in Hle by lia.
  fold (at_ SA i) (at_ SA (i + 1)) in Hle. unfold lt' in Hle.
  assert (Hin : forall k, 0 <= k < len SA -> 0 <= at_ SA k < len T).
  { intros k Hk. assert (I : In (at_ SA k) SA)
      by (apply nth_In; unfold len in Hk; lia).
    apply (Permutation_in _ P), in_iota in I. unfold len in *. lia. }
  assert (ND : NoDup SA)
    by (apply (Permutation_NoDup (Permutation_sym P)), NoDup_zseq).
  destruct (lex_total (suffix T (at_ SA i)) (suffix T (at_ SA (i + 1))))
    as [H|H]; [|exact H|congruence].
  intros E. apply suffix_inj in E;
    [|pose proof (Hin i); lia|pose proof (Hin (i + 1)); lia].
  unfold at_ in E.
  pose proof (proj1 (NoDup_nth SA 0) ND (Z.to_nat i) (Z.to_nat (i + 1))
                    ltac:(unfold len in *; lia) ltac:(unfold len in *; lia) E).
  lia.
Qed.

(** * Longest common prefixes *)

Lemma lcp_nonneg u : forall v, 0 <= lcp u v.
Proof.
  induction u as [|x u IH]; intros [|y v]; cbn [lcp]; try lia.
  destruct (x =? y); [specialize (IH v)|]; lia.
Qed.

Lemma lcp_sym u : forall v, lcp u v = lcp v u.
Proof.
  induction u as [|x u IH]; intros [|y v]; cbn [lcp]; try reflexivity.
  rewrite (Z.eqb_sym y x). destruct (x =? y); [now rewrite IH|reflexivity].
Qed.

Lemma lcp_le_len u : forall v, lcp u v <= len u.
Proof.
  unfold len.
  induction u as [|x u IH]; intros [|y v]; cbn [length lcp]; try lia.
  destruct (x =? y); [specialize (IH v)|]; lia.
Qed.

Lemma lcp_nil_r u : lcp u [] = 0.
Proof. now destruct u. Qed.

(** Between two sequences in lexicographic order, a sequence shares with the
    larger one at least the prefix that the smaller one shares with it. *)
Lemma lcp_between u : forall v w,
  lex_lt u v -> lex_lt v w -> lcp u w <= lcp v w.
Proof.
  unfold lex_lt.
  induction u as [|x u IH]; intros v w H1 H2.
  - cbn [lcp]. apply lcp_nonneg.
  - destruct v as [|y v]; [now rewrite lex_ltb_nil_r in H1|].
    destruct w as [|z w]; [now rewrite lex_ltb_nil_r in H2|].
    apply lex_ltb_cons in H1. apply lex_ltb_cons in H2.
    cbn [lcp].
    destruct (Z.eqb_spec x z) as [->|Hxz].
    + destruct H1 as [H1|[-> H1]]; [destruct H2 as [H2|[-> H2]]; lia|].
      destruct H2 as [H2|[_ H2]]; [lia|].
      rewrite Z.eqb_refl. specialize (IH v w H1 H2). lia.
    + destruct (y =? z); [pose proof (lcp_nonneg v w)|]; lia.
Qed.

Section TextSuffixes.
Variable T : list Z.

Lemma lcp_suffix_step i j :
  0 <= i < len T -> 0 <= j < len T ->
  lcp (suffix T i) (suffix T j) =
  if at_ T i =? at_ T j then 1 + lcp (suffix T (i + 1)) (suffix T (j + 1)) else 0.
Proof.
  intros Hi Hj. now rewrite (suffix_cons T i), (suffix_cons T j) by assumption.
Qed.

Lemma lex_suffix_step i j :
  0 <= i < len T -> 0 <= j < len T ->
  lex_lt (suffix T i) (suffix T j) <->
  at_ T i < at_ T j \/
  (at_ T i = at_ T j /\ lex_lt (suffix T (i + 1)) (suffix T (j + 1))).
Proof.
  intros Hi Hj. unfold lex_lt.
  rewrite (suffix_cons T i), (suffix_cons T j) by assumption.
  apply lex_ltb_cons.
Qed.

Lemma lcp_suffix_bound i j :
  0 <= i <= len T -> lcp (suffix T i) (suffix T j) <= len T - i.
Proof.
  intros Hi. rewrite <- length_suffix by assumption. apply lcp_le_len.
Qed.

(** The inner loop of [computeLCP], started at [h], returns [h] plus the
    common prefix of the two suffixes from offset [h] on. *)
Lemma lcp_extend_spec i j :
  len T <= Int32.max_int -> 0 <= i -> 0 <= j ->
  forall fuel h,
    0 <= h -> i + h <= len T -> j + h <= len T ->
    len T - (i + h) < Z.of_nat fuel ->
    lcp_extend fuel T (len T) i j h =
    Some (h + lcp (suffix T (i + h)) (suffix T (j + h))).
Proof.
  intros Hn Hi Hj. rewrite max_int_val in Hn.
  induction fuel as [|fuel IH]; intros h Hh Hih Hjh Hf; [lia|].
  cbn [lcp_extend].
  rewrite !(add_small _ h) by (rewrite max_int_val, min_int_val; lia).
  destruct (Z.ltb_spec (i + h) (len T)) as [H1|H1]; cbn [andb].
  - destruct (Z.ltb_spec (j + h) (len T)) as [H2|H2].
    + rewrite (vget_in_range T (i + h) 0), (vget_in_range T (j + h) 0) by lia.
      cbn [bind]. fold (at_ T (i + h)) (at_ T (j + h)).
      rewrite lcp_suffix_step by lia.
      destruct (at_ T (i + h) =? at_ T (j + h)).
      * rewrite add_small by (rewrite max_int_val, min_int_val; lia).
        rewrite IH by lia. f_equal. rewrite !Z.add_assoc. lia.
      * f_equal. lia.
    + rewrite (suffix_end T (j + h)) by lia. rewrite lcp_nil_r. f_equal. lia.
  - rewrite (suffix_end T (i + h)) by lia. cbn [lcp]. f_equal. lia.
Qed.

(** A common prefix of length at least [h] can be split off. *)
Lemma lcp_split i j : forall h : nat,
  0 <= i -> 0 <= j ->
  Z.of_nat h <= lcp (suffix T i) (suffix T j) ->
  lcp (suffix T i) (suffix T j) =
  Z.of_nat h + lcp (suffix T (i + Z.of_nat h)) (suffix T (j + Z.of_nat h)).
Proof.
  induction h as [|h IH]; intros Hi Hj Hh.
  - now rewrite !Z.add_0_r.
  - specialize (IH Hi Hj ltac:(lia)). rewrite IH in Hh |- *.
    set (i' := i + Z.of_nat h) in *. set (j' := j + Z.of_nat h) in *.
    assert (Hi' : i' < len T).
    { destruct (Z.lt_ge_cases i' (len T)); [assumption|].
      rewrite (suffix_end T i') in Hh by lia. cbn [lcp] in Hh. lia. }
    assert (Hj' : j' < len T).
    { destruct (Z.lt_ge_cases j' (len T)); [assumption|].
      rewrite (suffix_end T j'), lcp_nil_r in Hh by lia. lia. }
    rewrite lcp_suffix_step in Hh |- * by lia.
    destruct (at_ T i' =? at_ T j'); [|lia].
    replace (i + Z.of_nat (S h)) with (i' + 1) by lia.
    replace (j + Z.of_nat (S h)) with (j' + 1) by lia. lia.
Qed.

Lemma lcp_extend_exact i j h :
  len T <= Int32.max_int -> 0 <= i < len T -> 0 <= j < len T ->
  0 <= h <= lcp (suffix T i) (suffix T j) ->
  lcp_extend (S (Z.to_nat (len T))) T (len T) i j h =
  Some (lcp (suffix T i) (suffix T j)).
Proof.
  intros Hn Hi Hj Hh.
  pose proof (lcp_suffix_bound i j ltac:(lia)) as B1.
  pose proof (lcp_suffix_bound j i ltac:(lia)) as B2.
  rewrite (lcp_sym (suffix T j)) in B2.
  rewrite lcp_extend_spec by lia.
  rewrite (lcp_split i j (Z.to_nat h)) by lia.
  now rewrite Z2Nat.id by lia.
Qed.

End TextSuffixes.

(** * Kasai's algorithm *)

Lemma at_set_eq (v : list Z) i x :
  0 <= i < len v -> at_ (list_set v (Z.to_nat i) x) i = x.
Proof. unfold at_, len. intros H. apply nth_list_set_eq. lia. Qed.

Lemma at_set_ne (v : list Z) i j x :
  0 <= i -> 0 <= j -> i <> j -> at_ (list_set v (Z.to_nat i) x) j = at_ v j.
Proof. unfold at_. intros Hi Hj H. apply nth_list_set_ne. lia. Qed.

Lemma len_set (v : list Z) i x : len (list_set v i x) = len v.
Proof. unfold len. now rewrite length_list_set. Qed.

Lemma at_repeat n i : at_ (repeat 0 n) i = 0.
Proof.
  unfold at_. destruct (Nat.lt_ge_cases (Z.to_nat i) n).
  - now apply nth_repeat_lt.
  - apply nth_overflow. now rewrite repeat_length.
Qed.

Section Kasai.
Variables T SA : list Z.
Hypothesis HSA : valid_sa T SA.
Hypothesis Hn : len T <= Int32.max_int.

(** The first loop fills [rank] with the inverse of the suffix array. *)
Lemma compute_rank_spec :
  exists R, compute_rank SA (len T) = Some R /\ len R = len T /\
            forall p, 0 <= p < len T -> at_ R (at_ SA p) = p.
Proof.
  pose proof (valid_sa_length T SA HSA) as HL.
  unfold compute_rank.
  destruct (for_range_inv
              (fun k R => len R = len T /\
                          forall p, 0 <= p < k -> at_ R (at_ SA p) = p)
              (fun i rank => x <- vget SA i ;; vset rank x i)
              0 (len T) (repeat 0 (Z.to_nat (len T))))
    as (R & E & HR1 & HR2).
  - apply len_nonneg.
  - split; [|intros; lia]. unfold len. rewrite repeat_length. lia.
  - intros k R Hk [HR1 HR2].
    pose proof (valid_sa_range T SA HSA k ltac:(lia)) as Hx.
    rewrite (vget_in_range SA k 0) by lia. cbn [bind]. fold (at_ SA k).
    rewrite vset_in_range by lia. eexists. split; [reflexivity|].
    split; [now rewrite len_set|].
    intros p Hp. destruct (Z.eq_dec p k) as [->|Hne].
    + apply at_set_eq. lia.
    + pose proof (valid_sa_range T SA HSA p ltac:(lia)).
      rewrite at_set_ne; [apply HR2; lia|lia|lia|].
      intros E. apply Hne. symmetry.
      apply (valid_sa_inj T SA HSA); [lia|lia|exact E].
  - exists R. auto.
Qed.

Section Rank.
Variable R : list Z.
Hypothesis HR : forall p, 0 <= p < len T -> at_ R (at_ SA p) = p.

Lemma rank_spec i :
  0 <= i < len T -> 0 <= at_ R i < len T /\ at_ SA (at_ R i) = i.
Proof.
  intros Hi. pose proof (valid_sa_length T SA HSA) as HL.
  destruct (valid_sa_surj T SA HSA i Hi) as (p & Hp & <-).
  rewrite HR by lia. split; [lia|reflexivity].
Qed.

(** Kasai's lemma: dropping the first code unit of suffix [i] and of its
    predecessor leaves two suffixes in the same order, and whatever precedes
    suffix [i + 1] in the array shares at least their common prefix with it. *)
Lemma kasai_next i :
  0 <= i < len T -> 0 < at_ R i ->
  2 <= lcp (suffix T i) (suffix T (at_ SA (at_ R i - 1))) ->
  i + 1 < len T /\ 0 < at_ R (i + 1) /\
  lcp (suffix T i) (suffix T (at_ SA (at_ R i - 1))) - 1 <=
  lcp (suffix T (i + 1)) (suffix T (at_ SA (at_ R (i + 1) - 1))).
Proof.
  intros Hi Hri Hh. pose proof (valid_sa_length T SA HSA) as HL.
  destruct (rank_spec i Hi) as [Hr Ei].
  set (ri := at_ R i) in *. set (j := at_ SA (ri - 1)) in *.
  pose proof (valid_sa_range T SA HSA (ri - 1) ltac:(lia)) as Hj. fold j in Hj.
  pose proof (valid_sa_mono T SA HSA (ri - 1) ri ltac:(lia) ltac:(lia) ltac:(lia))
    as Hlt.
  replace (at_ SA ri) with i in Hlt. fold j in Hlt.
  rewrite lcp_suffix_step in Hh |- * by lia.
  apply lex_suffix_step in Hlt; [|lia|lia].
  destruct (Z.eqb_spec (at_ T i) (at_ T j)) as [Eq|]; [|lia].
  destruct Hlt as [Hlt|[_ Hlt]]; [lia|].
  assert (Hi1 : i + 1 < len T).
  { destruct (Z.lt_ge_cases (i + 1) (len T)); [assumption|].
    rewrite (suffix_end T (i + 1)) in Hh by lia. cbn [lcp] in Hh. lia. }
  assert (Hj1 : j + 1 < len T).
  { destruct (Z.lt_ge_cases (j + 1) (len T)); [assumption|].
    rewrite (suffix_end T (j + 1)), lcp_nil_r in Hh by lia. lia. }
  destruct (rank_spec (i + 1) ltac:(lia)) as [Hr1 Ei1].
  destruct (rank_spec (j + 1) ltac:(lia)) as [Hq1 Ej1].
  set (r := at_ R (i + 1)) in *. set (q := at_ R (j + 1)) in *.
  assert (Hqr : q < r).
  { apply (valid_sa_mono_inv T SA HSA); [lia|lia|]. now rewrite Ei1, Ej1. }
  split; [assumption|]. split; [lia|].
  replace (1 + lcp (suffix T (i + 1)) (suffix T (j + 1)) - 1)
    with (lcp (suffix T (i + 1)) (suffix T (j + 1))) by lia.
  destruct (Z.eq_dec q (r - 1)) as [<-|Hne].
  - rewrite Ej1. lia.
  - pose proof (valid_sa_mono T SA HSA q (r - 1) ltac:(lia) ltac:(lia) ltac:(lia))
      as H1.
    pose proof (valid_sa_mono T SA HSA (r - 1) r ltac:(lia) ltac:(lia) ltac:(lia))
      as H2.
    rewrite Ej1 in H1. rewrite Ei1 in H2.
    pose proof (lcp_between _ _ _ H1 H2) as H3.
    rewrite (lcp_sym (suffix T (i + 1))), (lcp_sym (suffix T (i + 1))). exact H3.
Qed.

(** One iteration of the second loop keeps [kasai_inv]. *)
Lemma kasai_step_inv i st :
  len R = len T ->
  0 <= i < len T -> kasai_inv T SA R i st ->
  exists st', kasai_step T SA R (len T) i st = Some st' /\
              kasai_inv T SA R (i + 1) st'.
Proof.
  intros HRlen Hi Hinv. destruct st as [h L].
  destruct Hinv as (HLlen & Hh0 & Hh & HLp).
  pose proof (valid_sa_length T SA HSA) as HL.
  destruct (rank_spec i Hi) as [Hr Ei].
  pose proof Hn as Hn'. rewrite max_int_val in Hn'.
  unfold kasai_step.
  rewrite (vget_in_range R i 0) by lia. cbn [bind]. fold (at_ R i).
  set (ri := at_ R i) in *.
  destruct (Z.ltb_spec 0 ri) as [Hri|Hri].
  - (* suffix i has a predecessor *)
    rewrite sub_small by (rewrite max_int_val, min_int_val; lia).
    rewrite (vget_in_range SA (ri - 1) 0) by lia. cbn [bind].
    fold (at_ SA (ri - 1)). set (j := at_ SA (ri - 1)) in *.
    pose proof (valid_sa_range T SA HSA (ri - 1) ltac:(lia)) as Hj. fold j in Hj.
    rewrite lcp_extend_exact; [|assumption|lia|lia|].
    2:{ split; [assumption|]. destruct Hh as [->|(_ & _ & Hh)];
          [apply lcp_nonneg|exact Hh]. }
    cbn [bind]. set (h' := lcp (suffix T i) (suffix T j)) in *.
    pose proof (lcp_nonneg (suffix T i) (suffix T j)) as Hh'0. fold h' in Hh'0.
    pose proof (lcp_suffix_bound T i j ltac:(lia)) as Hh'n. fold h' in Hh'n.
    rewrite vset_in_range by lia. cbn [bind].
    eexists. split; [reflexivity|].
    unfold kasai_inv. split; [now rewrite len_set|].
    assert (Hsub : (if 0 <? h' then Int32.sub h' 1 else h') = Z.max 0 (h' - 1)).
    { destruct (Z.ltb_spec 0 h');
        [rewrite sub_small by (rewrite max_int_val, min_int_val; lia)|]; lia. }
    rewrite Hsub. split; [lia|]. split.
    + destruct (Z.le_gt_cases h' 1) as [Hle|Hgt]; [left; lia|right].
      destruct (kasai_next i Hi Hri ltac:(fold ri j h'; lia)) as (K1 & K2 & K3).
      fold ri j h' in K3. split; [assumption|]. split; [assumption|lia].
    + intros p Hp. specialize (HLp p Hp).
      pose proof (valid_sa_range T SA HSA p ltac:(lia)) as Hsp.
      destruct (Z.eq_dec p ri) as [->|Hne].
      * rewrite at_set_eq by lia. rewrite Ei.
        destruct (Z.ltb_spec i (i + 1)); [|lia].
        destruct (Z.ltb_spec 0 ri); [|lia]. reflexivity.
      * rewrite at_set_ne by lia. rewrite HLp.
        assert (at_ SA p <> i).
        { intros E. apply Hne. rewrite <- Ei in E.
          apply (valid_sa_inj T SA HSA); [lia|lia|exact E]. }
        destruct (Z.ltb_spec (at_ SA p) i), (Z.ltb_spec (at_ SA p) (i + 1));
          try lia; reflexivity.
  - (* suffix i is the smallest: nothing is written *)
    eexists. split; [reflexivity|].
    unfold kasai_inv. split; [assumption|]. split; [assumption|].
    split; [left; destruct Hh as [|(_ & ? & _)]; [assumption|lia]|].
    intros p Hp. rewrite (HLp p Hp).
    pose proof (valid_sa_range T SA HSA p ltac:(lia)) as Hsp.
    destruct (Z.ltb_spec 0 p); [|now rewrite !andb_false_r].
    assert (at_ SA p <> i).
    { intros E. rewrite <- Ei in E.
      apply (valid_sa_inj T SA HSA) in E; lia. }
    destruct (Z.ltb_spec (at_ SA p) i), (Z.ltb_spec (at_ SA p) (i + 1));
      try lia; reflexivity.
Qed.

End Rank.

(** [computeLCP] returns, and the array it returns is the LCP array. *)
Lemma computeLCP_spec :
  exists L,
    computeLCP T SA = Some L /\ len L = len T /\
    forall p, 0 <= p < len T ->
              at_ L p =
              if 0 <? p then lcp (suffix T (at_ SA (p - 1))) (suffix T (at_ SA p))
              else 0.
Proof.
  pose proof (valid_sa_length T SA HSA) as HL.
  unfold computeLCP.
  assert (E : Int32.of_size (length SA) = len T)
    by (rewrite of_size_small; fold (len SA); lia).
  rewrite E.
  destruct (Z.ltb_spec (len T) 0) as [H|_]; [pose proof (len_nonneg T); lia|].
  destruct compute_rank_spec as (R & -> & HRlen & HR). cbn [bind].
  destruct (for_range_inv (kasai_inv T SA R) (kasai_step T SA R (len T))
                          0 (len T) (0, repeat 0 (Z.to_nat (len T))))
    as ([h L] & -> & HLlen & _ & _ & HLp).
  - apply len_nonneg.
  - unfold kasai_inv. split; [unfold len; rewrite repeat_length; lia|].
    split; [lia|]. split; [now left|].
    intros p Hp. rewrite at_repeat.
    pose proof (valid_sa_range T SA HSA p ltac:(lia)).
    destruct (Z.ltb_spec (at_ SA p) 0); [lia|reflexivity].
  - intros i st Hi Hinv. now apply kasai_step_inv.
  - cbn [bind snd]. exists L. split; [reflexivity|]. split; [assumption|].
    intros p Hp. rewrite (HLp p Hp).
    pose proof (valid_sa_range T SA HSA p ltac:(lia)).
    destruct (Z.ltb_spec (at_ SA p) (len T)); [|lia]. cbn [andb].
    destruct (0 <? p); [apply lcp_sym|reflexivity].
Qed.

End Kasai.

(** * [sa_match]: the binary searches *)

Lemma compare_from_prefix_cmp (T : list Z) : forall P off,
  nul_free P -> 0 <= off <= len T ->
  compare_from T off P = Some (prefix_cmp (suffix T off) P).
Proof.
  induction P as [|c P IH]; intros off HP Hoff; [reflexivity|].
  pose proof (Forall_inv HP) as Hc. pose proof (Forall_inv_tail HP) as HP'.
  cbv beta in Hc. cbn [compare_from]. unfold data_at.
  destruct (Z.eqb_spec off (len T)) as [->|Hne].
  - cbn [bind]. rewrite suffix_end by lia. cbn [prefix_cmp].
    destruct (Z.ltb_spec 0 c); [reflexivity|lia].
  - rewrite (vget_in_range T off 0) by lia. cbn [bind]. fold (at_ T off).
    rewrite (suffix_cons T off) by lia. cbn [prefix_cmp].
    destruct (at_ T off <? c); [reflexivity|].
    destruct (c <? at_ T off); [reflexivity|].
    apply IH; [assumption|lia].
Qed.

(** [compare] finds no difference exactly when the pattern is a prefix of the
    suffix. *)
Lemma prefix_cmp_Eq P : forall u,
  prefix_cmp u P = Eq <-> firstn (length P) u = P.
Proof.
  induction P as [|c P IH]; intros u; [cbn; tauto|].
  destruct u as [|x u]; cbn [prefix_cmp length firstn]; [split; discriminate|].
  destruct (Z.ltb_spec x c); [split; [discriminate|intros E; inversion E; lia]|].
  destruct (Z.ltb_spec c x); [split; [discriminate|intros E; inversion E; lia]|].
  assert (x = c) by lia. subst x. rewrite IH.
  split; [intros E; now rewrite E|intros E; now injection E].
Qed.

Lemma cmp_rank_range c : 0 <= cmp_rank c <= 2.
Proof. destruct c; cbn [cmp_rank]; lia. Qed.

(** [compare] against a fixed pattern is monotone in the suffix. *)
Lemma prefix_cmp_mono P : forall u v,
  lex_lt u v -> cmp_rank (prefix_cmp u P) <= cmp_rank (prefix_cmp v P).
Proof.
  unfold lex_lt.
  induction P as [|c P IH]; intros u v H; cbn [prefix_cmp]; [lia|].
  destruct v as [|y v]; [now rewrite lex_ltb_nil_r in H|].
  pose proof (cmp_rank_range (prefix_cmp v P)).
  destruct u as [|x u].
  - destruct (y <? c); [|destruct (c <? y)]; cbn [cmp_rank]; lia.
  - apply lex_ltb_cons in H.
    pose proof (cmp_rank_range (prefix_cmp u P)).
    destruct (Z.ltb_spec x c), (Z.ltb_spec c x), (Z.ltb_spec y c),
      (Z.ltb_spec c y); cbn [cmp_rank]; try lia.
    apply IH. destruct H as [H|[_ H]]; [lia|assumption].
Qed.

Lemma mid_of_sum l r :
  0 <= l -> l <= r -> r < 2 ^ 30 ->
  l <= Int32.div (Int32.add l r) 2 <= r.
Proof.
  intros Hl Hlr Hr.
  rewrite add_small by (rewrite max_int_val, min_int_val; lia).
  unfold Int32.div. rewrite Z.quot_div_nonneg by lia.
  assert (l <= (l + r) / 2 <= r).
  { split; [apply Z.div_le_lower_bound; lia|apply Z.div_le_upper_bound; lia]. }
  rewrite wrap_small by (rewrite max_int_val, min_int_val; lia). assumption.
Qed.

Section BinarySearch.
Variables T SA P : list Z.
Variable f : Z -> comparison.
Hypothesis Hn : len T <= 2 ^ 30.
Hypothesis Hlen : len SA = len T.
Hypothesis Hf : forall p, 0 <= p < len T ->
                          compare_from T (at_ SA p) P = Some (f p).
Hypothesis Hmono : forall p q, 0 <= p -> p <= q -> q < len T ->
                               cmp_rank (f p) <= cmp_rank (f q).

(** [bin(true)]: the leftmost index whose suffix starts with the pattern, or
    [-1] when there is none. *)
Lemma bin_loop_first :
  forall fuel l r ans,
    0 <= l -> l <= r + 1 -> r < len T ->
    r - l + 1 < Z.of_nat fuel ->
    (forall p, 0 <= p < l -> f p = Lt) ->
    (ans = -1 /\ (forall p, r < p < len T -> f p = Gt)) \/
    (ans = r + 1 /\ ans < len T /\ f ans = Eq) ->
    exists a,
      bin_loop fuel T SA P true l r ans = Some a /\
      ((a = -1 /\ forall p, 0 <= p < len T -> f p <> Eq) \/
       (0 <= a < len T /\ f a = Eq /\ forall p, 0 <= p < a -> f p = Lt)).
Proof.
  induction fuel as [|fuel IH]; intros l r ans Hl Hlr Hr Hfuel Hlo Hans; [lia|].
  cbn [bin_loop].
  destruct (Z.leb_spec l r) as [Hle|Hgt].
  - pose proof (mid_of_sum l r Hl Hle ltac:(lia)) as Hmid.
    set (mid := Int32.div (Int32.add l r) 2) in *.
    rewrite (vget_in_range SA mid 0) by lia. cbn [bind]. fold (at_ SA mid).
    rewrite Hf by lia. cbn [bind].
    assert (Hs : Int32.sub mid 1 = mid - 1)
      by (apply sub_small; rewrite max_int_val, min_int_val; lia).
    assert (Ha : Int32.add mid 1 = mid + 1)
      by (apply add_small; rewrite max_int_val, min_int_val; lia).
    destruct (f mid) eqn:Em.
    + rewrite Hs. apply IH; try lia; [assumption|].
      right. split; [lia|]. split; [lia|]. now replace (mid - 1 + 1) with mid by lia.
    + rewrite Ha. apply IH; try lia; [|assumption].
      intros p Hp. pose proof (Hmono p mid ltac:(lia) ltac:(lia) ltac:(lia)) as M.
      rewrite Em in M. destruct (f p); cbn [cmp_rank] in M; [lia|reflexivity|lia].
    + rewrite Hs. apply IH; try lia; [assumption|].
      left. destruct Hans as [[E G]|(E & B & Q)].
      * split; [assumption|]. intros p Hp.
        pose proof (Hmono mid p ltac:(lia) ltac:(lia) ltac:(lia)) as M.
        rewrite Em in M. destruct (f p); cbn [cmp_rank] in M; [lia|lia|reflexivity].
      * pose proof (Hmono mid ans ltac:(lia) ltac:(lia) ltac:(lia)) as M.
        rewrite Em, Q in M. cbn [cmp_rank] in M. lia.
  - exists ans. split; [reflexivity|].
    destruct Hans as [[E G]|(E & B & Q)].
    + left. split; [assumption|]. intros p Hp.
      destruct (Z.lt_ge_cases p l) as [Hpl|Hpl].
      * rewrite Hlo by lia. discriminate.
      * rewrite G by lia. discriminate.
    + right. split; [lia|]. split; [assumption|].
      intros p Hp. apply Hlo. lia.
Qed.

(** [bin(false)]: the rightmost such index, or [-1]. *)
Lemma bin_loop_last :
  forall fuel l r ans,
    0 <= l -> l <= r + 1 -> r < len T ->
    r - l + 1 < Z.of_nat fuel ->
    (forall p, r < p < len T -> f p = Gt) ->
    (ans = -1 /\ (forall p, 0 <= p < l -> f p = Lt)) \/
    (ans = l - 1 /\ 0 <= ans /\ f ans = Eq) ->
    exists a,
      bin_loop fuel T SA P false l r ans = Some a /\
      ((a = -1 /\ forall p, 0 <= p < len T -> f p <> Eq) \/
       (0 <= a < len T /\ f a = Eq /\ forall p, a < p < len T -> f p = Gt)).
Proof.
  induction fuel as [|fuel IH]; intros l r ans Hl Hlr Hr Hfuel Hhi Hans; [lia|].
  cbn [bin_loop].
  destruct (Z.leb_spec l r) as [Hle|Hgt].
  - pose proof (mid_of_sum l r Hl Hle ltac:(lia)) as Hmid.
    set (mid := Int32.div (Int32.add l r) 2) in *.
    rewrite (vget_in_range SA mid 0) by lia. cbn [bind]. fold (at_ SA mid).
    rewrite Hf by lia. cbn [bind].
    assert (Hs : Int32.sub mid 1 = mid - 1)
      by (apply sub_small; rewrite max_int_val, min_int_val; lia).
    assert (Ha : Int32.add mid 1 = mid + 1)
      by (apply add_small; rewrite max_int_val, min_int_val; lia).
    destruct (f mid) eqn:Em.
    + rewrite Ha. apply IH; try lia; [assumption|].
      right. split; [lia|]. split; [lia|]. now replace (mid + 1 - 1) with mid by lia.
    + rewrite Ha. apply IH; try lia; [assumption|].
      left. destruct Hans as [[E G]|(E & B & Q)].
      * split; [assumption|]. intros p Hp.
        pose proof (Hmono p mid ltac:(lia) ltac:(lia) ltac:(lia)) as M.
        rewrite Em in M. destruct (f p); cbn [cmp_rank] in M; [lia|reflexivity|lia].
      * pose proof (Hmono ans mid ltac:(lia) ltac:(lia) ltac:(lia)) as M.
        rewrite Em, Q in M. cbn [cmp_rank] in M. lia.
    + rewrite Hs. apply IH; try lia; [|assumption].
      intros p Hp. pose proof (Hmono mid p ltac:(lia) ltac:(lia) ltac:(lia)) as M.
      rewrite Em in M. destruct (f p); cbn [cmp_rank] in M; [lia|lia|reflexivity].
  - exists ans. split; [reflexivity|].
    destruct Hans as [[E G]|(E & B & Q)].
    + left. split; [assumption|]. intros p Hp.
      destruct (Z.lt_ge_cases p l) as [Hpl|Hpl].
      * rewrite G by lia. discriminate.
      * rewrite Hhi by lia. discriminate.
    + right. split; [lia|]. split; [assumption|].
      intros p Hp. apply Hhi. lia.
Qed.

(** The two searches delimit the indices whose suffix starts with the
    pattern. *)
Lemma bin_range :
  0 < len T ->
  exists ansl ansr,
    bin T SA P (len T) true = Some ansl /\
    bin T SA P (len T) false = Some ansr /\
    ((ansl = -1 /\ forall p, 0 <= p < len T -> f p <> Eq) \/
     (0 <= ansl /\ ansl <= ansr /\ ansr < len T /\
      forall p, 0 <= p < len T -> (f p = Eq <-> ansl <= p <= ansr))).
Proof.
  intros Hpos. unfold bin.
  rewrite sub_small by (rewrite max_int_val, min_int_val; lia).
  destruct (bin_loop_first (S (Z.to_nat (len T))) 0 (len T - 1) (-1))
    as (ansl & -> & Hl); try lia.
  { left. split; [reflexivity|]. intros; lia. }
  destruct (bin_loop_last (S (Z.to_nat (len T))) 0 (len T - 1) (-1))
    as (ansr & -> & Hr); try lia.
  { left. split; [reflexivity|]. intros; lia. }
  exists ansl, ansr. split; [reflexivity|]. split; [reflexivity|].
  destruct Hl as [[-> Hl]|(Bl & El & Hl)]; [now left|right].
  destruct Hr as [[-> Hr]|(Br & Er & Hr)]; [now elim (Hr ansl Bl)|].
  assert (ansl <= ansr).
  { destruct (Z.le_gt_cases ansl ansr); [assumption|].
    rewrite Hl in Er by lia. discriminate. }
  split; [lia|]. split; [assumption|]. split; [lia|].
  intros p Hp. split.
  - intros Ep. split.
    + destruct (Z.lt_ge_cases p ansl); [|lia].
      rewrite Hl in Ep by lia. discriminate.
    + destruct (Z.le_gt_cases p ansr); [assumption|].
      rewrite Hr in Ep by lia. discriminate.
  - intros [B1 B2].
    pose proof (Hmono ansl p ltac:(lia) ltac:(lia) ltac:(lia)) as M1.
    pose proof (Hmono p ansr ltac:(lia) ltac:(lia) ltac:(lia)) as M2.
    rewrite El in M1. rewrite Er in M2.
    destruct (f p); cbn [cmp_rank] in *; [reflexivity|lia|lia].
Qed.

End BinarySearch.

(** * [sa_match]: the occurrence list *)

Lemma wstring_eqb_eq s : forall t, wstring_eqb s t = true <-> s = t.
Proof.
  induction s as [|x s IH]; intros [|y t]; cbn [wstring_eqb];
    try (split; [discriminate|congruence]); [tauto|].
  rewrite andb_true_iff, Z.eqb_eq, IH.
  split; [intros [-> ->]; reflexivity|intros E; now inversion E].
Qed.

Lemma NoDup_slice {A} (v : list A) a c : NoDup v -> NoDup (firstn c (skipn a v)).
Proof.
  intros H. rewrite <- (firstn_skipn a v) in H.
  apply NoDup_app_remove_l in H.
  rewrite <- (firstn_skipn c (skipn a v)) in H.
  now apply NoDup_app_remove_r in H.
Qed.

Lemma In_slice (v : list Z) lo c x :
  0 <= lo -> lo + Z.of_nat c <= len v ->
  In x (firstn c (skipn (Z.to_nat lo) v)) <->
  exists p, lo <= p < lo + Z.of_nat c /\ at_ v p = x.
Proof.
  intros Hlo Hhi. unfold len in Hhi. split.
  - intros H. destruct (In_nth _ _ 0 H) as (k & Hk & E).
    rewrite length_firstn, length_skipn in Hk.
    rewrite nth_firstn in E.
    destruct (Nat.ltb_spec k c); [|lia].
    rewrite nth_skipn in E.
    exists (lo + Z.of_nat k). split; [lia|].
    unfold at_. now replace (Z.to_nat (lo + Z.of_nat k)) with (Z.to_nat lo + k)%nat by lia.
  - intros (p & Hp & E). subst x.
    replace (at_ v p) with (nth (Z.to_nat (p - lo)) (firstn c (skipn (Z.to_nat lo) v)) 0).
    + apply nth_In. rewrite length_firstn, length_skipn. lia.
    + rewrite nth_firstn.
      destruct (Nat.ltb_spec (Z.to_nat (p - lo)) c); [|lia].
      rewrite nth_skipn. unfold at_. f_equal. lia.
Qed.

(** The sort of [sa_match] leaves distinct positions strictly increasing. *)
Lemma std_sort_strict (l : list Z) :
  NoDup l -> StronglySorted Z.lt (std_sort Z.ltb l).
Proof.
  intros ND.
  assert (S1 : Sorted (fun x y => (y <? x) = false) (std_sort Z.ltb l)).
  { apply std_sort_sorted. intros x y H. apply Z.ltb_lt in H. apply Z.ltb_ge. lia. }
  assert (ND' : NoDup (std_sort Z.ltb l))
    by (apply (Permutation_NoDup (Permutation_sym (std_sort_perm Z.ltb l))), ND).
  apply Sorted_StronglySorted in S1.
  2:{ intros x y z H1 H2. apply Z.ltb_ge in H1, H2. apply Z.ltb_ge. lia. }
  induction S1 as [|a m HS IH HF]; [constructor|].
  apply NoDup_cons_iff in ND'. destruct ND' as [Ha ND'].
  constructor; [now apply IH|].
  rewrite Forall_forall in HF |- *. intros x Hx.
  specialize (HF x Hx). apply Z.ltb_ge in HF.
  assert (x <> a) by (intros ->; contradiction). lia.
Qed.

Section SaMatch.
Variables T SA P : list Z.
Hypothesis HSA : valid_sa T SA.
Hypothesis Hn : len T <= 2 ^ 30.
Hypothesis HP : nul_free P.

Lemma sa_compare p :
  0 <= p < len T ->
  compare_from T (at_ SA p) P = Some (prefix_cmp (suffix T (at_ SA p)) P).
Proof.
  intros Hp. apply compare_from_prefix_cmp; [assumption|].
  pose proof (valid_sa_length T SA HSA).
  pose proof (valid_sa_range T SA HSA p ltac:(lia)). lia.
Qed.

Lemma sa_compare_mono p q :
  0 <= p -> p <= q -> q < len T ->
  cmp_rank (prefix_cmp (suffix T (at_ SA p)) P) <=
  cmp_rank (prefix_cmp (suffix T (at_ SA q)) P).
Proof.
  intros H0 Hpq Hq. pose proof (valid_sa_length T SA HSA).
  destruct (Z.eq_dec p q) as [->|Hne]; [lia|].
  apply prefix_cmp_mono. apply (valid_sa_mono T SA HSA); lia.
Qed.

Lemma occurs_at_prefix_cmp i :
  P <> [] ->
  (occurs_at T P i <->
   0 <= i < len T /\ prefix_cmp (suffix T i) P = Eq).
Proof.
  intros Hne. unfold occurs_at. rewrite prefix_cmp_Eq.
  assert (0 < len P) by (unfold len; destruct P; [congruence|simpl; lia]).
  split.
  - intros (H0 & H1 & H2). split; [lia|assumption].
  - intros (H0 & H2). split; [lia|]. split; [|assumption].
    apply (f_equal (@length Z)) in H2.
    rewrite length_firstn in H2.
    pose proof (length_suffix T i ltac:(lia)). unfold len in *. lia.
Qed.

(** [sa_match] returns; its list is strictly increasing, holds text offsets,
    and, for a non-empty pattern, exactly the occurrences. *)
Lemma sa_match_spec :
  exists A,
    sa_match T SA P = Some A /\
    StronglySorted Z.lt A /\
    Forall position A /\
    (P <> [] -> forall i, In i A <-> occurs_at T P i).
Proof.
  pose proof (valid_sa_length T SA HSA) as HL.
  unfold sa_match.
  destruct (Nat.ltb_spec (length T) (length P)) as [Hlt|Hge].
  { exists []. split; [reflexivity|]. split; [constructor|]. split; [constructor|].
    intros _ i. split; [intros []|]. unfold occurs_at, len. lia. }
  destruct (Nat.eqb_spec (length T) (length P)) as [Heq|Hne].
  { assert (Hocc : forall i, occurs_at T P i <-> i = 0 /\ T = P).
    { intros i. unfold occurs_at, len. rewrite <- Heq. split.
      - intros (H0 & H1 & H2). assert (i = 0) by lia. subst i.
        split; [reflexivity|]. unfold suffix in H2. cbn [Z.to_nat skipn] in H2.
        now rewrite firstn_all in H2.
      - intros [-> ->]. split; [lia|]. split; [lia|].
        unfold suffix. cbn [Z.to_nat skipn]. apply firstn_all. }
    destruct (wstring_eqb T P) eqn:E.
    - apply wstring_eqb_eq in E.
      exists [0]. split; [reflexivity|].
      split; [repeat constructor|].
      split; [constructor; [unfold position; rewrite max_int_val; lia|constructor]|].
      intros _ i. rewrite Hocc. cbn [In]. intuition lia.
    - exists []. split; [reflexivity|]. split; [constructor|]. split; [constructor|].
      intros _ i. rewrite Hocc. split; [intros []|].
      intros [_ E']. apply wstring_eqb_eq in E'. congruence. }
  assert (Hpos : 0 < len T) by (unfold len; lia).
  rewrite of_size_small by (fold (len T); rewrite max_int_val; lia).
  fold (len T).
  destruct (bin_range T SA P (fun p => prefix_cmp (suffix T (at_ SA p)) P)
                      Hn HL sa_compare sa_compare_mono Hpos)
    as (ansl & ansr & -> & -> & Hr).
  cbn [bind].
  destruct Hr as [[-> Hno]|(B0 & B1 & B2 & Hin)].
  - exists []. split; [reflexivity|]. split; [constructor|]. split; [constructor|].
    intros HPne i. split; [intros []|].
    rewrite (occurs_at_prefix_cmp i HPne). intros [Hi E].
    destruct (valid_sa_surj T SA HSA i Hi) as (p & Hp & <-).
    apply (Hno p); [lia|exact E].
  - destruct (Z.eqb_spec ansl (-1)); [lia|].
    rewrite sub_small by (rewrite max_int_val, min_int_val; lia).
    rewrite add_small by (rewrite max_int_val, min_int_val; lia).
    destruct (Z.ltb_spec (ansr - ansl + 1) 0); [lia|].
    rewrite mapM_vget_zseq by lia. cbn [bind].
    set (c := Z.to_nat (ansr - ansl + 1)).
    set (slice := firstn c (skipn (Z.to_nat ansl) SA)).
    assert (Hslice : forall x, In x slice <->
                               exists p, ansl <= p <= ansr /\ at_ SA p = x).
    { intros x. unfold slice. rewrite In_slice by lia.
      split; intros (p & Hp & E); exists p; (split; [lia|assumption]). }
    assert (Hsorted : forall x, In x (std_sort Z.ltb slice) <-> In x slice).
    { intros x. split; apply Permutation_in;
        [|apply Permutation_sym]; apply std_sort_perm. }
    exists (std_sort Z.ltb slice). split; [reflexivity|].
    split; [apply std_sort_strict, NoDup_slice, (valid_sa_NoDup T SA HSA)|].
    split.
    + apply Forall_forall. intros x Hx.
      apply Hsorted, Hslice in Hx. destruct Hx as (p & Hp & <-).
      pose proof (valid_sa_range T SA HSA p ltac:(lia)).
      unfold position. rewrite max_int_val. lia.
    + intros HPne i. rewrite Hsorted, Hslice, (occurs_at_prefix_cmp i HPne).
      split.
      * intros (p & Hp & <-).
        split; [apply (valid_sa_range T SA HSA); lia|].
        apply Hin; lia.
      * intros [Hi E].
        destruct (valid_sa_surj T SA HSA i Hi) as (p & Hp & <-).
        exists p. split; [|reflexivity]. apply Hin; [lia|exact E].
Qed.

End SaMatch.

Lemma zseq_sorted lo count : StronglySorted Z.lt (zseq lo count).
Proof.
  revert lo; induction count as [|c IH]; intros lo; cbn [zseq]; constructor.
  - apply IH.
  - apply Forall_forall. intros x Hx. apply in_zseq in Hx. lia.
Qed.

Lemma strict_NoDup (l : list Z) : StronglySorted Z.lt l -> NoDup l.
Proof.
  induction 1 as [|a l HS IH HF]; constructor; [|assumption].
  intros Hin. rewrite Forall_forall in HF. specialize (HF a Hin). lia.
Qed.

Lemma mapM_vget_zseq_inv (v : list Z) : forall c lo l,
  mapM (vget v) (zseq lo c) = Some l ->
  c = 0%nat \/ (0 <= lo /\ lo + Z.of_nat c <= len v).
Proof.
  induction c as [|c IH]; intros lo l H; [now left|right].
  cbn [zseq mapM] in H.
  destruct (vget v lo) as [x|] eqn:E; [|discriminate]. cbn [bind] in H.
  destruct (mapM (vget v) (zseq (lo + 1) c)) as [l'|] eqn:E2; [|discriminate].
  apply (vget_Some v lo x 0) in E.
  destruct (IH _ _ E2) as [->|]; lia.
Qed.

(** Whatever the pattern, a list that [sa_match] returns is strictly
    increasing and holds text offsets: it is [{}], [{0}], or a sorted run of
    the suffix array. *)
Lemma sa_match_position_list (T SA P A : list Z) :
  valid_sa T SA -> len T <= Int32.max_int ->
  sa_match T SA P = Some A -> position_list A.
Proof.
  intros HSA Hn. pose proof (valid_sa_length T SA HSA) as HL.
  assert (Hnil : position_list []) by (split; constructor).
  unfold sa_match.
  destruct (length T <? length P)%nat; [now intros [= <-]|].
  destruct (length T =? length P)%nat.
  { destruct (wstring_eqb T P); intros [= <-]; [|assumption].
    split; [repeat constructor|].
    constructor; [unfold position; rewrite max_int_val; lia|constructor]. }
  destruct (bin T SA P _ true) as [ansl|]; [|discriminate].
  destruct (bin T SA P _ false) as [ansr|]; [|discriminate]. cbn [bind].
  destruct (ansl =? -1); [now intros [= <-]|].
  set (c := Z.to_nat (Int32.add (Int32.sub ansr ansl) 1)).
  destruct (_ <? 0); [discriminate|].
  destruct (mapM (vget SA) (zseq ansl c)) as [ans|] eqn:E; [|discriminate].
  cbn [bind]. intros [= <-].
  destruct (mapM_vget_zseq_inv SA c ansl ans E) as [Hc|[H0 H1]].
  - rewrite Hc in E. cbn [zseq mapM] in E. injection E as <-. assumption.
  - rewrite mapM_vget_zseq in E by assumption. injection E as <-.
    split; [apply std_sort_strict, NoDup_slice, (valid_sa_NoDup T SA HSA)|].
    apply Forall_forall. intros x Hx.
    apply (Permutation_in _ (std_sort_perm Z.ltb _)) in Hx.
    apply In_slice in Hx; [|assumption|assumption].
    destruct Hx as (p & Hp & <-).
    pose proof (valid_sa_range T SA HSA p ltac:(lia)).
    unfold position. lia.
Qed.

Lemma mapM_sa_match_position_lists (T SA : list Z) :
  valid_sa T SA -> len T <= Int32.max_int ->
  forall ps Ls, mapM (sa_match T SA) ps = Some Ls -> Forall position_list Ls.
Proof.
  intros HSA Hn. induction ps as [|p ps IH]; intros Ls H; cbn [mapM] in H.
  - injection H as <-. constructor.
  - destruct (sa_match T SA p) as [A|] eqn:EA; [|discriminate]. cbn [bind] in H.
    destruct (mapM (sa_match T SA) ps) as [Ls'|]; [|discriminate].
    cbn [bind] in H. injection H as <-.
    constructor; [now apply (sa_match_position_list T SA p)|now apply IH].
Qed.

(** Every search of a group returns when the patterns are free of the code
    unit 0 and the text has at most 2^30 code units. *)
Lemma mapM_sa_match (T SA : list Z) (ps : list (list Z)) :
  valid_sa T SA -> len T <= 2 ^ 30 -> Forall nul_free ps ->
  exists Ls, mapM (sa_match T SA) ps = Some Ls.
Proof.
  intros HSA Hn. induction 1 as [|p ps Hp Hps IH].
  - now exists [].
  - destruct (sa_match_spec T SA p HSA Hn Hp) as (A & EA & _).
    destruct IH as (Ls & ELs).
    exists (A :: Ls). cbn [mapM]. now rewrite EA, ELs.
Qed.

Lemma fold_and_position_list md : 0 <= md -> forall rest f0,
  position_list f0 -> Forall position_list rest ->
  position_list (fold_left (and_step md) rest f0).
Proof.
  intros Hmd. induction rest as [|L rest IH]; intros f0 H0 Hrest; [assumption|].
  cbn [fold_left]. apply IH; [|exact (Forall_inv_tail Hrest)].
  destruct H0 as [S0 P0]. destruct (Forall_inv Hrest) as [S1 P1].
  rewrite and_step_merge. split.
  - now apply merge_and_sorted.
  - now apply merge_and_positions.
Qed.

Lemma fold_or_position_list md : 0 <= md -> forall rest f0,
  position_list f0 -> Forall position_list rest ->
  position_list (fold_left (or_step md) rest f0).
Proof.
  intros Hmd. induction rest as [|L rest IH]; intros f0 H0 Hrest; [assumption|].
  cbn [fold_left]. apply IH; [|exact (Forall_inv_tail Hrest)].
  destruct H0 as [S0 P0]. destruct (Forall_inv Hrest) as [S1 P1].
  rewrite or_step_merge. split.
  - now apply merge_or_sorted.
  - now apply merge_or_positions.
Qed.

Lemma grouped_match_AND_returns (T SA : list Z) (data : grouped_data AND) md Ls :
  mapM (sa_match T SA) (strs data) = Some Ls ->
  exists out, grouped_match_AND T SA data md = Some out.
Proof.
  intros H. unfold grouped_match_AND. rewrite H.
  destruct (strs data) as [|p ps]; [now eexists|]. cbn [bind].
  destruct Ls as [|f0 rest]; [|now eexists].
  cbn [mapM] in H. destruct (sa_match T SA p); cbn [bind] in H;
    [destruct (mapM (sa_match T SA) ps)|]; discriminate.
Qed.

Lemma grouped_match_OR_returns (T SA : list Z) (data : grouped_data OR) md Ls :
  mapM (sa_match T SA) (strs data) = Some Ls ->
  exists out, grouped_match_OR T SA data md = Some out.
Proof.
  intros H. unfold grouped_match_OR. rewrite H.
  destruct (strs data) as [|p ps]; [now eexists|]. cbn [bind].
  destruct Ls as [|f0 rest]; [|now eexists].
  cbn [mapM] in H. destruct (sa_match T SA p); cbn [bind] in H;
    [destruct (mapM (sa_match T SA) ps)|]; discriminate.
Qed.

Lemma valid_sa_banana : valid_sa banana [5; 3; 1; 0; 4; 2].
Proof.
  destruct (buildSimple_valid banana) as (SA & E & H).
  - unfold len. cbn [banana length]. rewrite max_int_val. lia.
  - vm_compute in E. injection E as <-. exact H.
Qed.

(** * The claims about searches and grouped queries *)








(** * The claims about the index *)

(** C6. For a text [T] whose length fits an [int], the constructor returns an
    object whose [sa_] has the length of [T], is a permutation of
    [0 .. n-1], and lists the suffixes in strictly increasing lexicographic
    order (a proper prefix compares smaller). *)
Theorem constructor_builds_suffix_array (T : list Z) :
  len T <= Int32.max_int ->
  exists obj,
    SuffixArray_new T = Some obj /\
    len (sa_ obj) = len T /\
    Permutation (sa_ obj) (iota (len T)) /\
    (forall i, 0 <= i -> i + 1 < len T ->
               lex_lt (suffix T (at_ (sa_ obj) i)) (suffix T (at_ (sa_ obj) (i + 1)))).
Proof.
  intros Hn. unfold SuffixArray_new.
  destruct (Nat.eqb_spec (length T) 0) as [E|NE].
  - eexists. split; [reflexivity|]. cbn [sa_].
    destruct T; [|discriminate]. split; [reflexivity|].
    split; [apply Permutation_refl|]. unfold len. cbn [length]. intros; lia.
  - rewrite of_size_small by assumption. fold (len T).
    destruct (buildSimple_valid T Hn) as (SA & -> & HSA). cbn [bind].
    destruct (computeLCP_spec T SA HSA Hn) as (L & -> & _). cbn [bind].
    eexists. split; [reflexivity|]. cbn [sa_].
    pose proof (valid_sa_length T SA HSA) as HL.
    split; [assumption|]. split; [apply HSA|].
    intros i H0 H1. apply HSA; lia.
Qed.

(** [constructor_builds_suffix_array] on "banana". *)
Lemma constructor_builds_suffix_array_witness :
  exists obj,
    SuffixArray_new banana = Some obj /\
    len (sa_ obj) = len banana /\
    Permutation (sa_ obj) (iota (len banana)) /\
    (forall i, 0 <= i -> i + 1 < len banana ->
               lex_lt (suffix banana (at_ (sa_ obj) i))
                      (suffix banana (at_ (sa_ obj) (i + 1)))).
Proof.
  apply (constructor_builds_suffix_array banana).
  unfold len. cbn [banana length]. rewrite max_int_val. lia.
Defined.

(** C7. For a text [T] (its length fitting an [int]) with a suffix array [SA],
    [computeLCP] returns an array of the length of [T] whose entry 0 is 0 and
    whose entry [i >= 1] is the length of the longest common prefix of the
    suffixes at [SA[i-1]] and [SA[i]]. *)
Theorem kasai_lcp_exact (T SA : list Z) :
  valid_sa T SA -> len T <= Int32.max_int ->
  exists L,
    computeLCP T SA = Some L /\
    len L = len T /\
    (0 < len T -> vget L 0 = Some 0) /\
    (forall i, 1 <= i < len T ->
               vget L i = Some (lcp (suffix T (at_ SA (i - 1))) (suffix T (at_ SA i)))).
Proof.
  intros HSA Hn.
  destruct (computeLCP_spec T SA HSA Hn) as (L & E & HL & Hp).
  exists L. split; [assumption|]. split; [assumption|]. split.
  - intros Hpos. rewrite (vget_in_range L 0 0) by lia.
    fold (at_ L 0). now rewrite (Hp 0) by lia.
  - intros i Hi. rewrite (vget_in_range L i 0) by lia.
    fold (at_ L i). rewrite (Hp i) by lia.
    destruct (Z.ltb_spec 0 i); [reflexivity|lia].
Qed.

(** [kasai_lcp_exact] on "banana". *)
Lemma kasai_lcp_exact_witness :
  exists L,
    computeLCP banana [5; 3; 1; 0; 4; 2] = Some L /\
    len L = len banana /\
    (0 < len banana -> vget L 0 = Some 0) /\
    (forall i, 1 <= i < len banana ->
               vget L i = Some (lcp (suffix banana (at_ [5; 3; 1; 0; 4; 2] (i - 1)))
                                    (suffix banana (at_ [5; 3; 1; 0; 4; 2] i)))).
Proof.
  apply (kasai_lcp_exact banana [5; 3; 1; 0; 4; 2]).
  - exact valid_sa_banana.
  - unfold len. cbn [banana length]. rewrite max_int_val. lia.
Defined.

(** * Further properties of the code *)



(** X2. [buildSimple] returns the only suffix array there is: any list that
    satisfies the data-model invariants is its result. *)
Theorem suffix_array_unique (T SA : list Z) :
  valid_sa T SA -> len T <= Int32.max_int -> buildSimple T (len T) = Some SA.
Proof.
  intros HSA Hn.
  destruct (buildSimple_valid T Hn) as (SA' & E & HSA'). rewrite E. f_equal.
  set (R := fun a b => lex_lt (suffix T a) (suffix T b)).
  assert (Hstrong : forall L, valid_sa T L -> StronglySorted R L).
  { intros L HL. apply Sorted_StronglySorted.
    - intros x y z. apply lex_lt_trans.
    - apply (adjacent_Sorted R 0). intros i Hi.
      pose proof (proj2 HL (Z.of_nat i) ltac:(lia) ltac:(unfold len; lia)) as H.
      unfold at_ in H. rewrite Nat2Z.id in H.
      now replace (Z.to_nat (Z.of_nat i + 1)) with (S i) in H by lia. }
  apply (sorted_perm_unique R).
  - intros x H. unfold R, lex_lt in H. now rewrite lex_ltb_irrefl in H.
  - intros x y z. apply lex_lt_trans.
  - now apply Hstrong.
  - now apply Hstrong.
  - eapply Permutation_trans; [apply HSA'|apply Permutation_sym, HSA].
Qed.

(** [suffix_array_unique] on "banana". *)
Lemma suffix_array_unique_witness :
  buildSimple banana (len banana) = Some [5; 3; 1; 0; 4; 2].
Proof.
  apply (suffix_array_unique banana [5; 3; 1; 0; 4; 2]).
  - exact valid_sa_banana.
  - unfold len. cbn [banana length]. rewrite max_int_val. lia.
Defined.

(** [SAMatcher::findAll] returns the empty list for the empty pattern and
    on the empty text. *)
Theorem findAll_guards_empty (sa : SuffixArray) (pattern : list Z) :
  findAll sa [] = Some [] /\
  (n_ sa = 0 -> findAll sa pattern = Some []).
Proof.
  split.
  - reflexivity.
  - intros E. unfold findAll. rewrite E. now rewrite orb_true_r.
Qed.

Lemma mapM_empty_text (sa : list Z) (ps : list (list Z)) :
  Forall (fun p => p <> []) ps ->
  mapM (sa_match [] sa) ps = Some (map (fun _ => []) ps).
Proof.
  induction 1 as [|p ps Hp Hps IH]; [reflexivity|].
  cbn [mapM map]. rewrite IH.
  destruct p as [|c p]; [congruence|reflexivity].
Qed.

Lemma fold_step_nil (step : list Z -> list Z -> list Z) (ps : list (list Z)) :
  step [] [] = [] ->
  fold_left step (map (fun _ => []) ps) [] = [].
Proof.
  intros H. induction ps as [|p ps IH]; [reflexivity|].
  cbn [map fold_left]. now rewrite H.
Qed.

(** X3. On the empty text, [sa_match] returns the empty list for every
    non-empty pattern, and [grouped_match] returns the empty list for every
    AND group and every OR group of non-empty patterns, the empty group
    included. *)
Theorem empty_text_queries (sa P : list Z) (ps : list (list Z)) (md : Z) :
  P <> [] -> Forall (fun p => p <> []) ps ->
  sa_match [] sa P = Some [] /\
  grouped_match_AND [] sa (mk_grouped_data ps) md = Some [] /\
  grouped_match_OR [] sa (mk_grouped_data ps) md = Some [].
Proof.
  intros HP Hps.
  split; [destruct P; [congruence|reflexivity]|].
  unfold grouped_match_AND, grouped_match_OR. cbn [strs].
  rewrite (mapM_empty_text sa ps Hps).
  destruct ps as [|p ps]; [split; reflexivity|].
  cbn [bind map]. split; f_equal; now apply fold_step_nil.
Qed.

(** [empty_text_queries] on the group of "a" and "b". *)
Lemma empty_text_queries_witness :
  sa_match [] [] [97] = Some [] /\
  grouped_match_AND [] [] (mk_grouped_data [[97]; [98]]) 5 = Some [] /\
  grouped_match_OR [] [] (mk_grouped_data [[97]; [98]]) 5 = Some [].
Proof.
  apply (empty_text_queries [] [97] [[97]; [98]] 5).
  - discriminate.
  - repeat constructor; discriminate.
Defined.

(** The end-to-end scenarios on "banana": the constructor builds the
    suffix array [5; 3; 1; 0; 4; 2] and the LCP array [0; 1; 3; 0; 0; 2];
    "ana" is found at [1; 3], "na" at [2; 4] (count 2), "xyz" nowhere, by
    [sa_match] and by [SAMatcher] alike. *)
Theorem banana_scenarios :
  SuffixArray_new banana
    = Some (mkSuffixArray [5; 3; 1; 0; 4; 2] [0; 1; 3; 0; 0; 2] banana 6) /\
  sa_match banana [5; 3; 1; 0; 4; 2] [97; 110; 97] = Some [1; 3] /\
  sa_match banana [5; 3; 1; 0; 4; 2] [110; 97] = Some [2; 4] /\
  sa_match banana [5; 3; 1; 0; 4; 2] [120; 121; 122] = Some [] /\
  (forall obj, SuffixArray_new banana = Some obj ->
     findAll obj [97; 110; 97] = Some [1; 3] /\
     count obj [110; 97] = Some 2 /\
     count obj [98; 97] = Some 1 /\
     count obj [120; 121; 122] = Some 0 /\
     exists_ obj [97; 110; 97] = Some true /\
     exists_ obj [120; 121; 122] = Some false).
Proof.
  split; [vm_compute; reflexivity|].
  repeat (split; [reflexivity|]).
  intros obj H. vm_compute in H. injection H as <-.
  repeat split; vm_compute; reflexivity.
Qed.

(** * [SAMatcher::findAll]: the occurrence list *)

Lemma pat_cmp_range P : forall u, -1 <= pat_cmp P u <= 1.
Proof.
  induction P as [|c P IH]; intros u; cbn [pat_cmp]; [lia|].
  destruct u as [|x u]; [lia|].
  destruct (c <? x); [lia|]. destruct (x <? c); [lia|]. apply IH.
Qed.

Lemma pat_cmp_zero P : forall u,
  pat_cmp P u = 0 <-> firstn (length P) u = P.
Proof.
  induction P as [|c P IH]; intros u; [cbn; tauto|].
  destruct u as [|x u]; cbn [pat_cmp length firstn]; [split; [lia|discriminate]|].
  destruct (Z.ltb_spec c x); [split; [lia|intros E; inversion E; lia]|].
  destruct (Z.ltb_spec x c); [split; [lia|intros E; inversion E; lia]|].
  assert (x = c) by lia. subst x. rewrite IH.
  split; [intros E; now rewrite E|intros E; now injection E].
Qed.

(** The larger the suffix, the smaller the pattern compares against it. *)
Lemma pat_cmp_antitone P : forall u v,
  lex_lt u v -> pat_cmp P v <= pat_cmp P u.
Proof.
  unfold lex_lt.
  induction P as [|c P IH]; intros u v H; cbn [pat_cmp]; [lia|].
  destruct v as [|y v]; [now rewrite lex_ltb_nil_r in H|].
  pose proof (pat_cmp_range P v).
  destruct u as [|x u].
  - destruct (c <? y); [|destruct (y <? c)]; lia.
  - apply lex_ltb_cons in H.
    pose proof (pat_cmp_range P u).
    destruct (Z.ltb_spec c x), (Z.ltb_spec x c), (Z.ltb_spec c y),
      (Z.ltb_spec y c); try lia.
    apply IH. destruct H as [H|[_ H]]; [lia|assumption].
Qed.

Lemma comparePattern_loop_spec (T : list Z) pos :
  len T <= Int32.max_int -> 0 <= pos ->
  forall P i,
    0 <= i -> pos + i <= len T ->
    comparePattern_loop T (len T) pos P i = pat_cmp P (suffix T (pos + i)).
Proof.
  intros Hn Hpos. rewrite max_int_val in Hn.
  induction P as [|c P IH]; intros i Hi Hle; [reflexivity|].
  cbn [comparePattern_loop pat_cmp].
  assert (E : Size.add pos i = pos + i)
    by (unfold Size.add, Size.wrap; apply Z.mod_small; lia).
  rewrite E.
  destruct (Z.leb_spec (len T) (pos + i)) as [H|H].
  - now rewrite suffix_end by lia.
  - rewrite (suffix_cons T (pos + i)) by lia. fold (at_ T (pos + i)).
    destruct (c <? at_ T (pos + i)); [reflexivity|].
    destruct (at_ T (pos + i) <? c); [reflexivity|].
    assert (E1 : Size.add i 1 = i + 1)
      by (unfold Size.add, Size.wrap; apply Z.mod_small; lia).
    rewrite E1, IH by lia. now rewrite Z.add_assoc.
Qed.

(** A binary search of [SAMatcher] over a test that holds on a prefix of the
    array returns the end of that prefix. *)
Lemma search_loop_partition go sa pattern :
  len (sa_ sa) <= Int32.max_int ->
  (forall p q, 0 <= p -> p <= q -> q < len (sa_ sa) ->
     go (comparePattern sa pattern (at_ (sa_ sa) q)) = true ->
     go (comparePattern sa pattern (at_ (sa_ sa) p)) = true) ->
  forall fuel left right,
    0 <= left -> left <= right -> right <= len (sa_ sa) ->
    right - left < Z.of_nat fuel ->
    (forall p, 0 <= p < left ->
               go (comparePattern sa pattern (at_ (sa_ sa) p)) = true) ->
    (forall p, right <= p < len (sa_ sa) ->
               go (comparePattern sa pattern (at_ (sa_ sa) p)) = false) ->
    exists x,
      search_loop go fuel sa pattern left right = Some x /\
      left <= x <= right /\
      (forall p, 0 <= p < x ->
                 go (comparePattern sa pattern (at_ (sa_ sa) p)) = true) /\
      (forall p, x <= p < len (sa_ sa) ->
                 go (comparePattern sa pattern (at_ (sa_ sa) p)) = false).
Proof.
  intros Hn Hmono.
  induction fuel as [|fuel IH]; intros left right H0 Hlr Hr Hf Hlo Hhi; [lia|].
  cbn [search_loop].
  destruct (Z.ltb_spec left right) as [Hlt|Hge].
  - pose proof (mid_bounds left right H0 Hlt ltac:(lia)) as Hmid.
    set (mid := Int32.add left (Int32.div (Int32.sub right left) 2)) in *.
    rewrite (vget_in_range (sa_ sa) mid 0) by lia. cbn [bind].
    fold (at_ (sa_ sa) mid).
    destruct (go (comparePattern sa pattern (at_ (sa_ sa) mid))) eqn:E.
    + rewrite add_small by (rewrite max_int_val, min_int_val in *; lia).
      destruct (IH (mid + 1) right) as (x & Ex & Bx & Hx); try lia.
      * intros p Hp. apply (Hmono p mid); [lia|lia|lia|exact E].
      * assumption.
      * exists x. split; [assumption|]. split; [lia|assumption].
    + destruct (IH left mid) as (x & Ex & Bx & Hx); try lia.
      * assumption.
      * intros p Hp.
        destruct (go (comparePattern sa pattern (at_ (sa_ sa) p))) eqn:Ep;
          [|reflexivity].
        rewrite (Hmono mid p ltac:(lia) ltac:(lia) ltac:(lia) Ep) in E.
        discriminate.
      * exists x. split; [assumption|]. split; [lia|assumption].
  - exists left. split; [reflexivity|].
    assert (left = right) by lia. subst right.
    split; [lia|]. split; assumption.
Qed.

Section FindAll.
Variables T SA L P : list Z.
Hypothesis HSA : valid_sa T SA.
Hypothesis Hn : len T <= Int32.max_int.

Lemma comparePattern_spec p :
  0 <= p < len T ->
  comparePattern (built_object SA L T) P (at_ SA p) = pat_cmp P (suffix T (at_ SA p)).
Proof.
  intros Hp. pose proof (valid_sa_length T SA HSA) as HL.
  pose proof (valid_sa_range T SA HSA p ltac:(lia)) as Hx.
  unfold comparePattern. cbn [text_ n_ built_object].
  assert (E : Size.wrap (at_ SA p) = at_ SA p)
    by (unfold Size.wrap; apply Z.mod_small; rewrite max_int_val in Hn; lia).
  rewrite E, comparePattern_loop_spec by lia. now rewrite Z.add_0_r.
Qed.

Lemma comparePattern_antitone p q :
  0 <= p -> p <= q -> q < len T ->
  comparePattern (built_object SA L T) P (at_ SA q) <= comparePattern (built_object SA L T) P (at_ SA p).
Proof.
  intros H0 Hpq Hq. pose proof (valid_sa_length T SA HSA) as HL.
  rewrite !comparePattern_spec by lia.
  destruct (Z.eq_dec p q) as [->|Hne]; [lia|].
  apply pat_cmp_antitone. apply (valid_sa_mono T SA HSA); lia.
Qed.

(** [findAll] on the object built from [T] returns, for every non-empty
    pattern, the strictly increasing list of its occurrences. *)
Lemma findAll_spec :
  P <> [] ->
  exists A,
    findAll (built_object SA L T) P = Some A /\
    StronglySorted Z.lt A /\
    (forall i, In i A <-> occurs_at T P i).
Proof.
  intros HP. pose proof (valid_sa_length T SA HSA) as HL.
  assert (HlenP : 0 < len P) by (unfold len; destruct P; [congruence|cbn; lia]).
  assert (Hocc : forall i, occurs_at T P i <->
                           0 <= i < len T /\ pat_cmp P (suffix T i) = 0).
  { intros i. unfold occurs_at. rewrite pat_cmp_zero. split.
    - intros (H0 & H1 & H2). split; [lia|assumption].
    - intros (H0 & H2). split; [lia|]. split; [|assumption].
      apply (f_equal (@length Z)) in H2. rewrite length_firstn in H2.
      pose proof (length_suffix T i ltac:(lia)). unfold len in *. lia. }
  unfold findAll. cbn [n_ built_object].
  destruct (Z.eqb_spec (len P) 0); [lia|]. cbn [orb].
  destruct (Z.eqb_spec (len T) 0) as [E0|NE0].
  { exists []. split; [reflexivity|]. split; [constructor|].
    intros i. rewrite Hocc. split; [intros []|lia]. }
  unfold findLeft, findRight. cbn [sa_ built_object].
  rewrite of_size_small by (fold (len SA); lia). fold (len SA).
  assert (HnSA : len (sa_ (built_object SA L T)) <= Int32.max_int) by (cbn [sa_ built_object]; lia).
  assert (M1 : forall p q, 0 <= p -> p <= q -> q < len (sa_ (built_object SA L T)) ->
                 (0 <? comparePattern (built_object SA L T) P (at_ (sa_ (built_object SA L T)) q)) = true ->
                 (0 <? comparePattern (built_object SA L T) P (at_ (sa_ (built_object SA L T)) p)) = true).
  { cbn [sa_ built_object]. intros p q H0 Hpq Hq Hgo. apply Z.ltb_lt in Hgo. apply Z.ltb_lt.
    pose proof (comparePattern_antitone p q H0 Hpq ltac:(lia)). lia. }
  assert (M2 : forall p q, 0 <= p -> p <= q -> q < len (sa_ (built_object SA L T)) ->
                 (0 <=? comparePattern (built_object SA L T) P (at_ (sa_ (built_object SA L T)) q)) = true ->
                 (0 <=? comparePattern (built_object SA L T) P (at_ (sa_ (built_object SA L T)) p)) = true).
  { cbn [sa_ built_object]. intros p q H0 Hpq Hq Hgo. apply Z.leb_le in Hgo. apply Z.leb_le.
    pose proof (comparePattern_antitone p q H0 Hpq ltac:(lia)). lia. }
  destruct (search_loop_partition (fun c => 0 <? c) (built_object SA L T) P HnSA M1
              (S (length SA)) 0 (len SA))
    as (left & El & Bl & Hl1 & Hl2);
    cbn [sa_ built_object]; try (unfold len in *; lia); try (intros; lia).
  destruct (search_loop_partition (fun c => 0 <=? c) (built_object SA L T) P HnSA M2
              (S (length SA)) 0 (len SA))
    as (right & Er & Br & Hr1 & Hr2);
    cbn [sa_ built_object]; try (unfold len in *; lia); try (intros; lia).
  rewrite El, Er.
  cbn [sa_ built_object] in *. cbn [bind].
  assert (Hlr : left <= right).
  { destruct (Z.le_gt_cases left right); [assumption|].
    specialize (Hl1 right ltac:(lia)). specialize (Hr2 right ltac:(lia)).
    apply Z.ltb_lt in Hl1. apply Z.leb_gt in Hr2. lia. }
  assert (Hzero : forall p, 0 <= p < len T ->
                            (pat_cmp P (suffix T (at_ SA p)) = 0 <-> left <= p < right)).
  { intros p Hp. rewrite <- comparePattern_spec by assumption. split.
    - intros E. split.
      + destruct (Z.lt_ge_cases p left); [|lia].
        specialize (Hl1 p ltac:(lia)). apply Z.ltb_lt in Hl1. lia.
      + destruct (Z.lt_ge_cases p right); [assumption|].
        specialize (Hr2 p ltac:(lia)). apply Z.leb_gt in Hr2. lia.
    - intros [H1 H2].
      specialize (Hl2 p ltac:(lia)). apply Z.ltb_ge in Hl2.
      specialize (Hr1 p ltac:(lia)). apply Z.leb_le in Hr1. lia. }
  rewrite mapM_vget_zseq by lia. cbn [bind].
  set (slice := firstn (Z.to_nat (right - left)) (skipn (Z.to_nat left) SA)).
  assert (Hslice : forall x, In x (std_sort Z.ltb slice) <->
                             exists p, left <= p < right /\ at_ SA p = x).
  { intros x. unfold slice. split.
    - intros H. apply (Permutation_in _ (std_sort_perm Z.ltb _)) in H.
      apply In_slice in H; [|lia|lia]. destruct H as (p & Hp & E).
      exists p. split; [lia|assumption].
    - intros (p & Hp & E).
      apply (Permutation_in _ (Permutation_sym (std_sort_perm Z.ltb _))).
      apply In_slice; [lia|lia|]. exists p. split; [lia|assumption]. }
  exists (std_sort Z.ltb slice). split; [reflexivity|].
  split; [apply std_sort_strict, NoDup_slice, (valid_sa_NoDup T SA HSA)|].
  intros i. rewrite Hslice, Hocc. split.
  - intros (p & Hp & <-).
    split; [apply (valid_sa_range T SA HSA); lia|]. apply Hzero; lia.
  - intros [Hi E].
    destruct (valid_sa_surj T SA HSA i Hi) as (p & Hp & <-).
    exists p. split; [|reflexivity]. apply Hzero; [lia|exact E].
Qed.

End FindAll.

(** X4. For a text whose length fits an [int], [SAMatcher::findAll] on the
    object the constructor builds returns, for every non-empty pattern (the
    code unit 0 allowed), the strictly increasing list of exactly the
    positions where the pattern occurs. *)
Theorem findAll_correct (T P : list Z) :
  len T <= Int32.max_int -> P <> [] ->
  exists obj A,
    SuffixArray_new T = Some obj /\
    findAll obj P = Some A /\
    StronglySorted Z.lt A /\
    (forall i, In i A <-> occurs_at T P i).
Proof.
  intros Hn HP.
  assert (Hmk : exists SA L, SuffixArray_new T = Some (mkSuffixArray SA L T (len T))
                             /\ valid_sa T SA).
  { unfold SuffixArray_new.
    destruct (Nat.eqb_spec (length T) 0) as [E|NE].
    - destruct T; [|discriminate]. exists [], []. split; [reflexivity|].
      split; [apply Permutation_refl|]. intros i H0 H1. unfold len in H1.
      cbn [length] in H1. lia.
    - rewrite of_size_small by assumption. fold (len T).
      destruct (buildSimple_valid T Hn) as (SA & -> & HSA). cbn [bind].
      destruct (computeLCP_spec T SA HSA Hn) as (L & -> & _). cbn [bind].
      now exists SA, L. }
  destruct Hmk as (SA & L & E & HSA).
  destruct (findAll_spec T SA L P HSA Hn HP) as (A & EA & HA).
  exists (built_object SA L T), A. auto.
Qed.

(** [findAll_correct] on "abc" and the pattern "c" followed by the code unit
    0, which occurs nowhere. *)
Lemma findAll_correct_witness :
  exists obj A,
    SuffixArray_new [97; 98; 99] = Some obj /\
    findAll obj [99; 0] = Some A /\
    StronglySorted Z.lt A /\
    (forall i, In i A <-> occurs_at [97; 98; 99] [99; 0] i).
Proof.
  apply (findAll_correct [97; 98; 99] [99; 0]).
  - unfold len. cbn [length]. rewrite max_int_val. lia.
  - discriminate.
Defined.

(** When no position of [A] is within [md] of a position of [B], one round
    of the AND loop returns the empty list. *)
Theorem and_step_far_apart (md : Z) (A B : list Z) :
  Forall position A -> Forall position B ->
  (forall a b, In a A -> In b B -> md < Z.abs (a - b)) ->
  and_step md A B = [].
Proof.
  rewrite and_step_merge. revert B.
  induction A as [|a A IHA]; intros B PA PB Hfar; [reflexivity|].
  induction B as [|b B IHB]; [apply merge_and_nil_r|].
  rewrite merge_and_cons.
  rewrite abs_sub_positions by (apply Forall_inv in PA, PB; assumption).
  specialize (Hfar a b (or_introl eq_refl) (or_introl eq_refl)) as Hab.
  destruct (Z.leb_spec (Z.abs (a - b)) md); [lia|].
  destruct (a <? b).
  - apply IHA; [exact (Forall_inv_tail PA)|assumption|].
    intros x y Hx Hy. apply Hfar; [now right|assumption].
  - apply IHB; [exact (Forall_inv_tail PB)|].
    intros x y Hx Hy. apply Hfar; [assumption|now right].
Qed.

(** [and_step_far_apart] on the lists [0; 8] and [20; 30] with [md = 5]. *)
Lemma and_step_far_apart_witness : and_step 5 [0; 8] [20; 30] = [].
Proof.
  apply (and_step_far_apart 5 [0; 8] [20; 30]).
  - repeat (apply Forall_cons; [unfold position; rewrite max_int_val; lia|]).
    apply Forall_nil.
  - repeat (apply Forall_cons; [unfold position; rewrite max_int_val; lia|]).
    apply Forall_nil.
  - cbn [In]. intros a b Ha Hb. lia.
Defined.

(** X5. On a text of at most INT_MAX code units the empty group, AND or OR,
    returns every position of the text, [0; 1; ...; n-1], whatever the suffix
    array and [md] are: the [int] that [std::iota] counts with does not
    overflow.  The list has the length of the text, is strictly increasing,
    holds [i] at index [i], and its elements are exactly the positions of the
    text. *)
Theorem empty_group_all_positions (T SA : list Z) (md : Z) :
  len T <= Int32.max_int ->
  exists out,
    grouped_match_AND T SA (mk_grouped_data []) md = Some out /\
    grouped_match_OR T SA (mk_grouped_data []) md = Some out /\
    out = iota (len T) /\
    len out = len T /\
    StronglySorted Z.lt out /\
    (forall i, 0 <= i < len T -> vget out i = Some i) /\
    (forall x, In x out <-> 0 <= x < len T).
Proof.
  intros Hn. exists (iota (len T)).
  pose proof (len_nonneg T) as H0.
  split; [unfold grouped_match_AND; cbn [strs]; now rewrite std_iota_positions|].
  split; [unfold grouped_match_OR; cbn [strs]; now rewrite std_iota_positions|].
  split; [reflexivity|].
  split; [rewrite length_iota; lia|].
  split; [apply zseq_sorted|].
  split.
  - intros i Hi. rewrite (vget_in_range _ i 0) by (rewrite length_iota; lia).
    unfold iota. rewrite nth_zseq by lia. f_equal. lia.
  - intros x. rewrite in_iota. lia.
Qed.

(** [empty_group_all_positions] on "banana", with the distance 3. *)
Lemma empty_group_all_positions_witness :
  exists out,
    grouped_match_AND banana [5; 3; 1; 0; 4; 2] (mk_grouped_data []) 3 = Some out /\
    grouped_match_OR banana [5; 3; 1; 0; 4; 2] (mk_grouped_data []) 3 = Some out /\
    out = iota (len banana) /\
    len out = len banana /\
    StronglySorted Z.lt out /\
    (forall i, 0 <= i < len banana -> vget out i = Some i) /\
    (forall x, In x out <-> 0 <= x < len banana).
Proof.
  apply (empty_group_all_positions banana [5; 3; 1; 0; 4; 2] 3).
  unfold len. cbn [banana length]. rewrite max_int_val. lia.
Defined.

(** X6. An AND group with a pattern for which [sa_match] returns the empty
    list returns the empty list. *)
Theorem and_group_empty_constituent (T SA : list Z) (data : grouped_data AND)
    (md : Z) (Ls : list (list Z)) :
  mapM (sa_match T SA) (strs data) = Some Ls -> In [] Ls ->
  grouped_match_AND T SA data md = Some [].
Proof.
  intros HLs Hin. unfold grouped_match_AND. rewrite HLs.
  destruct (strs data) as [|p ps].
  - cbn [mapM] in HLs. injection HLs as <-. destruct Hin.
  - cbn [bind]. destruct Ls as [|f0 rest]; [destruct Hin|]. f_equal.
    destruct (fold_and_length md rest f0) as [H1 H2].
    assert (Hlen : length (fold_left (and_step md) rest f0) = 0%nat).
    { destruct Hin as [->|Hin]; [cbn [length] in H1; lia|].
      rewrite Forall_forall in H2. specialize (H2 [] Hin).
      cbn [length] in H2. lia. }
    now destruct (fold_left (and_step md) rest f0).
Qed.

(** [and_group_empty_constituent] on "banana" with the patterns "na" and
    "xyz". *)
Lemma and_group_empty_constituent_witness :
  grouped_match_AND banana [5; 3; 1; 0; 4; 2]
    (mk_grouped_data [[110; 97]; [120; 121; 122]]) 5 = Some [].
Proof.
  apply (and_group_empty_constituent banana [5; 3; 1; 0; 4; 2]
           (mk_grouped_data [[110; 97]; [120; 121; 122]]) 5 [[2; 4]; []]).
  - reflexivity.
  - right. now left.
Defined.

(** * [SAMatcher]: [count] and [exists] against the occurrences *)

Lemma count_exists_of_findAll (sa : SuffixArray) (pattern A : list Z) :
  findAll sa pattern = Some A ->
  count sa pattern = Some (len A) /\
  exists_ sa pattern = Some (negb (Nat.eqb (length A) 0)).
Proof.
  unfold findAll, count, exists_.
  destruct ((len pattern =? 0) || (n_ sa =? 0)); [now intros [= <-] |].
  destruct (find_left_right sa pattern)
    as (left & right & -> & -> & H0 & H1 & H2 & H3).
  cbn [bind]. rewrite mapM_vget_zseq by lia. cbn [bind]. intros [= <-].
  unfold len in *. rewrite std_sort_length, length_firstn, length_skipn.
  rewrite sub_small by (rewrite max_int_val, min_int_val in *; lia).
  split; [f_equal; lia |]. f_equal.
  destruct (Z.ltb_spec left right), (Nat.eqb_spec (Nat.min (Z.to_nat (right - left))
                                                      (length (sa_ sa) - Z.to_nat left)) 0);
    cbn [negb]; try reflexivity; lia.
Qed.

(** X7. For a text of at most [INT_MAX] code units and a pattern that is not
    empty, on the object the constructor builds, [count] returns the number
    of positions where the pattern occurs, and [exists] returns [true]
    exactly when it occurs somewhere. *)
Theorem count_exists_correct (T P : list Z) :
  len T <= Int32.max_int -> P <> [] ->
  exists obj A,
    SuffixArray_new T = Some obj /\
    NoDup A /\ (forall i, In i A <-> occurs_at T P i) /\
    count obj P = Some (len A) /\
    exists e, exists_ obj P = Some e /\ (e = true <-> exists i, occurs_at T P i).
Proof.
  intros Hn HP.
  assert (Hmk : exists SA L, SuffixArray_new T = Some (built_object SA L T) /\ valid_sa T SA).
  { unfold SuffixArray_new, built_object.
    destruct (Nat.eqb_spec (length T) 0) as [E | NE].
    - destruct T; [| discriminate]. exists [], []. split; [reflexivity |].
      split; [apply Permutation_refl |]. intros i H0 H1. unfold len in H1.
      cbn [length] in H1. lia.
    - rewrite of_size_small by assumption. fold (len T).
      destruct (buildSimple_valid T Hn) as (SA & -> & HSA). cbn [bind].
      destruct (computeLCP_spec T SA HSA Hn) as (L & -> & _). cbn [bind].
      now exists SA, L. }
  destruct Hmk as (SA & L & E & HSA).
  destruct (findAll_spec T SA L P HSA Hn HP) as (A & EA & SA' & HA).
  destruct (count_exists_of_findAll _ _ _ EA) as [Ec Ee].
  exists (built_object SA L T), A.
  split; [exact E |]. split; [now apply strict_NoDup |]. split; [exact HA |].
  split; [exact Ec |]. eexists. split; [exact Ee |].
  destruct A as [| a A]; cbn [length Nat.eqb negb].
  - split; [discriminate |]. intros [i Hi]. apply HA in Hi. destruct Hi.
  - split; [| reflexivity]. intros _. exists a. apply HA. now left.
Qed.

(** [count_exists_correct] on "banana" and the pattern "na". *)
Lemma count_exists_correct_witness :
  exists obj A,
    SuffixArray_new banana = Some obj /\
    NoDup A /\ (forall i, In i A <-> occurs_at banana [110; 97] i) /\
    count obj [110; 97] = Some (len A) /\
    exists e, exists_ obj [110; 97] = Some e /\
              (e = true <-> exists i, occurs_at banana [110; 97] i).
Proof.
  apply (count_exists_correct banana [110; 97]).
  - unfold len. cbn [banana length]. rewrite max_int_val. lia.
  - discriminate.
Defined.

(** * Logical operations on result lists *)

(** ** The three set operations *)

Lemma set_intersection_cons x a y b :
  set_intersection (x :: a) (y :: b) =
  if x <? y then set_intersection a (y :: b)
  else if y <? x then set_intersection (x :: a) b
  else x :: set_intersection a b.
Proof. reflexivity. Qed.

Lemma set_intersection_nil_r a : set_intersection a [] = [].
Proof. now destruct a. Qed.

Lemma set_union_cons x a y b :
  set_union (x :: a) (y :: b) =
  if x <? y then x :: set_union a (y :: b)
  else if y <? x then y :: set_union (x :: a) b
  else x :: set_union a b.
Proof. reflexivity. Qed.

Lemma set_union_nil_r a : set_union a [] = a.
Proof. now destruct a. Qed.

Lemma set_difference_cons x a y b :
  set_difference (x :: a) (y :: b) =
  if x <? y then x :: set_difference a (y :: b)
  else if y <? x then set_difference (x :: a) b
  else set_difference a b.
Proof. reflexivity. Qed.

Lemma set_difference_nil_r a : set_difference a [] = a.
Proof. now destruct a. Qed.

Lemma occ_nil z : occ [] z = 0%nat.
Proof. reflexivity. Qed.

Lemma occ_below x l z : StronglySorted Z.le (x :: l) -> z < x -> occ (x :: l) z = 0%nat.
Proof.
  intros S Hz. apply StronglySorted_inv in S. destruct S as [_ F].
  unfold occ. apply count_occ_not_In. intros [E | I]; [lia |].
  rewrite Forall_forall in F. apply F in I. lia.
Qed.

Lemma occ_cons x l z :
  occ (x :: l) z = ((if Z.eq_dec x z then 1 else 0) + occ l z)%nat.
Proof. unfold occ. cbn [count_occ]. now destruct (Z.eq_dec x z). Qed.

Lemma sorted_tail {R : Z -> Z -> Prop} x l : StronglySorted R (x :: l) -> StronglySorted R l.
Proof. intros S. now apply StronglySorted_inv in S. Qed.

Lemma set_intersection_occ : forall a b z,
  StronglySorted Z.le a -> StronglySorted Z.le b ->
  occ (set_intersection a b) z = Nat.min (occ a z) (occ b z).
Proof.
  induction a as [| x a IHa]; intros b z Sa Sb; [reflexivity |].
  induction b as [| y b IHb]; [rewrite set_intersection_nil_r, !occ_nil; lia |].
  rewrite set_intersection_cons.
  pose proof (sorted_tail _ _ Sa) as Sa'. pose proof (sorted_tail _ _ Sb) as Sb'.
  by_heads x y.
  - rewrite IHa by assumption. rewrite (occ_cons x a z).
    destruct (Z.eq_dec x z) as [<- |]; [| reflexivity].
    rewrite (occ_below y b x) by assumption. lia.
  - rewrite IHb by assumption. rewrite (occ_cons y b z).
    destruct (Z.eq_dec y z) as [<- |]; [| reflexivity].
    rewrite (occ_below x a y) by assumption. lia.
  - assert (x = y) as <- by lia.
    rewrite !occ_cons, IHa by assumption. destruct (Z.eq_dec x z); lia.
Qed.

Lemma set_union_occ : forall a b z,
  StronglySorted Z.le a -> StronglySorted Z.le b ->
  occ (set_union a b) z = Nat.max (occ a z) (occ b z).
Proof.
  induction a as [| x a IHa]; intros b z Sa Sb; [reflexivity |].
  induction b as [| y b IHb]; [rewrite set_union_nil_r, !occ_nil; lia |].
  rewrite set_union_cons.
  pose proof (sorted_tail _ _ Sa) as Sa'. pose proof (sorted_tail _ _ Sb) as Sb'.
  by_heads x y.
  - rewrite (occ_cons x (set_union _ _)), IHa by assumption. rewrite (occ_cons x a z).
    destruct (Z.eq_dec x z) as [<- |]; [| reflexivity].
    rewrite (occ_below y b x) by assumption. lia.
  - rewrite (occ_cons y (set_union _ _)), IHb by assumption. rewrite (occ_cons y b z).
    destruct (Z.eq_dec y z) as [<- |]; [| reflexivity].
    rewrite (occ_below x a y) by assumption. lia.
  - assert (x = y) as <- by lia.
    rewrite !occ_cons, IHa by assumption. destruct (Z.eq_dec x z); lia.
Qed.

Lemma set_difference_occ : forall a b z,
  StronglySorted Z.le a -> StronglySorted Z.le b ->
  occ (set_difference a b) z = (occ a z - occ b z)%nat.
Proof.
  induction a as [| x a IHa]; intros b z Sa Sb; [reflexivity |].
  induction b as [| y b IHb]; [rewrite set_difference_nil_r, !occ_nil; lia |].
  rewrite set_difference_cons.
  pose proof (sorted_tail _ _ Sa) as Sa'. pose proof (sorted_tail _ _ Sb) as Sb'.
  by_heads x y.
  - rewrite (occ_cons x (set_difference _ _)), IHa by assumption. rewrite (occ_cons x a z).
    destruct (Z.eq_dec x z) as [<- |]; [| reflexivity].
    rewrite (occ_below y b x) by assumption. lia.
  - rewrite IHb by assumption. rewrite (occ_cons y b z).
    destruct (Z.eq_dec y z) as [<- |]; [| reflexivity].
    rewrite (occ_below x a y) by assumption. lia.
  - assert (x = y) as <- by lia.
    rewrite !occ_cons, IHa by assumption. destruct (Z.eq_dec x z); lia.
Qed.

Lemma set_intersection_incl : forall a b z,
  In z (set_intersection a b) -> In z a /\ In z b.
Proof.
  induction a as [| x a IHa]; intros b z; [intros [] |].
  induction b as [| y b IHb]; [rewrite set_intersection_nil_r; intros [] |].
  rewrite set_intersection_cons. by_heads x y.
  - intros I. apply IHa in I. cbn [In] in *. tauto.
  - intros I. apply IHb in I. cbn [In] in *. tauto.
  - assert (x = y) as <- by lia. intros [<- | I]; [cbn [In]; tauto |].
    apply IHa in I. cbn [In]. tauto.
Qed.

Lemma set_union_incl : forall a b z,
  In z (set_union a b) -> In z a \/ In z b.
Proof.
  induction a as [| x a IHa]; intros b z; [now right |].
  induction b as [| y b IHb]; [rewrite set_union_nil_r; now left |].
  rewrite set_union_cons. by_heads x y.
  - intros [<- | I]; [cbn [In]; tauto |]. apply IHa in I. cbn [In] in *. tauto.
  - intros [<- | I]; [cbn [In]; tauto |]. apply IHb in I. cbn [In] in *. tauto.
  - intros [<- | I]; [cbn [In]; tauto |]. apply IHa in I. cbn [In] in *. tauto.
Qed.

Lemma set_difference_incl : forall a b z, In z (set_difference a b) -> In z a.
Proof.
  induction a as [| x a IHa]; intros b z; [intros [] |].
  induction b as [| y b IHb]; [now rewrite set_difference_nil_r |].
  rewrite set_difference_cons. by_heads x y.
  - intros [<- | I]; [now left |]. apply IHa in I. now right.
  - apply IHb.
  - intros I. apply IHa in I. now right.
Qed.

Lemma Forall_incl_rel {R : Z -> Z -> Prop} x (l out : list Z) :
  Forall (R x) l -> (forall z, In z out -> In z l) -> Forall (R x) out.
Proof.
  rewrite !Forall_forall. auto.
Qed.

Section SetOpsSorted.
Variable R : Z -> Z -> Prop.

Lemma set_intersection_sorted : forall a b,
  StronglySorted R a -> StronglySorted R (set_intersection a b).
Proof.
  induction a as [| x a IHa]; intros b Sa; [constructor |].
  pose proof (sorted_tail _ _ Sa) as Sa'.
  induction b as [| y b IHb]; [rewrite set_intersection_nil_r; constructor |].
  rewrite set_intersection_cons. by_heads x y; auto.
  constructor; [auto |].
  apply StronglySorted_inv in Sa. destruct Sa as [_ F].
  apply (Forall_incl_rel x a); [assumption |]. intros z I. now apply set_intersection_incl in I.
Qed.

Lemma set_difference_sorted : forall a b,
  StronglySorted R a -> StronglySorted R (set_difference a b).
Proof.
  induction a as [| x a IHa]; intros b Sa; [constructor |].
  pose proof (sorted_tail _ _ Sa) as Sa'.
  induction b as [| y b IHb]; [now rewrite set_difference_nil_r |].
  rewrite set_difference_cons. by_heads x y; auto.
  constructor; [auto |].
  apply StronglySorted_inv in Sa. destruct Sa as [_ F].
  apply (Forall_incl_rel x a); [assumption |]. intros z I. now apply set_difference_incl in I.
Qed.

End SetOpsSorted.

Lemma set_union_sorted : forall a b,
  StronglySorted Z.le a -> StronglySorted Z.le b -> StronglySorted Z.le (set_union a b).
Proof.
  induction a as [| x a IHa]; intros b Sa Sb; [assumption |].
  pose proof (sorted_tail _ _ Sa) as Sa'.
  induction b as [| y b IHb]; [now rewrite set_union_nil_r |].
  pose proof (sorted_tail _ _ Sb) as Sb'.
  apply StronglySorted_inv in Sa, Sb. destruct Sa as [_ Fa], Sb as [_ Fb].
  rewrite Forall_forall in Fa, Fb.
  rewrite set_union_cons. by_heads x y.
  - constructor; [apply IHa; [assumption | now constructor; [| apply Forall_forall]] |].
    apply Forall_forall. intros z I. apply set_union_incl in I.
    destruct I as [I | [<- | I]]; [apply Fa in I | | apply Fb in I]; lia.
  - constructor; [apply IHb; assumption |].
    apply Forall_forall. intros z I. apply set_union_incl in I.
    destruct I as [[<- | I] | I]; [| apply Fa in I | apply Fb in I]; lia.
  - constructor; [apply IHa; assumption |].
    apply Forall_forall. intros z I. apply set_union_incl in I.
    destruct I as [I | I]; [apply Fa in I | apply Fb in I]; lia.
Qed.

Lemma set_union_strict : forall a b,
  StronglySorted Z.lt a -> StronglySorted Z.lt b -> StronglySorted Z.lt (set_union a b).
Proof.
  induction a as [| x a IHa]; intros b Sa Sb; [assumption |].
  pose proof (sorted_tail _ _ Sa) as Sa'.
  induction b as [| y b IHb]; [now rewrite set_union_nil_r |].
  pose proof (sorted_tail _ _ Sb) as Sb'.
  apply StronglySorted_inv in Sa, Sb. destruct Sa as [_ Fa], Sb as [_ Fb].
  rewrite Forall_forall in Fa, Fb.
  rewrite set_union_cons. by_heads x y.
  - constructor; [apply IHa; [assumption | now constructor; [| apply Forall_forall]] |].
    apply Forall_forall. intros z I. apply set_union_incl in I.
    destruct I as [I | [<- | I]]; [apply Fa in I | | apply Fb in I]; lia.
  - constructor; [apply IHb; assumption |].
    apply Forall_forall. intros z I. apply set_union_incl in I.
    destruct I as [[<- | I] | I]; [| apply Fa in I | apply Fb in I]; lia.
  - constructor; [apply IHa; assumption |].
    apply Forall_forall. intros z I. apply set_union_incl in I.
    destruct I as [I | I]; [apply Fa in I | apply Fb in I]; lia.
Qed.

Lemma occ_In (l : list Z) z : In z l <-> (0 < occ l z)%nat.
Proof. unfold occ. apply count_occ_In. Qed.

Lemma strict_le l : StronglySorted Z.lt l -> StronglySorted Z.le l.
Proof.
  induction 1; constructor; [assumption |].
  eapply Forall_impl; [| eassumption]. intros; cbv beta in *; lia.
Qed.

Lemma strict_occ l z : StronglySorted Z.lt l -> (occ l z <= 1)%nat.
Proof.
  induction 1 as [| x l S IH F]; [rewrite occ_nil; lia |].
  rewrite occ_cons. destruct (Z.eq_dec x z) as [<- |]; [| lia].
  unfold occ. rewrite (proj1 (count_occ_not_In Z.eq_dec l x)); [lia |].
  intros I. rewrite Forall_forall in F. apply F in I. lia.
Qed.

Lemma sorted_occ_unique : forall l1 l2,
  StronglySorted Z.le l1 -> StronglySorted Z.le l2 ->
  (forall z, occ l1 z = occ l2 z) -> l1 = l2.
Proof.
  induction l1 as [| x l1 IH]; intros l2 S1 S2 E.
  - destruct l2 as [| y l2]; [reflexivity |].
    specialize (E y). rewrite occ_nil, occ_cons in E.
    destruct (Z.eq_dec y y); [discriminate | congruence].
  - destruct l2 as [| y l2].
    { specialize (E x). rewrite occ_nil, occ_cons in E.
      destruct (Z.eq_dec x x); [discriminate | congruence]. }
    assert (x = y) as <-.
    { destruct (Z.lt_trichotomy x y) as [L | [L | L]]; [| assumption |].
      - pose proof (E x) as Ex. rewrite (occ_below y l2 x), occ_cons in Ex by assumption.
        destruct (Z.eq_dec x x); [discriminate | congruence].
      - pose proof (E y) as Ey. rewrite (occ_below x l1 y), occ_cons in Ey by assumption.
        destruct (Z.eq_dec y y); [discriminate | congruence]. }
    f_equal. apply IH; [now apply sorted_tail in S1 | now apply sorted_tail in S2 |].
    intros z. specialize (E z). rewrite !occ_cons in E. lia.
Qed.

(** X8. [andOperation] on two sorted lists returns their intersection as
    multisets: a value occurs in the result as often as in the list where it
    occurs less often.  The result is sorted, and without repetition when the
    first list is. *)
Theorem andOperation_intersection (a b : list Z) :
  StronglySorted Z.le a -> StronglySorted Z.le b ->
  (forall x, occ (andOperation a b) x = Nat.min (occ a x) (occ b x)) /\
  (forall x, In x (andOperation a b) <-> In x a /\ In x b) /\
  StronglySorted Z.le (andOperation a b) /\
  (StronglySorted Z.lt a -> StronglySorted Z.lt (andOperation a b)).
Proof.
  intros Sa Sb. unfold andOperation.
  split; [intros x; now apply set_intersection_occ |].
  split; [| split; [now apply set_intersection_sorted |
                    intros Sa'; now apply set_intersection_sorted]].
  intros x. split; [apply set_intersection_incl |].
  intros [Ia Ib]. rewrite occ_In in *. rewrite set_intersection_occ by assumption. lia.
Qed.

(** [andOperation_intersection] on the lists of the test suite. *)
Lemma andOperation_intersection_witness :
  (forall x, occ (andOperation [1; 3; 5; 7; 9] [2; 3; 5; 8; 10]) x
             = Nat.min (occ [1; 3; 5; 7; 9] x) (occ [2; 3; 5; 8; 10] x)) /\
  (forall x, In x (andOperation [1; 3; 5; 7; 9] [2; 3; 5; 8; 10])
             <-> In x [1; 3; 5; 7; 9] /\ In x [2; 3; 5; 8; 10]) /\
  StronglySorted Z.le (andOperation [1; 3; 5; 7; 9] [2; 3; 5; 8; 10]) /\
  (StronglySorted Z.lt [1; 3; 5; 7; 9] ->
   StronglySorted Z.lt (andOperation [1; 3; 5; 7; 9] [2; 3; 5; 8; 10])).
Proof.
  apply (andOperation_intersection [1; 3; 5; 7; 9] [2; 3; 5; 8; 10]); sorted_list.
Defined.

(** X9. [orOperation] on two sorted lists returns their union as multisets:
    a value occurs in the result as often as in the list where it occurs more
    often.  The result is sorted, and without repetition when both lists
    are. *)
Theorem orOperation_union (a b : list Z) :
  StronglySorted Z.le a -> StronglySorted Z.le b ->
  (forall x, occ (orOperation a b) x = Nat.max (occ a x) (occ b x)) /\
  (forall x, In x (orOperation a b) <-> In x a \/ In x b) /\
  StronglySorted Z.le (orOperation a b) /\
  (StronglySorted Z.lt a -> StronglySorted Z.lt b -> StronglySorted Z.lt (orOperation a b)).
Proof.
  intros Sa Sb. unfold orOperation. repeat split.
  - intros x. now apply set_union_occ.
  - apply set_union_incl.
  - intros I. rewrite !occ_In in *. rewrite set_union_occ by assumption. lia.
  - now apply set_union_sorted.
  - apply set_union_strict.
Qed.

(** [orOperation_union] on the lists of the test suite. *)
Lemma orOperation_union_witness :
  (forall x, occ (orOperation [1; 3; 5; 7; 9] [2; 3; 5; 8; 10]) x
             = Nat.max (occ [1; 3; 5; 7; 9] x) (occ [2; 3; 5; 8; 10] x)) /\
  (forall x, In x (orOperation [1; 3; 5; 7; 9] [2; 3; 5; 8; 10])
             <-> In x [1; 3; 5; 7; 9] \/ In x [2; 3; 5; 8; 10]) /\
  StronglySorted Z.le (orOperation [1; 3; 5; 7; 9] [2; 3; 5; 8; 10]) /\
  (StronglySorted Z.lt [1; 3; 5; 7; 9] -> StronglySorted Z.lt [2; 3; 5; 8; 10] ->
   StronglySorted Z.lt (orOperation [1; 3; 5; 7; 9] [2; 3; 5; 8; 10])).
Proof.
  apply (orOperation_union [1; 3; 5; 7; 9] [2; 3; 5; 8; 10]); sorted_list.
Defined.

(** X10. [notOperation] on two sorted lists returns their difference as
    multisets: a value that occurs [m] times in the first list and [n] times
    in the second occurs [m - n] times in the result, and not at all when
    [n >= m].  So a value of the second list can stay in the result when the
    first list repeats it; when the first list has no repetition the result
    is the values of the first list that are not in the second. *)
Theorem notOperation_difference (a b : list Z) :
  StronglySorted Z.le a -> StronglySorted Z.le b ->
  (forall x, occ (notOperation a b) x = (occ a x - occ b x)%nat) /\
  (forall x, In x (notOperation a b) -> In x a) /\
  StronglySorted Z.le (notOperation a b) /\
  (StronglySorted Z.lt a ->
   StronglySorted Z.lt (notOperation a b) /\
   forall x, In x (notOperation a b) <-> In x a /\ ~ In x b).
Proof.
  intros Sa Sb. unfold notOperation.
  split; [intros x; now apply set_difference_occ |].
  split; [intros x; apply set_difference_incl |].
  split; [now apply set_difference_sorted |].
  intros Sa'. split; [now apply set_difference_sorted |].
  intros x. pose proof (strict_occ a x Sa') as H1. split.
  - intros I. split; [now apply set_difference_incl in I |].
    intros Ib. rewrite occ_In in *. rewrite set_difference_occ in I by assumption. lia.
  - intros [Ia Ib]. rewrite occ_In in *. rewrite set_difference_occ by assumption. lia.
Qed.

(** [notOperation_difference] on a first list that repeats a value. *)
Lemma notOperation_difference_witness :
  (forall x, occ (notOperation [1; 1; 3] [1; 2]) x = Nat.sub (occ [1; 1; 3] x) (occ [1; 2] x)) /\
  (forall x, In x (notOperation [1; 1; 3] [1; 2]) -> In x [1; 1; 3]) /\
  StronglySorted Z.le (notOperation [1; 1; 3] [1; 2]) /\
  (StronglySorted Z.lt [1; 1; 3] ->
   StronglySorted Z.lt (notOperation [1; 1; 3] [1; 2]) /\
   forall x, In x (notOperation [1; 1; 3] [1; 2]) <-> In x [1; 1; 3] /\ ~ In x [1; 2]).
Proof.
  apply (notOperation_difference [1; 1; 3] [1; 2]); sorted_list.
Defined.

(** X11. On sorted lists [andOperation] and [orOperation] are commutative,
    associative and idempotent, [andOperation] distributes over
    [orOperation], a list minus itself is empty, removing from [a] what
    [notOperation a b] keeps leaves [andOperation a b], and two removals
    commute. *)
Theorem set_operation_laws (a b c : list Z) :
  StronglySorted Z.le a -> StronglySorted Z.le b -> StronglySorted Z.le c ->
  andOperation a b = andOperation b a /\
  orOperation a b = orOperation b a /\
  andOperation (andOperation a b) c = andOperation a (andOperation b c) /\
  orOperation (orOperation a b) c = orOperation a (orOperation b c) /\
  andOperation a a = a /\ orOperation a a = a /\ notOperation a a = [] /\
  notOperation a (notOperation a b) = andOperation a b /\
  andOperation a (orOperation b c) = orOperation (andOperation a b) (andOperation a c) /\
  notOperation (notOperation a b) c = notOperation (notOperation a c) b.
Proof.
  intros Sa Sb Sc. unfold andOperation, orOperation, notOperation.
  assert (Si : forall u v, StronglySorted Z.le u -> StronglySorted Z.le (set_intersection u v))
    by (intros; now apply set_intersection_sorted).
  assert (Sd : forall u v, StronglySorted Z.le u -> StronglySorted Z.le (set_difference u v))
    by (intros; now apply set_difference_sorted).
  pose proof set_union_sorted as Su.
  repeat split;
    (apply sorted_occ_unique; [auto using SSorted_nil .. |]; intros z;
     repeat first [ rewrite set_intersection_occ by auto
                  | rewrite set_union_occ by auto
                  | rewrite set_difference_occ by auto ];
     try rewrite occ_nil; lia).
Qed.

(** [set_operation_laws] on three lists, one of them with a repetition. *)
Lemma set_operation_laws_witness :
  andOperation [1; 3; 3; 5] [3; 4] = andOperation [3; 4] [1; 3; 3; 5] /\
  orOperation [1; 3; 3; 5] [3; 4] = orOperation [3; 4] [1; 3; 3; 5] /\
  andOperation (andOperation [1; 3; 3; 5] [3; 4]) [1; 4]
  = andOperation [1; 3; 3; 5] (andOperation [3; 4] [1; 4]) /\
  orOperation (orOperation [1; 3; 3; 5] [3; 4]) [1; 4]
  = orOperation [1; 3; 3; 5] (orOperation [3; 4] [1; 4]) /\
  andOperation [1; 3; 3; 5] [1; 3; 3; 5] = [1; 3; 3; 5] /\
  orOperation [1; 3; 3; 5] [1; 3; 3; 5] = [1; 3; 3; 5] /\
  notOperation [1; 3; 3; 5] [1; 3; 3; 5] = [] /\
  notOperation [1; 3; 3; 5] (notOperation [1; 3; 3; 5] [3; 4])
  = andOperation [1; 3; 3; 5] [3; 4] /\
  andOperation [1; 3; 3; 5] (orOperation [3; 4] [1; 4])
  = orOperation (andOperation [1; 3; 3; 5] [3; 4]) (andOperation [1; 3; 3; 5] [1; 4]) /\
  notOperation (notOperation [1; 3; 3; 5] [3; 4]) [1; 4]
  = notOperation (notOperation [1; 3; 3; 5] [1; 4]) [3; 4].
Proof.
  apply (set_operation_laws [1; 3; 3; 5] [3; 4] [1; 4]); sorted_list.
Defined.

(** ** Several lists *)

Lemma fold_andOperation_spec : forall rest r0,
  StronglySorted Z.le r0 -> Forall (StronglySorted Z.le) rest ->
  StronglySorted Z.le (fold_left andOperation rest r0) /\
  forall x, occ (fold_left andOperation rest r0) x
            = fold_left Nat.min (map (fun r => occ r x) rest) (occ r0 x).
Proof.
  induction rest as [| r rest IH]; intros r0 S0 F; [now split |].
  cbn [fold_left map]. pose proof (Forall_inv F) as Sr. apply Forall_inv_tail in F.
  assert (Hs : StronglySorted Z.le (andOperation r0 r))
    by (now apply set_intersection_sorted).
  destruct (IH (andOperation r0 r) Hs F) as [S' E]. split; [assumption |].
  intros x. rewrite E. unfold andOperation. now rewrite set_intersection_occ.
Qed.

Lemma fold_orOperation_spec : forall rest r0,
  StronglySorted Z.le r0 -> Forall (StronglySorted Z.le) rest ->
  StronglySorted Z.le (fold_left orOperation rest r0) /\
  forall x, occ (fold_left orOperation rest r0) x
            = fold_left Nat.max (map (fun r => occ r x) rest) (occ r0 x).
Proof.
  induction rest as [| r rest IH]; intros r0 S0 F; [now split |].
  cbn [fold_left map]. pose proof (Forall_inv F) as Sr. apply Forall_inv_tail in F.
  assert (Hs : StronglySorted Z.le (orOperation r0 r))
    by (now apply set_union_sorted).
  destruct (IH (orOperation r0 r) Hs F) as [S' E]. split; [assumption |].
  intros x. rewrite E. unfold orOperation. now rewrite set_union_occ.
Qed.

Lemma fold_min_pos : forall ns n,
  (0 < fold_left Nat.min ns n)%nat <-> (0 < n)%nat /\ Forall (fun m => 0 < m)%nat ns.
Proof.
  induction ns as [| m ns IH]; intros n; cbn [fold_left].
  - split; [intros; split; [assumption | constructor] | tauto].
  - rewrite IH. split.
    + intros [H F]. split; [lia |]. constructor; [lia | assumption].
    + intros [H F]. pose proof (Forall_inv F) as Hm. cbv beta in Hm.
      apply Forall_inv_tail in F. split; [lia | assumption].
Qed.

Lemma fold_max_pos : forall ns n,
  (0 < fold_left Nat.max ns n)%nat <-> (0 < n)%nat \/ Exists (fun m => 0 < m)%nat ns.
Proof.
  induction ns as [| m ns IH]; intros n; cbn [fold_left].
  - split; [now left | intros [H | H]; [assumption | inversion H]].
  - rewrite IH. split.
    + intros [H | H]; [| right; now right].
      destruct (Nat.max_spec n m) as [[_ E] | [_ E]]; rewrite E in H;
        [right; now left | now left].
    + intros [H | H]; [left; lia |].
      inversion H; subst; [left; lia | now right].
Qed.

(** X12. On sorted lists [multiOr] returns the values that are in one of the
    lists, and [multiAnd] the values that are in all of them, except that
    [multiAnd] of no list at all is empty.  Both results are sorted. *)
Theorem multi_operations (results : list (list Z)) :
  Forall (StronglySorted Z.le) results ->
  (forall x, In x (multiAnd results) <->
             results <> [] /\ forall r, In r results -> In x r) /\
  (forall x, In x (multiOr results) <-> exists r, In r results /\ In x r) /\
  StronglySorted Z.le (multiAnd results) /\
  StronglySorted Z.le (multiOr results).
Proof.
  intros F. destruct results as [| r0 rest].
  { cbn [multiAnd multiOr In]. repeat split; try constructor; try tauto.
    intros (r & [] & _). }
  pose proof (Forall_inv F) as S0. apply Forall_inv_tail in F.
  destruct (fold_andOperation_spec rest r0 S0 F) as [Sand Eand].
  destruct (fold_orOperation_spec rest r0 S0 F) as [Sor Eor].
  cbn [multiAnd multiOr]. split; [| split; [| now split]].
  - intros x. rewrite occ_In, Eand, fold_min_pos, Forall_map, Forall_forall.
    rewrite <- occ_In. split.
    + intros [H0 H]. split; [discriminate |]. intros r [<- | I]; [assumption |].
      apply occ_In. now apply H.
    + intros [_ H]. split; [apply H; now left |].
      intros r I. apply occ_In. apply H. now right.
  - intros x. rewrite occ_In, Eor, fold_max_pos, Exists_map, Exists_exists.
    rewrite <- occ_In. split.
    + intros [H | (r & I & H)]; [exists r0; split; [now left | assumption] |].
      exists r. split; [now right | now apply occ_In].
    + intros (r & [<- | I] & H); [now left |].
      right. exists r. split; [assumption | now apply occ_In].
Qed.

(** [multi_operations] on three lists. *)
Lemma multi_operations_witness :
  (forall x, In x (multiAnd [[1; 3; 5]; [3; 5; 7]; [0; 3; 5]]) <->
             [[1; 3; 5]; [3; 5; 7]; [0; 3; 5]] <> [] /\
             forall r, In r [[1; 3; 5]; [3; 5; 7]; [0; 3; 5]] -> In x r) /\
  (forall x, In x (multiOr [[1; 3; 5]; [3; 5; 7]; [0; 3; 5]]) <->
             exists r, In r [[1; 3; 5]; [3; 5; 7]; [0; 3; 5]] /\ In x r) /\
  StronglySorted Z.le (multiAnd [[1; 3; 5]; [3; 5; 7]; [0; 3; 5]]) /\
  StronglySorted Z.le (multiOr [[1; 3; 5]; [3; 5; 7]; [0; 3; 5]]).
Proof.
  apply (multi_operations [[1; 3; 5]; [3; 5; 7]; [0; 3; 5]]).
  all_of sorted_list.
Defined.

(** ** Proximity *)

Lemma skip_below_split bound : forall b,
  exists skipped,
    b = skipped ++ skip_below bound b /\
    Forall (fun d => d < bound) skipped /\
    match skip_below bound b with
    | [] => True
    | y :: _ => bound <= y
    end.
Proof.
  induction b as [| y b IH]; [exists []; repeat split; constructor |].
  cbn [skip_below]. destruct (Z.ltb_spec y bound).
  - destruct IH as (sk & E & F & H'). exists (y :: sk). repeat split.
    + cbn [app]. now f_equal.
    + now constructor.
    + assumption.
  - exists []. repeat split; [constructor | assumption].
Qed.

Lemma existsb_false {A} (p : A -> bool) l :
  (forall y, In y l -> p y = false) -> existsb p l = false.
Proof.
  intros H. destruct (existsb p l) eqn:E; [| reflexivity].
  apply existsb_exists in E. destruct E as (y & I & Hy). rewrite (H y I) in Hy. discriminate.
Qed.

Lemma sorted_app_r {R : Z -> Z -> Prop} (l1 l2 : list Z) :
  StronglySorted R (l1 ++ l2) -> StronglySorted R l2.
Proof.
  induction l1 as [| x l1 IH]; [trivial |]. cbn [app]. intros S. apply IH.
  now apply sorted_tail in S.
Qed.

(** One scan of a second list by a predicate that holds on an interval:
    the cursor left by the earlier scans has passed only elements below the
    interval, so the element under it decides. *)
Lemma scan_decides (lo hi : Z) (dropped bj : list Z) :
  StronglySorted Z.le (dropped ++ bj) ->
  Forall (fun d => d < lo) dropped ->
  exists dropped',
    dropped ++ bj = dropped' ++ skip_below lo bj /\
    Forall (fun d => d < lo) dropped' /\
    existsb (fun y => (lo <=? y) && (y <=? hi)) (dropped ++ bj)
    = match skip_below lo bj with
      | [] => false
      | y :: _ => y <=? hi
      end.
Proof.
  intros S Fd. destruct (skip_below_split lo bj) as (sk & E & Fs & Hh).
  exists (dropped ++ sk). split; [rewrite <- app_assoc; now f_equal |].
  split; [apply Forall_app; now split |].
  rewrite E at 1. rewrite app_assoc, existsb_app.
  rewrite (existsb_false _ (dropped ++ sk)).
  2:{ intros y I. assert (y < lo).
      { apply in_app_or in I. rewrite Forall_forall in Fd, Fs.
        destruct I as [I | I]; [now apply Fd | now apply Fs]. }
      destruct (Z.leb_spec lo y); [lia | reflexivity]. }
  cbn [orb]. rewrite E, app_assoc in S. apply sorted_app_r in S.
  destruct (skip_below lo bj) as [| y rest]; [reflexivity |].
  cbn [existsb]. destruct (Z.leb_spec lo y); [| lia]. cbn [andb].
  destruct (Z.leb_spec y hi); [reflexivity |]. cbn [orb].
  apply existsb_false. intros z I.
  apply StronglySorted_inv in S. destruct S as [_ F]. rewrite Forall_forall in F.
  apply F in I. destruct (Z.leb_spec z hi); [lia |]. apply andb_false_r.
Qed.

Lemma within_interval md x b :
  within md x b = existsb (fun y => (x - md <=? y) && (y <=? x + md)) b.
Proof.
  unfold within. induction b as [| y b IH]; [reflexivity |]. cbn [existsb]. rewrite IH.
  f_equal. destruct (Z.leb_spec (Z.abs (y - x)) md), (Z.leb_spec (x - md) y), (Z.leb_spec y (x + md));
    cbn [andb]; try reflexivity; lia.
Qed.

Lemma near_head x md y rest :
  position x -> position y -> 0 <= md -> x + md <= Int32.max_int -> x - md <= y ->
  near x md (y :: rest) = (y <=? x + md).
Proof.
  intros Px Py Hmd Hov Hlo. cbn [near].
  rewrite add_small by (unfold position in *; rewrite max_int_val, min_int_val in *; lia).
  destruct (Z.leb_spec y (x + md)); [| reflexivity].
  rewrite abs_sub_positions by assumption.
  destruct (Z.leb_spec (Z.abs (y - x)) md); [reflexivity | lia].
Qed.

Lemma proximityAnd_loop md b : 0 <= md -> StronglySorted Z.le b -> Forall position b ->
  forall a dropped bj result,
    StronglySorted Z.le a -> Forall position a ->
    Forall (fun x => x + md <= Int32.max_int) a ->
    b = dropped ++ bj ->
    (forall x d, In x a -> In d dropped -> d < x - md) ->
    snd (fold_left
           (fun '(bj, result) x =>
              let bj' := skip_below (Int32.sub x md) bj in
              (bj', if near x md bj' then result ++ [x] else result))
           a (bj, result))
    = result ++ filter (fun x => within md x b) a.
Proof.
  intros Hmd Sb Pb.
  induction a as [| x a IH]; intros dropped bj result Sa Pa Ha Eb Hd.
  { cbn [fold_left filter snd]. now rewrite app_nil_r. }
  cbn [fold_left filter].
  pose proof (Forall_inv Pa) as Px. pose proof (Forall_inv Ha) as Hx. cbv beta in Hx.
  assert (Es : Int32.sub x md = x - md).
  { apply sub_small. unfold position in Px. rewrite max_int_val, min_int_val in *. lia. }
  rewrite Es.
  destruct (scan_decides (x - md) (x + md) dropped bj) as (dropped' & E' & F' & Hw).
  { now rewrite <- Eb. }
  { apply Forall_forall. intros d I. apply Hd; [now left | assumption]. }
  rewrite <- Eb, <- within_interval in Hw.
  assert (Hn : near x md (skip_below (x - md) bj) = within md x b).
  { rewrite Hw. destruct (skip_below_split (x - md) bj) as (sk & Esk & _ & Hh).
    destruct (skip_below (x - md) bj) as [| y rest] eqn:Ey; [reflexivity |].
    apply near_head; try assumption.
    rewrite Forall_forall in Pb. apply Pb. rewrite Eb, Esk.
    apply in_or_app. right. apply in_or_app. right. now left. }
  rewrite Hn.
  assert (Hgo : forall result',
             snd (fold_left
                    (fun '(bj, result) x =>
                       let bj' := skip_below (Int32.sub x md) bj in
                       (bj', if near x md bj' then result ++ [x] else result))
                    a (skip_below (x - md) bj, result'))
             = result' ++ filter (fun x => within md x b) a).
  { intros result'. apply (IH dropped').
    - now apply sorted_tail in Sa.
    - now apply Forall_inv_tail in Pa.
    - now apply Forall_inv_tail in Ha.
    - now rewrite <- E'.
    - intros x' d Ix Id. rewrite Forall_forall in F'. apply F' in Id.
      apply StronglySorted_inv in Sa. destruct Sa as [_ Fa]. rewrite Forall_forall in Fa.
      apply Fa in Ix. lia. }
  destruct (within md x b); rewrite Hgo; [now rewrite <- app_assoc | reflexivity].
Qed.

Lemma proximityAnd_run (a b : list Z) (max_distance : Z) :
  0 <= max_distance ->
  StronglySorted Z.le a -> StronglySorted Z.le b ->
  Forall position a -> Forall position b ->
  Forall (fun x => x + max_distance <= Int32.max_int) a ->
  proximityAnd a b max_distance = filter (fun x => within max_distance x b) a.
Proof.
  intros Hmd Sa Sb Pa Pb Ha. unfold proximityAnd.
  apply (proximityAnd_loop max_distance b Hmd Sb Pb a [] b [] Sa Pa Ha eq_refl).
  intros x d _ [].
Qed.

Lemma within_spec md x b :
  within md x b = true <-> exists y, In y b /\ Z.abs (y - x) <= md.
Proof.
  unfold within. rewrite existsb_exists. split.
  - intros (y & Iy & Hy). exists y. split; [assumption | lia].
  - intros (y & Iy & Hy). exists y. split; [assumption | lia].
Qed.

(** X13. On sorted lists of text offsets, with [max_distance >= 0] and no
    overflow in [a[i] + max_distance], [proximityAnd] keeps, in order, the
    elements of [a] that have an element of [b] within [max_distance], on
    either side. *)
Theorem proximityAnd_filter (a b : list Z) (max_distance : Z) :
  0 <= max_distance ->
  StronglySorted Z.le a -> StronglySorted Z.le b ->
  Forall position a -> Forall position b ->
  Forall (fun x => x + max_distance <= Int32.max_int) a ->
  proximityAnd a b max_distance = filter (fun x => within max_distance x b) a /\
  (forall x, In x (proximityAnd a b max_distance) <->
             In x a /\ exists y, In y b /\ Z.abs (y - x) <= max_distance).
Proof.
  intros Hmd Sa Sb Pa Pb Ha.
  pose proof (proximityAnd_run a b max_distance Hmd Sa Sb Pa Pb Ha) as E.
  split; [assumption |]. intros x. now rewrite E, filter_In, within_spec.
Qed.

(** [proximityAnd_filter] at distance 2. *)
Lemma proximityAnd_filter_witness :
  proximityAnd [1; 10; 20] [3; 18; 40] 2 = filter (fun x => within 2 x [3; 18; 40]) [1; 10; 20] /\
  (forall x, In x (proximityAnd [1; 10; 20] [3; 18; 40] 2) <->
             In x [1; 10; 20] /\ exists y, In y [3; 18; 40] /\ Z.abs (y - x) <= 2).
Proof.
  apply (proximityAnd_filter [1; 10; 20] [3; 18; 40] 2);
    [lia | sorted_list | sorted_list | positions_list | positions_list |
     all_of ltac:(rewrite max_int_val; lia)].
Defined.

Lemma orderedProximity_loop len_a md b : 0 <= len_a -> 0 <= md -> StronglySorted Z.le b ->
  forall a dropped bj result,
    StronglySorted Z.le a -> Forall position a ->
    Forall (fun x => x + len_a + md <= Int32.max_int) a ->
    b = dropped ++ bj ->
    (forall x d, In x a -> In d dropped -> d < x + len_a) ->
    snd (fold_left
           (fun '(bj, result) x =>
              let end_of_a := Int32.add x len_a in
              let bj' := skip_below end_of_a bj in
              (bj', if followed end_of_a md bj' then result ++ [x] else result))
           a (bj, result))
    = result ++ filter (fun x => follows len_a md x b) a.
Proof.
  intros Hlen Hmd Sb.
  induction a as [| x a IH]; intros dropped bj result Sa Pa Ha Eb Hd.
  { cbn [fold_left filter snd]. now rewrite app_nil_r. }
  cbn [fold_left filter].
  pose proof (Forall_inv Pa) as Px. pose proof (Forall_inv Ha) as Hx. cbv beta in Hx.
  unfold position in Px.
  assert (Es : Int32.add x len_a = x + len_a).
  { apply add_small. rewrite max_int_val, min_int_val in *. lia. }
  rewrite Es.
  destruct (scan_decides (x + len_a) (x + len_a + md) dropped bj) as (dropped' & E' & F' & Hw).
  { now rewrite <- Eb. }
  { apply Forall_forall. intros d I. apply Hd; [now left | assumption]. }
  rewrite <- Eb in Hw. fold (follows len_a md x b) in Hw.
  assert (Hn : followed (x + len_a) md (skip_below (x + len_a) bj) = follows len_a md x b).
  { rewrite Hw. unfold followed. destruct (skip_below (x + len_a) bj); [reflexivity |].
    now rewrite add_small by (rewrite max_int_val, min_int_val in *; lia). }
  rewrite Hn.
  assert (Hgo : forall result',
             snd (fold_left
                    (fun '(bj, result) x =>
                       let end_of_a := Int32.add x len_a in
                       let bj' := skip_below end_of_a bj in
                       (bj', if followed end_of_a md bj' then result ++ [x] else result))
                    a (skip_below (x + len_a) bj, result'))
             = result' ++ filter (fun x => follows len_a md x b) a).
  { intros result'. apply (IH dropped').
    - now apply sorted_tail in Sa.
    - now apply Forall_inv_tail in Pa.
    - now apply Forall_inv_tail in Ha.
    - now rewrite <- E'.
    - intros x' d Ix Id. rewrite Forall_forall in F'. apply F' in Id.
      apply StronglySorted_inv in Sa. destruct Sa as [_ Fa]. rewrite Forall_forall in Fa.
      apply Fa in Ix. lia. }
  destruct (follows len_a md x b); rewrite Hgo; [now rewrite <- app_assoc | reflexivity].
Qed.

(** X14. On sorted lists, with [pattern_a_len >= 0], [max_distance >= 0] and
    no overflow in [a[i] + pattern_a_len + max_distance], [orderedProximity]
    keeps, in order, the offsets [x] of [a] for which [b] has an offset
    between the end [x + pattern_a_len] of the first pattern and
    [max_distance] after it. *)
Theorem orderedProximity_filter (a b : list Z) (pattern_a_len max_distance : Z) :
  0 <= pattern_a_len -> 0 <= max_distance ->
  StronglySorted Z.le a -> StronglySorted Z.le b ->
  Forall position a ->
  Forall (fun x => x + pattern_a_len + max_distance <= Int32.max_int) a ->
  orderedProximity a b pattern_a_len max_distance
  = filter (fun x => follows pattern_a_len max_distance x b) a /\
  (forall x, In x (orderedProximity a b pattern_a_len max_distance) <->
             In x a /\
             exists y, In y b /\ x + pattern_a_len <= y <= x + pattern_a_len + max_distance).
Proof.
  intros Hlen Hmd Sa Sb Pa Ha.
  assert (E : orderedProximity a b pattern_a_len max_distance
              = filter (fun x => follows pattern_a_len max_distance x b) a).
  { unfold orderedProximity.
    apply (orderedProximity_loop pattern_a_len max_distance b Hlen Hmd Sb a [] b []
             Sa Pa Ha eq_refl).
    intros x d _ []. }
  split; [assumption |]. intros x. rewrite E, filter_In. unfold follows.
  rewrite existsb_exists. split.
  - intros [I (y & Iy & Hy)]. split; [assumption |]. exists y. split; [assumption | lia].
  - intros [I (y & Iy & Hy)]. split; [assumption |]. exists y. split; [assumption | lia].
Qed.

(** [orderedProximity_filter] for a first pattern of length 5 and a second
    one that must follow at once. *)
Lemma orderedProximity_filter_witness :
  orderedProximity [0; 10] [5; 17] 5 0 = filter (fun x => follows 5 0 x [5; 17]) [0; 10] /\
  (forall x, In x (orderedProximity [0; 10] [5; 17] 5 0) <->
             In x [0; 10] /\ exists y, In y [5; 17] /\ x + 5 <= y <= x + 5 + 0).
Proof.
  apply (orderedProximity_filter [0; 10] [5; 17] 5 0);
    [lia | lia | sorted_list | sorted_list | positions_list |
     all_of ltac:(rewrite max_int_val; lia)].
Defined.

(** ** The proximity combinator of [grouped_match] and the set operations *)

Lemma merge_and_zero : forall A B,
  Forall position A -> Forall position B -> merge_and 0 A B = set_intersection A B.
Proof.
  induction A as [| a A IHA]; intros B PA PB; [reflexivity |].
  induction B as [| b B IHB]; [now rewrite merge_and_nil_r, set_intersection_nil_r |].
  rewrite merge_and_cons, set_intersection_cons.
  rewrite abs_sub_positions by (apply Forall_inv in PA, PB; assumption).
  pose proof (Forall_inv_tail PA). pose proof (Forall_inv_tail PB).
  destruct (Z.leb_spec (Z.abs (a - b)) 0); by_heads a b; try lia.
  - rewrite Z.min_l by lia. f_equal. now apply IHA.
  - now apply IHA.
  - now apply IHB.
Qed.

Lemma merge_or_zero : forall A B,
  Forall position A -> Forall position B -> merge_or 0 A B = set_union A B.
Proof.
  induction A as [| a A IHA]; intros B PA PB; [reflexivity |].
  induction B as [| b B IHB]; [now rewrite merge_or_nil_r, set_union_nil_r |].
  rewrite merge_or_cons, set_union_cons.
  rewrite abs_sub_positions by (apply Forall_inv in PA, PB; assumption).
  pose proof (Forall_inv_tail PA). pose proof (Forall_inv_tail PB).
  destruct (Z.leb_spec (Z.abs (a - b)) 0); by_heads a b; try lia.
  - rewrite Z.min_l by lia. f_equal. now apply IHA.
  - f_equal. now apply IHA.
  - f_equal. now apply IHB.
Qed.

Lemma fold_and_zero : forall rest f0,
  Forall position f0 -> Forall (Forall position) rest ->
  fold_left (and_step 0) rest f0 = fold_left andOperation rest f0.
Proof.
  induction rest as [| L rest IH]; intros f0 P0 Pr; [reflexivity |].
  cbn [fold_left]. pose proof (Forall_inv Pr) as PL. apply Forall_inv_tail in Pr.
  rewrite and_step_merge, merge_and_zero by assumption. apply IH; [| assumption].
  fold (andOperation f0 L). unfold andOperation. rewrite <- merge_and_zero by assumption.
  now apply merge_and_positions.
Qed.

Lemma fold_or_zero : forall rest f0,
  Forall position f0 -> Forall (Forall position) rest ->
  fold_left (or_step 0) rest f0 = fold_left orOperation rest f0.
Proof.
  induction rest as [| L rest IH]; intros f0 P0 Pr; [reflexivity |].
  cbn [fold_left]. pose proof (Forall_inv Pr) as PL. apply Forall_inv_tail in Pr.
  rewrite or_step_merge, merge_or_zero by assumption. apply IH; [| assumption].
  fold (orOperation f0 L). unfold orOperation. rewrite <- merge_or_zero by assumption.
  now apply merge_or_positions.
Qed.

(** X15. With [md = 0] the two combinators of [grouped_match] are the set
    operations: for a group that is not empty, on a text with its suffix
    array, the AND group returns [multiAnd] and the OR group [multiOr] of the
    lists that [sa_match] returns for the patterns. *)
Theorem grouped_match_at_distance_zero (T SA : list Z) (ps : list wstring)
    (Ls : list (list Z)) :
  valid_sa T SA -> len T <= Int32.max_int -> ps <> [] ->
  mapM (sa_match T SA) ps = Some Ls ->
  grouped_match_AND T SA (mk_grouped_data ps) 0 = Some (multiAnd Ls) /\
  grouped_match_OR T SA (mk_grouped_data ps) 0 = Some (multiOr Ls).
Proof.
  intros HSA Hn Hps HLs.
  pose proof (mapM_sa_match_position_lists T SA HSA Hn ps Ls HLs) as HP.
  unfold grouped_match_AND, grouped_match_OR. cbn [strs].
  destruct ps as [| p ps]; [congruence |]. rewrite HLs. cbn [bind].
  destruct Ls as [| f0 rest].
  { cbn [mapM] in HLs. destruct (sa_match T SA p); [| discriminate]. cbn [bind] in HLs.
    destruct (mapM (sa_match T SA) ps); discriminate. }
  cbn [multiAnd multiOr].
  assert (P0 : Forall position f0) by (apply Forall_inv in HP; apply HP).
  assert (Pr : Forall (Forall position) rest).
  { apply Forall_inv_tail in HP. eapply Forall_impl; [| exact HP]. intros L [_ H]. exact H. }
  now rewrite fold_and_zero, fold_or_zero.
Qed.

(** [grouped_match_at_distance_zero] on "banana" with the patterns "an" and
    "na". *)
Lemma grouped_match_at_distance_zero_witness :
  grouped_match_AND banana [5; 3; 1; 0; 4; 2] (mk_grouped_data [[97; 110]; [110; 97]]) 0
  = Some (multiAnd [[1; 3]; [2; 4]]) /\
  grouped_match_OR banana [5; 3; 1; 0; 4; 2] (mk_grouped_data [[97; 110]; [110; 97]]) 0
  = Some (multiOr [[1; 3]; [2; 4]]).
Proof.
  apply (grouped_match_at_distance_zero banana [5; 3; 1; 0; 4; 2]
           [[97; 110]; [110; 97]] [[1; 3]; [2; 4]]).
  - exact valid_sa_banana.
  - unfold len. cbn [banana length]. rewrite max_int_val. lia.
  - discriminate.
  - reflexivity.
Defined.

Lemma merge_and_finds_pair md : forall A B,
  StronglySorted Z.le A -> StronglySorted Z.le B ->
  Forall position A -> Forall position B ->
  (exists a b, In a A /\ In b B /\ Z.abs (a - b) <= md) -> merge_and md A B <> [].
Proof.
  induction A as [| a A IHA]; intros B SA SB PA PB (a0 & b0 & Ia & Ib & Hab); [destruct Ia |].
  induction B as [| b B IHB]; [destruct Ib |].
  rewrite merge_and_cons.
  rewrite abs_sub_positions by (apply Forall_inv in PA, PB; assumption).
  pose proof (sorted_tail _ _ SA) as SA'. pose proof (sorted_tail _ _ SB) as SB'.
  pose proof (Forall_inv_tail PA) as PA'. pose proof (Forall_inv_tail PB) as PB'.
  destruct (StronglySorted_inv SA) as [_ FA]. destruct (StronglySorted_inv SB) as [_ FB].
  rewrite Forall_forall in FA, FB.
  destruct (Z.leb_spec (Z.abs (a - b)) md); [discriminate |].
  destruct (Z.ltb_spec a b).
  - apply IHA; try assumption. exists a0, b0.
    destruct Ia as [<- | Ia]; [exfalso | now repeat split].
    destruct Ib as [<- | Ib]; [lia |]. apply FB in Ib. lia.
  - apply IHB; try assumption.
    destruct Ib as [<- | Ib]; [exfalso | assumption].
    destruct Ia as [<- | Ia]; [lia |]. apply FA in Ia. lia.
Qed.

Lemma merge_and_pairs md x : forall A B,
  Forall position A -> Forall position B ->
  In x (merge_and md A B) ->
  exists a b, In a A /\ In b B /\ Z.abs (a - b) <= md /\ x = Z.min a b.
Proof.
  induction A as [| a A IHA]; intros B PA PB; [intros [] |].
  induction B as [| b B IHB]; [rewrite merge_and_nil_r; intros [] |].
  rewrite merge_and_cons.
  rewrite abs_sub_positions by (apply Forall_inv in PA, PB; assumption).
  pose proof (Forall_inv_tail PA) as PA'. pose proof (Forall_inv_tail PB) as PB'.
  destruct (Z.leb_spec (Z.abs (a - b)) md).
  - intros [<- | I].
    + exists a, b. repeat split; [now left | now left | assumption].
    + destruct (IHA B PA' PB' I) as (a' & b' & Ia & Ib & H'). exists a', b'.
      repeat split; [now right | now right | apply H' | apply H'].
  - destruct (a <? b); intros I.
    + destruct (IHA (b :: B) PA' PB I) as (a' & b' & Ia & Ib & H'). exists a', b'.
      repeat split; [now right | assumption | apply H' | apply H'].
    + destruct (IHB PB' I) as (a' & b' & Ia & Ib & H'). exists a', b'.
      repeat split; [assumption | now right | apply H' | apply H'].
Qed.

(** X16. One round of the AND loop of [grouped_match] on sorted lists of text
    offsets: every offset it returns is the smaller one of a pair, one from
    each list, at most [md] apart; it returns such an offset whenever such a
    pair exists; and it returns nothing exactly when [proximityAnd] returns
    nothing. *)
Theorem and_step_finds_pair (md : Z) (A B : list Z) :
  StronglySorted Z.le A -> StronglySorted Z.le B ->
  Forall position A -> Forall position B ->
  (forall x, In x (and_step md A B) ->
             exists a b, In a A /\ In b B /\ Z.abs (a - b) <= md /\ x = Z.min a b) /\
  (and_step md A B <> [] <-> exists a b, In a A /\ In b B /\ Z.abs (a - b) <= md) /\
  (0 <= md -> Forall (fun x => x + md <= Int32.max_int) A ->
   (and_step md A B = [] <-> proximityAnd A B md = [])).
Proof.
  intros SA SB PA PB. rewrite and_step_merge.
  assert (Hex : merge_and md A B <> [] <->
                exists a b, In a A /\ In b B /\ Z.abs (a - b) <= md).
  { split; [| now apply merge_and_finds_pair].
    destruct (merge_and md A B) as [| x out] eqn:E; [congruence |]. intros _.
    destruct (merge_and_pairs md x A B PA PB) as (a & b & Ia & Ib & H & _);
      [rewrite E; now left |].
    now exists a, b. }
  split; [intros x; now apply merge_and_pairs |]. split; [exact Hex |].
  intros Hmd Hov.
  assert (Hprox : forall x, In x (proximityAnd A B md) <->
                             In x A /\ exists y, In y B /\ Z.abs (y - x) <= md).
  { intros x.
    now rewrite (proximityAnd_run A B md Hmd SA SB PA PB Hov), filter_In, within_spec. }
  split.
  - intros E. destruct (proximityAnd A B md) as [| x out] eqn:Ep; [reflexivity | exfalso].
    destruct (proj1 (Hprox x)) as (Ia & b & Ib & H); [now left |].
    apply (proj2 Hex); [| exact E]. exists x, b. repeat split; try assumption.
    rewrite <- Z.abs_opp. now replace (- (x - b)) with (b - x) by lia.
  - intros E. destruct (merge_and md A B) as [| x out] eqn:Em; [reflexivity | exfalso].
    destruct (proj1 Hex) as (a & b & Ia & Ib & H); [discriminate |].
    assert (I : In a (proximityAnd A B md)).
    { apply Hprox. split; [assumption |]. exists b. split; [assumption |].
      rewrite <- Z.abs_opp. now replace (- (b - a)) with (a - b) by lia. }
    rewrite E in I. destruct I.
Qed.

(** [and_step_finds_pair] at distance 5. *)
Lemma and_step_finds_pair_witness :
  (forall x, In x (and_step 5 [0; 8] [12; 30]) ->
             exists a b, In a [0; 8] /\ In b [12; 30] /\ Z.abs (a - b) <= 5 /\ x = Z.min a b) /\
  (and_step 5 [0; 8] [12; 30] <> [] <->
   exists a b, In a [0; 8] /\ In b [12; 30] /\ Z.abs (a - b) <= 5) /\
  (0 <= 5 -> Forall (fun x => x + 5 <= Int32.max_int) [0; 8] ->
   (and_step 5 [0; 8] [12; 30] = [] <-> proximityAnd [0; 8] [12; 30] 5 = [])).
Proof.
  apply (and_step_finds_pair 5 [0; 8] [12; 30]);
    [sorted_list | sorted_list | positions_list | positions_list].
Defined.

(** ** The assertions of the test suite ([testLogicalOperations]) *)

Example test_suite_logical_operations :
  andOperation [1; 3; 5; 7; 9] [2; 3; 5; 8; 10] = [3; 5] /\
  orOperation [1; 3; 5; 7; 9] [2; 3; 5; 8; 10] = [1; 2; 3; 5; 7; 8; 9; 10] /\
  notOperation [1; 3; 5; 7; 9] [2; 3; 5; 8; 10] = [1; 7; 9].
Proof. repeat split. Qed.

(** * The query parser *)

(** ** [tokenize]: the inner loops *)

Lemma skip_spaces_app sp q :
  Forall space_like sp -> skip_spaces (sp ++ q) = skip_spaces q.
Proof.
  induction 1 as [| c sp Hc _ IH]; [reflexivity |].
  cbn [app skip_spaces]. unfold space_like in Hc. now rewrite Hc.
Qed.

Lemma skip_spaces_stay c q :
  isspace (to_uchar c) = false -> skip_spaces (c :: q) = c :: q.
Proof. intros H. cbn [skip_spaces]. now rewrite H. Qed.

Lemma skip_spaces_length q : (length (skip_spaces q) <= length q)%nat.
Proof.
  induction q as [| c q IH]; [reflexivity |]. cbn [skip_spaces].
  destruct (isspace (to_uchar c)); cbn [length]; lia.
Qed.

Lemma skip_spaces_head q c q' :
  skip_spaces q = c :: q' -> isspace (to_uchar c) = false.
Proof.
  induction q as [| d q IH]; [discriminate |]. cbn [skip_spaces].
  destruct (isspace (to_uchar d)) eqn:E; [assumption |]. now intros [= <- _].
Qed.

Lemma read_operator_app op rest :
  Forall (fun c => c <> 95) op ->
  read_operator (op ++ 95 :: rest) = (op, 95 :: rest).
Proof.
  induction 1 as [| c op Hc _ IH]; [reflexivity |].
  cbn [app read_operator]. destruct (Z.eqb_spec c 95); [contradiction |]. now rewrite IH.
Qed.

Lemma read_operator_end op :
  Forall (fun c => c <> 95) op -> read_operator op = (op, []).
Proof.
  induction 1 as [| c op Hc _ IH]; [reflexivity |].
  cbn [read_operator]. destruct (Z.eqb_spec c 95); [contradiction |]. now rewrite IH.
Qed.

Lemma read_operator_spec : forall q op rest,
  read_operator q = (op, rest) ->
  q = op ++ rest /\ Forall (fun c => c <> 95) op /\
  match rest with [] => True | d :: _ => d = 95 end.
Proof.
  induction q as [| c q IH]; intros op rest; cbn [read_operator].
  - intros [= <- <-]. repeat split. constructor.
  - destruct (Z.eqb_spec c 95) as [-> | Hc].
    + intros [= <- <-]. repeat split. constructor.
    + destruct (read_operator q) as [op' rest'] eqn:E. intros [= <- <-].
      destruct (IH op' rest' eq_refl) as (-> & F & Hr). repeat split; [now constructor | assumption].
Qed.

Lemma read_word_app w rest :
  Forall (fun c => word_char c = true) w -> stops rest ->
  read_word (w ++ rest) = (w, rest).
Proof.
  intros F Hr. induction F as [| c w Hc _ IH].
  - destruct rest as [| c rest]; [reflexivity |]. cbn [app read_word]. cbn [stops] in Hr.
    now rewrite Hr.
  - cbn [app read_word]. now rewrite Hc, IH.
Qed.

Lemma read_word_spec : forall q w rest,
  read_word q = (w, rest) ->
  q = w ++ rest /\ Forall (fun c => word_char c = true) w /\ stops rest.
Proof.
  induction q as [| c q IH]; intros w rest; cbn [read_word].
  - intros [= <- <-]. repeat split. constructor.
  - destruct (word_char c) eqn:Hc.
    + destruct (read_word q) as [w' rest'] eqn:E. intros [= <- <-].
      destruct (IH w' rest' eq_refl) as (-> & F & Hr). repeat split; [now constructor | assumption].
    + intros [= <- <-]. repeat split; [constructor | exact Hc].
Qed.

(** ** [tokenize]: fuel *)

Lemma tokenize_loop_more : forall f q acc r,
  tokenize_loop f q acc = Some r -> tokenize_loop (S f) q acc = Some r.
Proof.
  induction f as [| f IH]; intros q acc r; [discriminate |].
  cbn [tokenize_loop]. destruct q as [| c0 q0]; [trivial |].
  destruct (skip_spaces (c0 :: q0)) as [| c q1]; [trivial |].
  destruct (c =? 95).
  { destruct (read_operator q1) as [op q2].
    destruct (match q2 with
              | d :: q3 => if d =? 95 then ([d], q3) else ([], q2)
              | [] => ([], q2)
              end) as [closing q3].
    apply IH. }
  destruct (c =? 40); [apply IH |].
  destruct (c =? 41); [apply IH |].
  destruct (read_word (c :: q1)) as [word q2]. apply IH.
Qed.

Lemma tokenize_loop_mono f f' q acc r :
  (f <= f')%nat -> tokenize_loop f q acc = Some r -> tokenize_loop f' q acc = Some r.
Proof.
  induction 1 as [| f' _ IH]; [trivial |]. intros H. now apply tokenize_loop_more, IH.
Qed.

(** ** [tokenize]: the shape of the result *)

Lemma operator_token_proper op closing :
  proper (operator_token op (95 :: op ++ closing)).
Proof.
  unfold operator_token.
  repeat match goal with |- context [string_eqb ?a ?b] => destruct (string_eqb a b) end;
    cbn; eauto.
Qed.

Lemma tokenize_loop_total : forall f q acc,
  (length q < f)%nat ->
  exists toks,
    tokenize_loop f q acc = Some (acc ++ toks) /\
    Forall proper toks /\ (length toks <= length q)%nat.
Proof.
  induction f as [| f IH]; intros q acc Hf; [lia |].
  cbn [tokenize_loop]. destruct q as [| c0 q0].
  { exists []. rewrite app_nil_r. repeat split; [constructor | cbn; lia]. }
  pose proof (skip_spaces_length (c0 :: q0)) as Hs.
  destruct (skip_spaces (c0 :: q0)) as [| c q1] eqn:Es.
  { exists []. rewrite app_nil_r. repeat split; [constructor | cbn; lia]. }
  pose proof (skip_spaces_head _ _ _ Es) as Hc. cbn [length] in Hs, Hf.
  assert (Hstep : forall tok q', proper tok -> (length q' <= length q1)%nat ->
            exists toks, tokenize_loop f q' (acc ++ [tok]) = Some (acc ++ toks) /\
                         Forall proper toks /\ (length toks <= S (length q0))%nat).
  { intros tok q' Htok Hq'. destruct (IH q' (acc ++ [tok])) as (toks & E & F & L); [lia |].
    exists (tok :: toks). rewrite <- app_assoc in E. repeat split;
      [exact E | now constructor | cbn [length]; lia]. }
  destruct (Z.eqb_spec c 95) as [-> | N95].
  { destruct (read_operator q1) as [op q2] eqn:Eo.
    destruct (read_operator_spec _ _ _ Eo) as (-> & _ & _).
    rewrite length_app in Hs.
    destruct q2 as [| d q3].
    - apply Hstep; [apply operator_token_proper | cbn [length]; lia].
    - destruct (d =? 95); (apply Hstep;
        [apply operator_token_proper | rewrite length_app; cbn [length]; lia]). }
  destruct (Z.eqb_spec c 40) as [-> | N40]; [apply Hstep; [reflexivity | lia] |].
  destruct (Z.eqb_spec c 41) as [-> | N41]; [apply Hstep; [reflexivity | lia] |].
  assert (Hw : word_char c = true).
  { unfold word_char. rewrite Hc.
    destruct (Z.eqb_spec c 40), (Z.eqb_spec c 41), (Z.eqb_spec c 95); try contradiction.
    reflexivity. }
  cbn [read_word]. rewrite Hw. destruct (read_word q1) as [w q2] eqn:Ew.
  destruct (read_word_spec _ _ _ Ew) as (-> & F & _).
  apply Hstep.
  - left. split; [discriminate | now constructor].
  - rewrite length_app. lia.
Qed.

Lemma tokenize_returns (query : list Z) :
  exists toks, tokenize query = Some (toks ++ [Token.mk TokenType.END []]).
Proof.
  unfold tokenize.
  destruct (tokenize_loop_total (S (length query)) query []) as (toks & E & _); [lia |].
  exists toks. now rewrite E.
Qed.

(** X17. [tokenize] returns for every query.  The token list ends with the
    one [END] token it holds; operator and parenthesis tokens carry no value;
    a word token is never empty: it is free of white space, parentheses and
    underscores, or it begins with an underscore (an operator that was not
    recognised).  There are at most as many tokens before [END] as the query
    has code units. *)
Theorem tokenize_shape (query : list Z) :
  exists toks,
    tokenize query = Some (toks ++ [Token.mk TokenType.END []]) /\
    Forall proper toks /\
    (length toks <= length query)%nat.
Proof.
  unfold tokenize.
  destruct (tokenize_loop_total (S (length query)) query []) as (toks & E & F & L); [lia |].
  exists toks. rewrite E. cbn [bind app]. now repeat split.
Qed.

(** ** [tokenize]: one token at a time *)

Lemma word_char_facts c :
  word_char c = true ->
  isspace (to_uchar c) = false /\ c <> 40 /\ c <> 41 /\ c <> 95.
Proof.
  unfold word_char. destruct (isspace (to_uchar c)); [discriminate |].
  destruct (Z.eqb_spec c 40), (Z.eqb_spec c 41), (Z.eqb_spec c 95); try discriminate.
  now repeat split.
Qed.

Lemma tokenize_loop_unfold f q acc :
  tokenize_loop (S f) q acc =
  match skip_spaces q with
  | [] => Some acc
  | c :: q1 =>
      if c =? 95 then
        let '(op, q2) := read_operator q1 in
        let '(closing, q3) :=
          match q2 with
          | d :: q3 => if d =? 95 then ([d], q3) else ([], q2)
          | [] => ([], q2)
          end in
        tokenize_loop f q3 (acc ++ [operator_token op (c :: op ++ closing)])
      else if c =? 40 then tokenize_loop f q1 (acc ++ [Token.mk TokenType.LPAREN []])
      else if c =? 41 then tokenize_loop f q1 (acc ++ [Token.mk TokenType.RPAREN []])
      else
        let '(word, q2) := read_word (c :: q1) in
        tokenize_loop f q2 (acc ++ [Token.mk TokenType.WORD word])
  end.
Proof. destruct q; reflexivity. Qed.

Lemma step_word f sp w rest acc :
  Forall space_like sp -> plain w -> stops rest ->
  tokenize_loop (S f) (sp ++ w ++ rest) acc = tokenize_loop f rest (acc ++ [Token.mk TokenType.WORD w]).
Proof.
  intros Hsp [Hne Hw] Hr. rewrite tokenize_loop_unfold, skip_spaces_app by assumption.
  destruct w as [| c w]; [contradiction |].
  destruct (word_char_facts c (Forall_inv Hw)) as (Hc & N40 & N41 & N95).
  cbn [app]. rewrite skip_spaces_stay by assumption.
  destruct (Z.eqb_spec c 95); [contradiction |].
  destruct (Z.eqb_spec c 40); [contradiction |].
  destruct (Z.eqb_spec c 41); [contradiction |].
  change (c :: w ++ rest) with ((c :: w) ++ rest). now rewrite read_word_app.
Qed.

Lemma step_operator f sp op rest acc :
  Forall space_like sp -> Forall (fun c => c <> 95) op ->
  tokenize_loop (S f) (sp ++ 95 :: op ++ 95 :: rest) acc
  = tokenize_loop f rest (acc ++ [operator_token op (95 :: op ++ [95])]).
Proof.
  intros Hsp Hop. rewrite tokenize_loop_unfold, skip_spaces_app by assumption.
  rewrite skip_spaces_stay by reflexivity. cbn [Z.eqb Pos.eqb].
  now rewrite read_operator_app.
Qed.

Lemma step_operator_end f sp op acc :
  Forall space_like sp -> Forall (fun c => c <> 95) op ->
  tokenize_loop (S f) (sp ++ 95 :: op) acc
  = tokenize_loop f [] (acc ++ [operator_token op (95 :: op ++ [])]).
Proof.
  intros Hsp Hop. rewrite tokenize_loop_unfold, skip_spaces_app by assumption.
  rewrite skip_spaces_stay by reflexivity. cbn [Z.eqb Pos.eqb].
  now rewrite read_operator_end.
Qed.

Lemma step_lparen f sp rest acc :
  Forall space_like sp ->
  tokenize_loop (S f) (sp ++ 40 :: rest) acc
  = tokenize_loop f rest (acc ++ [Token.mk TokenType.LPAREN []]).
Proof.
  intros Hsp. rewrite tokenize_loop_unfold, skip_spaces_app by assumption.
  now rewrite skip_spaces_stay by reflexivity.
Qed.

Lemma step_rparen f sp rest acc :
  Forall space_like sp ->
  tokenize_loop (S f) (sp ++ 41 :: rest) acc
  = tokenize_loop f rest (acc ++ [Token.mk TokenType.RPAREN []]).
Proof.
  intros Hsp. rewrite tokenize_loop_unfold, skip_spaces_app by assumption.
  now rewrite skip_spaces_stay by reflexivity.
Qed.

Lemma tokenize_loop_acc : forall f q acc,
  tokenize_loop f q acc = option_map (app acc) (tokenize_loop f q []).
Proof.
  induction f as [| f IH]; intros q acc; [reflexivity |].
  rewrite !tokenize_loop_unfold.
  destruct (skip_spaces q) as [| c q1]; [cbn; now rewrite app_nil_r |].
  assert (Hgo : forall q' tok,
             tokenize_loop f q' (acc ++ [tok])
             = option_map (app acc) (tokenize_loop f q' ([] ++ [tok]))).
  { intros q' tok. rewrite (IH q' (acc ++ [tok])), (IH q' ([] ++ [tok])).
    destruct (tokenize_loop f q' []) as [r |]; [| reflexivity].
    cbn [option_map app]. now rewrite <- app_assoc. }
  destruct (c =? 95).
  { destruct (read_operator q1) as [op q2].
    destruct (match q2 with
              | d :: q3 => if d =? 95 then ([d], q3) else ([], q2)
              | [] => ([], q2)
              end) as [closing q3].
    apply Hgo. }
  destruct (c =? 40); [apply Hgo |].
  destruct (c =? 41); [apply Hgo |].
  destruct (read_word (c :: q1)) as [word q2]. apply Hgo.
Qed.

(** What [tokenize_loop] returns does not depend on the fuel, once there is
    enough of it. *)
Lemma tokenize_loop_enough f q acc :
  (length q < f)%nat -> tokenize_loop f q acc = tokenize_loop (S (length q)) q acc.
Proof.
  intros Hf.
  destruct (tokenize_loop_total (S (length q)) q acc) as (toks & E & _); [lia |].
  rewrite E. apply (tokenize_loop_mono (S (length q))); [lia | assumption].
Qed.

(** ** Spelling tokens out *)

Lemma unlex_step f tok (Hc : canonical tok) rest acc :
  tokenize_loop (S f) (spell tok ++ 32 :: rest) acc = tokenize_loop f (32 :: rest) (acc ++ [tok]).
Proof.
  destruct tok as [ty v]. unfold canonical, spell in *. cbn [Token.type Token.value] in *.
  destruct ty; try contradiction; try subst v.
  - apply (step_word f [] v (32 :: rest) acc); [constructor | assumption | reflexivity].
  - apply (step_operator f [] [65; 78; 68] (32 :: rest) acc); [constructor |].
    repeat constructor; discriminate.
  - apply (step_operator f [] [79; 82] (32 :: rest) acc); [constructor |].
    repeat constructor; discriminate.
  - apply (step_operator f [] [78; 79; 84] (32 :: rest) acc); [constructor |].
    repeat constructor; discriminate.
  - apply (step_lparen f [] (32 :: rest) acc). constructor.
  - apply (step_rparen f [] (32 :: rest) acc). constructor.
Qed.

Lemma skip_one_space f rest acc :
  tokenize_loop (S f) (32 :: rest) acc = tokenize_loop (S f) rest acc.
Proof. now rewrite !tokenize_loop_unfold. Qed.

Lemma tokenize_loop_unlex : forall toks f q acc,
  Forall canonical toks ->
  tokenize_loop (length toks + S f) (unlex toks ++ q) acc
  = tokenize_loop (S f) q (acc ++ toks).
Proof.
  induction toks as [| tok toks IH]; intros f q acc F.
  { cbn. now rewrite app_nil_r. }
  pose proof (Forall_inv F) as Hc. apply Forall_inv_tail in F.
  cbn [unlex flat_map length Nat.add]. rewrite <- !app_assoc. cbn [app].
  rewrite unlex_step by assumption.
  replace (length toks + S f)%nat with (S (length toks + f)) by lia.
  rewrite skip_one_space.
  replace (S (length toks + f)) with (length toks + S f)%nat by lia.
  fold (unlex toks). rewrite IH by assumption. now rewrite <- app_assoc.
Qed.

Lemma unlex_length toks : (length toks <= length (unlex toks))%nat.
Proof.
  induction toks as [| tok toks IH]; [reflexivity |].
  cbn [unlex flat_map length]. rewrite !length_app. cbn [length]. fold (unlex toks). lia.
Qed.

Lemma tokenize_unlex_app toks q :
  Forall canonical toks ->
  tokenize (unlex toks ++ q) = option_map (app toks) (tokenize q).
Proof.
  intros F. unfold tokenize.
  rewrite <- (tokenize_loop_enough (length toks + S (length (unlex toks ++ q)))) by lia.
  rewrite tokenize_loop_unlex by assumption. rewrite length_app.
  rewrite tokenize_loop_enough by lia. rewrite tokenize_loop_acc.
  destruct (tokenize_loop (S (length q)) q []) as [r |]; [| reflexivity].
  cbn [option_map bind app]. now rewrite <- app_assoc.
Qed.

(** X18. Spelling tokens out and tokenizing is the identity: for operators,
    parentheses and plain words, [tokenize] applied to the query that spells
    them, each followed by a space, returns these tokens and [END]. *)
Theorem tokenize_unlex (toks : list Token.t) :
  Forall canonical toks ->
  tokenize (unlex toks) = Some (toks ++ [Token.mk TokenType.END []]).
Proof.
  intros F. rewrite <- (app_nil_r (unlex toks)), tokenize_unlex_app by assumption.
  reflexivity.
Qed.

(** [tokenize_unlex] on the tokens of [Romeo _AND_ ( Juliet _OR_ love )]. *)
Lemma tokenize_unlex_witness :
  tokenize
    (unlex [Token.mk TokenType.WORD [82; 111; 109; 101; 111];
            Token.mk TokenType.AND [];
            Token.mk TokenType.LPAREN [];
            Token.mk TokenType.WORD [74; 117; 108; 105; 101; 116];
            Token.mk TokenType.OR [];
            Token.mk TokenType.WORD [108; 111; 118; 101];
            Token.mk TokenType.RPAREN []])
  = Some ([Token.mk TokenType.WORD [82; 111; 109; 101; 111];
           Token.mk TokenType.AND [];
           Token.mk TokenType.LPAREN [];
           Token.mk TokenType.WORD [74; 117; 108; 105; 101; 116];
           Token.mk TokenType.OR [];
           Token.mk TokenType.WORD [108; 111; 118; 101];
           Token.mk TokenType.RPAREN []] ++ [Token.mk TokenType.END []]).
Proof.
  apply (tokenize_unlex
           [Token.mk TokenType.WORD [82; 111; 109; 101; 111];
            Token.mk TokenType.AND [];
            Token.mk TokenType.LPAREN [];
            Token.mk TokenType.WORD [74; 117; 108; 105; 101; 116];
            Token.mk TokenType.OR [];
            Token.mk TokenType.WORD [108; 111; 118; 101];
            Token.mk TokenType.RPAREN []]).
  all_of ltac:(first [reflexivity | split; [discriminate | all_of reflexivity]]).
Defined.

Lemma tokenize_word_first sp w rest :
  Forall space_like sp -> plain w -> stops rest ->
  tokenize (sp ++ w ++ rest) = option_map (cons (Token.mk TokenType.WORD w)) (tokenize rest).
Proof.
  intros Hsp Hw Hr. unfold tokenize.
  rewrite step_word by assumption.
  rewrite tokenize_loop_enough.
  2:{ rewrite !length_app. destruct Hw as [Hne _]. destruct w; [contradiction |]. cbn [length]. lia. }
  rewrite tokenize_loop_acc.
  destruct (tokenize_loop (S (length rest)) rest []) as [r |]; reflexivity.
Qed.

(** X19. [extractWords] reads a query word by word: when the query is white
    space, then a plain word, then a rest in front of which the word ends,
    the result is that word followed by the words of the rest.  White space is
    any code unit whose low eight bits are an ASCII white-space character, so
    that for [wchar_t] a character such as U+4E0A separates words. *)
Theorem extractWords_word_first (sp w rest : list Z) :
  Forall space_like sp -> plain w -> stops rest ->
  exists ws,
    extractWords rest = Some ws /\
    extractWords (sp ++ w ++ rest) = Some (w :: ws).
Proof.
  intros Hsp Hw Hr. unfold extractWords. rewrite tokenize_word_first by assumption.
  destruct (tokenize_returns rest) as (toks & E). rewrite E. cbn [option_map bind].
  eexists. split; reflexivity.
Qed.

(** [extractWords_word_first] on two words that U+4E0A separates. *)
Lemma extractWords_word_first_witness :
  exists ws,
    extractWords [19978; 99; 100] = Some ws /\
    extractWords ([32; 19978] ++ [97; 98] ++ [19978; 99; 100]) = Some ([97; 98] :: ws).
Proof.
  apply (extractWords_word_first [32; 19978] [97; 98] [19978; 99; 100]).
  - all_of reflexivity.
  - split; [discriminate | all_of reflexivity].
  - reflexivity.
Defined.

(** ** [tokenize] and letter case *)

Lemma toupper_cases c :
  (97 <= c <= 122 /\ toupper_ascii c = c - 32) \/
  ((c < 97 \/ 122 < c) /\ toupper_ascii c = c).
Proof.
  unfold toupper_ascii.
  destruct (Z.leb_spec 97 c), (Z.leb_spec c 122); cbn [andb]; [left | right ..]; split; lia.
Qed.

Lemma toupper_idem c : toupper_ascii (toupper_ascii c) = toupper_ascii c.
Proof.
  destruct (toupper_cases c) as [[H E] | [H E]]; rewrite E; [| assumption].
  destruct (toupper_cases (c - 32)) as [[H' E'] | [H' E']]; [lia | assumption].
Qed.

Lemma toupper_space c : isspace (to_uchar (toupper_ascii c)) = isspace (to_uchar c).
Proof.
  destruct (toupper_cases c) as [[H E] | [H E]]; rewrite E; [| reflexivity].
  unfold to_uchar. rewrite !Z.mod_small by lia. unfold isspace.
  destruct (Z.eqb_spec (c - 32) 32), (Z.eqb_spec c 32); lia.
Qed.

Lemma toupper_eqb c k :
  k = 95 \/ k = 40 \/ k = 41 -> (toupper_ascii c =? k) = (c =? k).
Proof.
  intros Hk. destruct (toupper_cases c) as [[H E] | [H E]]; rewrite E; [| reflexivity].
  destruct (Z.eqb_spec (c - 32) k), (Z.eqb_spec c k); try reflexivity; lia.
Qed.

Lemma toupper_word_char c : word_char (toupper_ascii c) = word_char c.
Proof.
  unfold word_char. rewrite toupper_space, !toupper_eqb by tauto. reflexivity.
Qed.

Lemma skip_spaces_upper q :
  skip_spaces (map toupper_ascii q) = map toupper_ascii (skip_spaces q).
Proof.
  induction q as [| c q IH]; [reflexivity |]. cbn [map skip_spaces].
  rewrite toupper_space. now destruct (isspace (to_uchar c)).
Qed.

Lemma read_operator_upper q :
  read_operator (map toupper_ascii q)
  = (map toupper_ascii (fst (read_operator q)), map toupper_ascii (snd (read_operator q))).
Proof.
  induction q as [| c q IH]; [reflexivity |]. cbn [map read_operator].
  rewrite toupper_eqb by tauto. destruct (c =? 95); [reflexivity |].
  rewrite IH. now destruct (read_operator q).
Qed.

Lemma read_word_upper q :
  read_word (map toupper_ascii q)
  = (map toupper_ascii (fst (read_word q)), map toupper_ascii (snd (read_word q))).
Proof.
  induction q as [| c q IH]; [reflexivity |]. cbn [map read_word].
  rewrite toupper_word_char. destruct (word_char c); [| reflexivity].
  rewrite IH. now destruct (read_word q).
Qed.

Lemma operator_token_upper op spelling :
  operator_token (map toupper_ascii op) (map toupper_ascii spelling)
  = upper_token (operator_token op spelling).
Proof.
  unfold operator_token. rewrite map_map.
  rewrite (map_ext _ toupper_ascii toupper_idem).
  repeat match goal with |- context [string_eqb ?a ?b] => destruct (string_eqb a b) end;
    reflexivity.
Qed.

Lemma tokenize_loop_upper : forall f q acc,
  tokenize_loop f (map toupper_ascii q) (map upper_token acc)
  = option_map (map upper_token) (tokenize_loop f q acc).
Proof.
  induction f as [| f IH]; intros q acc; [reflexivity |].
  rewrite !tokenize_loop_unfold, skip_spaces_upper.
  destruct (skip_spaces q) as [| c q1]; [reflexivity |]. cbn [map].
  assert (Hgo : forall q' tok,
             tokenize_loop f (map toupper_ascii q') (map upper_token acc ++ [upper_token tok])
             = option_map (map upper_token) (tokenize_loop f q' (acc ++ [tok]))).
  { intros q' tok. now rewrite <- IH, map_app. }
  rewrite !toupper_eqb by tauto.
  destruct (c =? 95) eqn:E95.
  { rewrite read_operator_upper. destruct (read_operator q1) as [op q2]. cbn [fst snd].
    destruct q2 as [| d q3]; cbn [map].
    - rewrite <- Hgo. do 2 f_equal. rewrite <- operator_token_upper. f_equal.
      cbn [map]. now rewrite map_app.
    - rewrite toupper_eqb by tauto. destruct (d =? 95); rewrite <- Hgo.
      + do 2 f_equal. rewrite <- operator_token_upper. f_equal.
        cbn [map]. now rewrite map_app.
      + cbn [map]. do 2 f_equal. rewrite <- operator_token_upper. f_equal.
        cbn [map]. now rewrite map_app. }
  destruct (c =? 40); [apply (Hgo q1 (Token.mk TokenType.LPAREN [])) |].
  destruct (c =? 41); [apply (Hgo q1 (Token.mk TokenType.RPAREN [])) |].
  change (toupper_ascii c :: map toupper_ascii q1) with (map toupper_ascii (c :: q1)).
  rewrite read_word_upper. destruct (read_word (c :: q1)) as [w q2]. cbn [fst snd].
  apply (Hgo q2 (Token.mk TokenType.WORD w)).
Qed.

(** X20. [tokenize] commutes with putting the ASCII letters of the query in
    upper case: the tokens of the upper-cased query are the tokens of the
    query, of the same types, with their values upper-cased.  In particular
    the case of the letters of an operator does not matter. *)
Theorem tokenize_upper (query : list Z) :
  tokenize (map toupper_ascii query) = option_map (map upper_token) (tokenize query).
Proof.
  unfold tokenize. rewrite length_map.
  change (@nil Token.t) with (map upper_token []) at 1.
  rewrite (tokenize_loop_upper (S (length query)) query []).
  destruct (tokenize_loop (S (length query)) query []) as [r |]; [| reflexivity].
  cbn [option_map bind]. now rewrite map_app.
Qed.

(** ** The grammar of queries *)

Lemma tokens_nonempty s : (0 < length (tokens s))%nat.
Proof.
  induction s; cbn [tokens length]; try rewrite length_app; cbn [length]; lia.
Qed.

Lemma ands_tokens s : (ands s < length (tokens s))%nat.
Proof.
  induction s; cbn [ands tokens length]; try rewrite length_app; cbn [length]; lia.
Qed.

Lemma ors_tokens s : (ors s < length (tokens s))%nat.
Proof.
  induction s; cbn [ors tokens length]; try rewrite length_app; cbn [length]; lia.
Qed.

Lemma parseAnd_loop_exit rec k left_ rest :
  no_operator TokenType.AND rest -> parseAnd_loop rec (S k) left_ rest = Some (left_, rest).
Proof.
  destruct rest as [| tok rest]; [reflexivity |]. cbn [no_operator parseAnd_loop].
  now intros ->.
Qed.

Lemma parseOr_loop_exit rec k left_ rest :
  no_operator TokenType.OR rest -> parseOr_loop rec (S k) left_ rest = Some (left_, rest).
Proof.
  destruct rest as [| tok rest]; [reflexivity |]. cbn [no_operator parseOr_loop].
  now intros ->.
Qed.

Section Grammar.
Variable rec : list Token.t -> option parsed.
Variable n : nat.
Hypothesis Hrec : forall x rest,
  grammatical x -> (length (tokens x) < n)%nat ->
  no_operator TokenType.AND rest -> no_operator TokenType.OR rest ->
  rec (tokens x ++ rest) = Some (Some (node_of x), rest).

Lemma not_ok_of_primary s : (3 <= level s)%nat -> primary_ok rec s -> not_ok rec s.
Proof.
  intros L H rest. specialize (H rest).
  destruct s; cbn [level] in L; try lia; exact H.
Qed.

Lemma and_ok_of_not s : (2 <= level s)%nat -> not_ok rec s -> and_ok rec s.
Proof.
  intros L H k rest Hk. unfold parseAnd. rewrite H. cbn [bind].
  destruct s; cbn [level] in L; try lia; cbn [ands]; now rewrite Nat.sub_0_r.
Qed.

Lemma or_ok_of_and s : (1 <= level s)%nat -> and_ok rec s -> or_ok rec s.
Proof.
  intros L H k rest Hk Hr. unfold parseOr. pose proof (ands_tokens s).
  rewrite H by lia.
  replace (k - ands s)%nat with (S (k - ands s - 1)) by lia.
  rewrite parseAnd_loop_exit by assumption. cbn [bind].
  destruct s; cbn [level] in L; try lia; cbn [ors]; now rewrite Nat.sub_0_r.
Qed.

Lemma grammar_ok : forall s,
  grammatical s -> (length (tokens s) <= n)%nat ->
  ((3 <= level s)%nat -> primary_ok rec s) /\
  ((2 <= level s)%nat -> not_ok rec s) /\
  ((1 <= level s)%nat -> and_ok rec s) /\
  or_ok rec s.
Proof.
  induction s as [w | x IH | l IHl r IHr | l IHl r IHr | x IH]; intros G Hn;
    cbn [grammatical tokens length] in G, Hn; try rewrite length_app in Hn;
    cbn [length] in Hn.
  - (* word *)
    assert (P : primary_ok rec (SWord w)) by (intros rest; reflexivity).
    assert (N : not_ok rec (SWord w)) by (apply not_ok_of_primary; [cbn; lia | exact P]).
    assert (A : and_ok rec (SWord w)) by (apply and_ok_of_not; [cbn; lia | exact N]).
    assert (O : or_ok rec (SWord w)) by (apply or_ok_of_and; [cbn; lia | exact A]).
    by_level.
  - (* not *)
    destruct G as [Lx Gx]. destruct (IH Gx ltac:(lia)) as (Px & _).
    assert (N : not_ok rec (SNot x)).
    { intros rest. cbn [tokens app parseNot is_type Token.type]. rewrite (Px Lx). reflexivity. }
    assert (A : and_ok rec (SNot x)) by (apply and_ok_of_not; [cbn; lia | exact N]).
    assert (O : or_ok rec (SNot x)) by (apply or_ok_of_and; [cbn; lia | exact A]).
    by_level.
  - (* and *)
    destruct G as (Ll & Lr & Gl & Gr).
    destruct (IHl Gl ltac:(lia)) as (_ & _ & Al & _).
    destruct (IHr Gr ltac:(lia)) as (_ & Nr & _).
    assert (A : and_ok rec (SAnd l r)).
    { intros k rest Hk. cbn [tokens ands] in *. rewrite <- app_assoc. cbn [app].
      rewrite (Al Ll) by lia.
      replace (k - ands l)%nat with (S (k - S (ands l))) by lia.
      cbn [parseAnd_loop is_type Token.type]. rewrite (Nr Lr). reflexivity. }
    assert (O : or_ok rec (SAnd l r)) by (apply or_ok_of_and; [cbn; lia | exact A]).
    by_level.
  - (* or *)
    destruct G as (Lr & Gl & Gr).
    destruct (IHl Gl ltac:(lia)) as (_ & _ & _ & Ol).
    destruct (IHr Gr ltac:(lia)) as (_ & _ & Ar & _).
    assert (O : or_ok rec (SOr l r)); [| by_level].
    intros k rest Hk Hr. cbn [tokens ors length] in *. rewrite length_app in Hk.
    cbn [length] in Hk. rewrite <- app_assoc. cbn [app].
    pose proof (ors_tokens l). pose proof (ands_tokens r).
    rewrite Ol by first [lia | reflexivity].
    replace (k - ors l)%nat with (S (k - S (ors l))) by lia.
    cbn [parseOr_loop is_type Token.type]. rewrite (Ar Lr) by lia.
    replace (k - S (ors l) - ands r)%nat with (S (k - S (ors l) - ands r - 1)) by lia.
    rewrite parseAnd_loop_exit by assumption. reflexivity.
  - (* parentheses *)
    assert (P : primary_ok rec (SParen x)).
    { intros rest. cbn [tokens app parsePrimary is_type Token.type].
      rewrite <- app_assoc. cbn [app]. rewrite Hrec; [reflexivity | assumption | lia | ..];
        reflexivity. }
    assert (N : not_ok rec (SParen x)) by (apply not_ok_of_primary; [cbn; lia | exact P]).
    assert (A : and_ok rec (SParen x)) by (apply and_ok_of_not; [cbn; lia | exact N]).
    assert (O : or_ok rec (SParen x)) by (apply or_ok_of_and; [cbn; lia | exact A]).
    by_level.
Qed.

End Grammar.

Lemma parseExpression_grammar : forall F s rest,
  grammatical s -> (length (tokens s) < F)%nat ->
  no_operator TokenType.AND rest -> no_operator TokenType.OR rest ->
  parseExpression (S F) (tokens s ++ rest) = Some (Some (node_of s), rest).
Proof.
  induction F as [| F IH]; intros s rest G HF Ha Ho; [lia |].
  change (parseExpression (S (S F)) (tokens s ++ rest))
    with (parseOr (parseExpression (S F)) (S F) (tokens s ++ rest)).
  destruct (grammar_ok (parseExpression (S F)) F IH s G ltac:(lia)) as (_ & _ & _ & O).
  rewrite O by (assumption || lia). pose proof (ors_tokens s).
  replace (S F - ors s)%nat with (S (S F - ors s - 1)) by lia.
  now apply parseOr_loop_exit.
Qed.

(** ** The parser always returns *)

Section Total.
Variable rec : list Token.t -> option parsed.
Variable n : nat.
Hypothesis Hrec : forall ts, (length ts < n)%nat -> returns_shorter (rec ts) ts.

Lemma parsePrimary_total ts :
  (length ts <= n)%nat -> returns_shorter (parsePrimary rec ts) ts.
Proof.
  intros Hn. unfold parsePrimary. destruct ts as [| tok ts]; [now exists None, [] |].
  cbn [length] in Hn. destruct (is_type TokenType.LPAREN tok).
  - destruct (Hrec ts) as (r & ts1 & E & L); [lia |]. rewrite E. cbn [bind].
    destruct ts1 as [| tok1 ts2]; [exists r, []; split; [reflexivity | cbn; lia] |].
    cbn [length] in L.
    destruct (is_type TokenType.RPAREN tok1);
      eexists _, _; (split; [reflexivity | cbn [length]; lia]).
  - destruct (is_type TokenType.WORD tok);
      eexists _, _; (split; [reflexivity | cbn [length]; lia]).
Qed.

Lemma parseNot_total ts :
  (length ts <= n)%nat -> returns_shorter (parseNot rec ts) ts.
Proof.
  intros Hn. unfold parseNot. destruct ts as [| tok ts]; [now apply parsePrimary_total |].
  destruct (is_type TokenType.NOT tok); [| now apply parsePrimary_total].
  cbn [length] in Hn. destruct (parsePrimary_total ts) as (r & ts1 & E & L); [lia |].
  rewrite E. cbn [bind]. eexists _, _. split; [reflexivity | cbn [length]; lia].
Qed.

Lemma parseAnd_loop_total : forall k left_ ts,
  (length ts <= n)%nat -> (length ts < k)%nat ->
  returns_shorter (parseAnd_loop rec k left_ ts) ts.
Proof.
  induction k as [| k IH]; intros left_ ts Hn Hk; [lia |].
  cbn [parseAnd_loop]. destruct ts as [| tok ts]; [now exists left_, [] |].
  cbn [length] in Hn, Hk.
  destruct (is_type TokenType.AND tok); [| now exists left_, (tok :: ts)].
  destruct (parseNot_total ts) as (r & ts1 & E & L); [lia |]. rewrite E. cbn [bind].
  destruct (IH (Some (ASTNode.mk NodeType.AND [] left_ r)) ts1) as (r' & ts' & E' & L');
    [lia | lia |].
  exists r', ts'. split; [assumption | cbn [length]; lia].
Qed.

Lemma parseAnd_total k ts :
  (length ts <= n)%nat -> (length ts < k)%nat -> returns_shorter (parseAnd rec k ts) ts.
Proof.
  intros Hn Hk. unfold parseAnd.
  destruct (parseNot_total ts Hn) as (r & ts1 & E & L). rewrite E. cbn [bind].
  destruct (parseAnd_loop_total k r ts1) as (r' & ts' & E' & L'); [lia | lia |].
  exists r', ts'. split; [assumption | lia].
Qed.

Lemma parseOr_loop_total : forall k left_ ts,
  (length ts <= n)%nat -> (length ts < k)%nat ->
  returns_shorter (parseOr_loop rec k left_ ts) ts.
Proof.
  induction k as [| k IH]; intros left_ ts Hn Hk; [lia |].
  cbn [parseOr_loop]. destruct ts as [| tok ts]; [now exists left_, [] |].
  cbn [length] in Hn, Hk.
  destruct (is_type TokenType.OR tok); [| now exists left_, (tok :: ts)].
  destruct (parseAnd_total k ts) as (r & ts1 & E & L); [lia | lia |]. rewrite E. cbn [bind].
  destruct (IH (Some (ASTNode.mk NodeType.OR [] left_ r)) ts1) as (r' & ts' & E' & L');
    [lia | lia |].
  exists r', ts'. split; [assumption | cbn [length]; lia].
Qed.

Lemma parseOr_total k ts :
  (length ts <= n)%nat -> (length ts < k)%nat -> returns_shorter (parseOr rec k ts) ts.
Proof.
  intros Hn Hk. unfold parseOr.
  destruct (parseAnd_total k ts Hn Hk) as (r & ts1 & E & L). rewrite E. cbn [bind].
  destruct (parseOr_loop_total k r ts1) as (r' & ts' & E' & L'); [lia | lia |].
  exists r', ts'. split; [assumption | lia].
Qed.

End Total.

Lemma parseExpression_total : forall F ts,
  (length ts < F)%nat -> returns_shorter (parseExpression (S F) ts) ts.
Proof.
  induction F as [| F IH]; intros ts HF; [lia |].
  change (parseExpression (S (S F)) ts) with (parseOr (parseExpression (S F)) (S F) ts).
  apply (parseOr_total (parseExpression (S F)) F IH); lia.
Qed.

Lemma grammatical_canonical s : grammatical s -> Forall canonical (tokens s).
Proof.
  induction s as [w | x IH | l IHl r IHr | l IHl r IHr | x IH]; cbn [grammatical tokens].
  - intros P. constructor; [exact P | constructor].
  - intros [_ G]. constructor; [reflexivity | auto].
  - intros (_ & _ & Gl & Gr). apply Forall_app. split; [auto |].
    constructor; [reflexivity | auto].
  - intros (_ & Gl & Gr). apply Forall_app. split; [auto |].
    constructor; [reflexivity | auto].
  - intros G. constructor; [reflexivity |]. apply Forall_app. split; [auto |].
    constructor; [reflexivity | constructor].
Qed.

Lemma parse_tokens_grammar s rest query :
  grammatical s ->
  tokenize query = Some (tokens s ++ rest) ->
  no_operator TokenType.AND rest -> no_operator TokenType.OR rest ->
  parse query = Some (Some (node_of s)).
Proof.
  intros G E Ha Ho. unfold parse. rewrite E. cbn [bind].
  rewrite parseExpression_grammar; try assumption; [reflexivity |].
  rewrite length_app. lia.
Qed.

(** X21. [parse] implements the grammar [syntax]: for a grammatical
    expression, spelled out token by token, it returns the tree of the
    expression.  So NOT binds tighter than AND, AND tighter than OR, AND and
    OR associate to the left, and parentheses leave no node. *)
Theorem parse_grammar (s : syntax) :
  grammatical s -> parse (unlex (tokens s)) = Some (Some (node_of s)).
Proof.
  intros G. apply (parse_tokens_grammar s [Token.mk TokenType.END []]); try assumption;
    [| reflexivity | reflexivity].
  rewrite <- (app_nil_r (unlex (tokens s))), tokenize_unlex_app; [reflexivity |].
  now apply grammatical_canonical.
Qed.

(** [parse_grammar] on [a _OR_ b _AND_ _NOT_ ( c _OR_ d )]. *)
Lemma parse_grammar_witness :
  parse (unlex (tokens (SOr (SWord [97])
                            (SAnd (SWord [98])
                                  (SNot (SParen (SOr (SWord [99]) (SWord [100]))))))))
  = Some (Some (node_of (SOr (SWord [97])
                             (SAnd (SWord [98])
                                   (SNot (SParen (SOr (SWord [99]) (SWord [100])))))))).
Proof.
  apply (parse_grammar (SOr (SWord [97])
                            (SAnd (SWord [98])
                                  (SNot (SParen (SOr (SWord [99]) (SWord [100]))))))).
  cbn [grammatical level]. unfold plain.
  repeat split; try lia; try discriminate; all_of reflexivity.
Defined.

Lemma tokenize_lparen q :
  tokenize (40 :: q) = option_map (cons (Token.mk TokenType.LPAREN [])) (tokenize q).
Proof.
  unfold tokenize. cbn [length]. rewrite (step_lparen _ [] q []) by constructor.
  rewrite tokenize_loop_acc.
  destruct (tokenize_loop (S (length q)) q []) as [r |]; reflexivity.
Qed.

(** X22. [parse] reports no error.  It returns for every query.  After a
    grammatical expression it stops at the first token that is neither AND
    nor OR and ignores the rest of the query; a parenthesis that is never
    closed is accepted; and an AND with nothing after it gives an AND node
    whose right child is [nullptr]. *)
Theorem parse_lenient (s : syntax) :
  grammatical s ->
  (forall query, exists ast, parse query = Some ast) /\
  (forall rest toks,
     tokenize rest = Some toks ->
     no_operator TokenType.AND toks -> no_operator TokenType.OR toks ->
     parse (unlex (tokens s) ++ rest) = Some (Some (node_of s))) /\
  parse (40 :: unlex (tokens s)) = Some (Some (node_of s)) /\
  ((1 <= level s)%nat ->
   parse (unlex (tokens s) ++ [95; 65; 78; 68; 95])
   = Some (Some (ASTNode.mk NodeType.AND [] (Some (node_of s)) None))).
Proof.
  intros G. pose proof (grammatical_canonical s G) as C. repeat split.
  - intros query. unfold parse.
    destruct (tokenize_returns query) as (toks & E). rewrite E. cbn [bind].
    destruct (parseExpression_total (S (length (toks ++ [Token.mk TokenType.END []])))
                (toks ++ [Token.mk TokenType.END []])) as (r & ts' & E' & _); [lia |].
    rewrite E'. cbn [bind]. now exists r.
  - intros rest toks E Ha Ho. apply (parse_tokens_grammar s toks); try assumption.
    rewrite tokenize_unlex_app by assumption. now rewrite E.
  - unfold parse. rewrite tokenize_lparen.
    rewrite <- (app_nil_r (unlex (tokens s))), tokenize_unlex_app by assumption.
    change (tokenize []) with (Some [Token.mk TokenType.END []]).
    cbn [option_map bind].
    set (ts := tokens s ++ [Token.mk TokenType.END []]).
    change (parseExpression (S (S (length (Token.mk TokenType.LPAREN [] :: ts))))
              (Token.mk TokenType.LPAREN [] :: ts))
      with (parseOr (parseExpression (S (S (length ts)))) (S (S (length ts)))
              (Token.mk TokenType.LPAREN [] :: ts)).
    unfold parseOr, parseAnd, parseNot, parsePrimary. cbn [is_type Token.type].
    subst ts.
    rewrite (parseExpression_grammar _ s [Token.mk TokenType.END []]);
      try assumption; try reflexivity.
    rewrite length_app. lia.
  - intros L. unfold parse.
    rewrite tokenize_unlex_app by assumption.
    assert (E : tokenize [95; 65; 78; 68; 95]
                = Some [Token.mk TokenType.AND []; Token.mk TokenType.END []]) by reflexivity.
    rewrite E. cbn [option_map bind].
    set (rest := [Token.mk TokenType.AND []; Token.mk TokenType.END []]).
    set (F := S (length (tokens s ++ rest))).
    change (parseExpression (S F) (tokens s ++ rest))
      with (parseOr (parseExpression F) F (tokens s ++ rest)).
    destruct (grammar_ok (parseExpression F) (length (tokens s ++ rest))) with (s := s)
      as (_ & _ & A & _); try assumption.
    { intros x rest' Gx Hx. apply parseExpression_grammar; assumption. }
    { rewrite length_app. lia. }
    unfold parseOr. pose proof (ands_tokens s) as Hands.
    assert (HF : F = S (S (S (length (tokens s))))).
    { unfold F, rest. rewrite length_app. cbn [length]. lia. }
    rewrite (A L) by lia.
    replace (F - ands s)%nat with (S (S (F - ands s - 2))) by lia.
    unfold rest. cbn [parseAnd_loop parseNot parsePrimary is_type Token.type bind].
    replace F with (S (F - 1)) at 1 by lia. reflexivity.
Qed.

(** [parse_lenient] on [a _AND_ b]. *)
Lemma parse_lenient_witness :
  (forall query, exists ast, parse query = Some ast) /\
  (forall rest toks,
     tokenize rest = Some toks ->
     no_operator TokenType.AND toks -> no_operator TokenType.OR toks ->
     parse (unlex (tokens (SAnd (SWord [97]) (SWord [98]))) ++ rest)
     = Some (Some (node_of (SAnd (SWord [97]) (SWord [98]))))) /\
  parse (40 :: unlex (tokens (SAnd (SWord [97]) (SWord [98]))))
  = Some (Some (node_of (SAnd (SWord [97]) (SWord [98])))) /\
  ((1 <= level (SAnd (SWord [97%Z]) (SWord [98%Z])))%nat ->
   parse (unlex (tokens (SAnd (SWord [97]) (SWord [98]))) ++ [95; 65; 78; 68; 95])
   = Some (Some (ASTNode.mk NodeType.AND []
                   (Some (node_of (SAnd (SWord [97]) (SWord [98])))) None))).
Proof.
  apply (parse_lenient (SAnd (SWord [97]) (SWord [98]))).
  cbn [grammatical level]. unfold plain.
  repeat split; try lia; try discriminate; all_of reflexivity.
Defined.

(** ** [startsWithIgnoreCase] *)

Lemma startsWith_loop_spec : forall prefix str,
  startsWith_loop str prefix = true <->
  (length prefix <= length str)%nat /\
  map toupper_ascii (firstn (length prefix) str) = map toupper_ascii prefix.
Proof.
  induction prefix as [| c2 prefix IH]; intros str; cbn [startsWith_loop length].
  - cbn [firstn map]. split; [intros _; split; [lia | reflexivity] | reflexivity].
  - destruct str as [| c1 str]; cbn [length firstn map].
    + split; [discriminate | intros [H _]; lia].
    + destruct (Z.eqb_spec (toupper_ascii c1) (toupper_ascii c2)) as [E | N].
      * rewrite IH, E. split.
        -- intros [L H]. split; [lia | now f_equal].
        -- intros [L H]. split; [lia | now injection H].
      * split; [discriminate | intros [_ H]; now injection H].
Qed.

Lemma startsWith_loop_upper_l : forall prefix str,
  startsWith_loop (map toupper_ascii str) prefix = startsWith_loop str prefix.
Proof.
  induction prefix as [| c2 prefix IH]; intros str; [reflexivity |].
  destruct str as [| c1 str]; [reflexivity |]. cbn [map startsWith_loop].
  now rewrite toupper_idem, IH.
Qed.

Lemma startsWith_loop_upper_r : forall prefix str,
  startsWith_loop str (map toupper_ascii prefix) = startsWith_loop str prefix.
Proof.
  induction prefix as [| c2 prefix IH]; intros str; [reflexivity |].
  destruct str as [| c1 str]; [reflexivity |]. cbn [map startsWith_loop].
  now rewrite toupper_idem, IH.
Qed.

(** X23. [startsWithIgnoreCase(str, prefix)] holds exactly when [prefix] is not
    longer than [str] and equals the beginning of [str] once the ASCII
    letters of both are put in upper case; so the case of either argument
    does not matter, and every string starts with itself. *)
Theorem startsWithIgnoreCase_spec (str prefix : list Z) :
  (startsWithIgnoreCase str prefix = true <->
   (length prefix <= length str)%nat /\
   map toupper_ascii (firstn (length prefix) str) = map toupper_ascii prefix) /\
  startsWithIgnoreCase (map toupper_ascii str) prefix = startsWithIgnoreCase str prefix /\
  startsWithIgnoreCase str (map toupper_ascii prefix) = startsWithIgnoreCase str prefix /\
  (forall rest, startsWithIgnoreCase (prefix ++ rest) prefix = true).
Proof.
  assert (H : startsWithIgnoreCase str prefix = true <->
              (length prefix <= length str)%nat /\
              map toupper_ascii (firstn (length prefix) str) = map toupper_ascii prefix).
  { unfold startsWithIgnoreCase. destruct (Nat.ltb_spec (length str) (length prefix)).
    - split; [discriminate | intros [L _]; lia].
    - apply startsWith_loop_spec. }
  split; [exact H |]. unfold startsWithIgnoreCase. rewrite !length_map.
  split; [| split].
  - destruct (length str <? length prefix)%nat; [reflexivity | apply startsWith_loop_upper_l].
  - destruct (length str <? length prefix)%nat; [reflexivity | apply startsWith_loop_upper_r].
  - intros rest. rewrite length_app.
    destruct (Nat.ltb_spec (length prefix + length rest) (length prefix)); [lia |].
    apply startsWith_loop_spec. rewrite length_app. split; [lia |].
    now rewrite firstn_app, Nat.sub_diag, firstn_all, firstn_O, app_nil_r.
Qed.

(** ** The assertions of the test suite ([testQueryParser]) *)

Example test_suite_query_parser :
  extractWords [82; 111; 109; 101; 111] = Some [[82; 111; 109; 101; 111]] /\
  extractWords ([82; 111; 109; 101; 111] ++ [32; 95; 65; 78; 68; 95; 32]
                ++ [74; 117; 108; 105; 101; 116])
  = Some [[82; 111; 109; 101; 111]; [74; 117; 108; 105; 101; 116]] /\
  extractWords ([108; 111; 118; 101] ++ [32; 95; 79; 82; 95; 32] ++ [104; 97; 116; 101])
  = Some [[108; 111; 118; 101]; [104; 97; 116; 101]] /\
  extractWords ([82; 111; 109; 101; 111] ++ [32; 95; 65; 78; 68; 95; 32]
                ++ [74; 117; 108; 105; 101; 116] ++ [32; 95; 79; 82; 95; 32]
                ++ [108; 111; 118; 101])
  = Some [[82; 111; 109; 101; 111]; [74; 117; 108; 105; 101; 116]; [108; 111; 118; 101]].
Proof. repeat split. Qed.

(** * The SA-IS variant of the constructor *)

(** ** Suffix types *)

Lemma for_down_inv {St} (Inv : Z -> St -> Prop) (body : Z -> St -> option St) count :
  forall hi s,
    Inv hi s ->
    (forall i s, hi - Z.of_nat count < i <= hi -> Inv i s ->
                 exists s', body i s = Some s' /\ Inv (i - 1) s') ->
    exists s', for_down count hi body s = Some s' /\ Inv (hi - Z.of_nat count) s'.
Proof.
  induction count as [| c IH]; intros hi s H0 Hstep; cbn [for_down].
  - exists s. split; auto. now replace (hi - Z.of_nat 0) with hi by lia.
  - destruct (Hstep hi s ltac:(lia) H0) as (s1 & -> & H1). cbn [bind].
    destruct (IH (hi - 1) s1 H1) as (s2 & E & H2).
    + intros i s' Hi. apply Hstep. lia.
    + exists s2. split; auto.
      now replace (hi - Z.of_nat (S c)) with (hi - 1 - Z.of_nat c) by lia.
Qed.

Lemma l_type_cons x y u :
  l_type (x :: y :: u) = if x <? y then false else if y <? x then true else l_type (y :: u).
Proof. reflexivity. Qed.

(** An L-type suffix is larger than the next suffix; an S-type suffix is
    smaller, unless it repeats one code unit to the end of the text. *)
Lemma l_type_order : forall u,
  l_type u = true <->
  lex_ltb (tl u) u = true /\ ~ Forall (fun c => c = hd 0 u) u.
Proof.
  induction u as [| x u IH]; [cbn; split; [discriminate | intros [H _]; discriminate] |].
  destruct u as [| y u].
  { cbn [l_type tl hd]. split; [discriminate |]. intros [_ H]. exfalso. apply H.
    now repeat constructor. }
  rewrite l_type_cons. cbn [tl hd] in *. cbn [lex_ltb].
  destruct (Z.ltb_spec x y); [| destruct (Z.ltb_spec y x)].
  - destruct (Z.ltb_spec y x); [lia |]. split; [discriminate | intros [H' _]; discriminate].
  - split; [| reflexivity]. intros _. split; [reflexivity |].
    intros F. apply Forall_inv_tail, Forall_inv in F. lia.
  - destruct (Z.ltb_spec y x); [lia |]. assert (x = y) as <- by lia.
    etransitivity; [exact IH |]. split.
    + intros [H' N]. split; [assumption |]. intros F. apply N. now apply Forall_inv_tail in F.
    + intros [H' N]. split; [assumption |]. intros F. apply N. now constructor.
Qed.

Lemma nth_list_set_bool (l : list bool) i j x :
  nth j (list_set l i x) false = if Nat.eqb i j then (if Nat.ltb i (length l) then x else false)
                                 else nth j l false.
Proof.
  revert i j; induction l as [| h t IH]; intros i j.
  - cbn [list_set length]. destruct (Nat.eqb i j), j; reflexivity.
  - destruct i as [| i], j as [| j]; cbn [list_set nth length]; try reflexivity.
    rewrite IH. reflexivity.
Qed.

Lemma computeTypes_l_type (s : list Z) :
  1 <= len s <= Int32.max_int ->
  exists types,
    computeTypes s (len s) = Some types /\
    length types = length s /\
    forall j, 0 <= j < len s -> nth (Z.to_nat j) types false = l_type (suffix s j).
Proof.
  intros Hn. set (n := len s) in *. unfold computeTypes.
  destruct (Z.ltb_spec n 0); [lia |].
  assert (Es : Int32.sub n 1 = n - 1)
    by (apply sub_small; rewrite max_int_val, min_int_val in *; lia).
  rewrite Es.
  assert (Hlen0 : len (repeat false (Z.to_nat n)) = n)
    by (unfold len; rewrite repeat_length; lia).
  rewrite vset_in_range by lia. cbn [bind].
  set (types0 := list_set (repeat false (Z.to_nat n)) (Z.to_nat (n - 1)) false).
  pose (Inv := fun (i : Z) (types : list bool) =>
                 len types = n /\
                 forall j, i < j < n -> nth (Z.to_nat j) types false = l_type (suffix s j)).
  unfold for_range_down.
  destruct (for_down_inv Inv
              (fun i types =>
                 x <- vget s i ;;
                 y <- vget s (Int32.add i 1) ;;
                 if x <? y then vset types i false
                 else if y <? x then vset types i true
                 else t <- vget types (Int32.add i 1) ;; vset types i t)
              (Z.to_nat (n - 1 - 0)) (n - 1 - 1) types0) as (types & E & HI & HT).
  - split; [unfold types0, len; rewrite length_list_set; exact Hlen0 |].
    intros j Hj. assert (j = n - 1) as -> by lia.
    unfold types0. rewrite nth_list_set_bool, Nat.eqb_refl.
    rewrite suffix_cons by (fold n; lia). rewrite (suffix_end s (n - 1 + 1)) by (fold n; lia).
    now destruct (_ <? _)%nat.
  - intros i types Hi [HL HJ].
    assert (Ea : Int32.add i 1 = i + 1)
      by (apply add_small; rewrite max_int_val, min_int_val in *; lia).
    rewrite Ea.
    rewrite (vget_in_range s i 0) by (fold n; lia).
    rewrite (vget_in_range s (i + 1) 0) by (fold n; lia). cbn [bind].
    rewrite (vget_in_range types (i + 1) false) by lia. cbn [bind].
    assert (Hs : l_type (suffix s i)
                 = if nth (Z.to_nat i) s 0 <? nth (Z.to_nat (i + 1)) s 0 then false
                   else if nth (Z.to_nat (i + 1)) s 0 <? nth (Z.to_nat i) s 0 then true
                   else l_type (suffix s (i + 1))).
    { rewrite (suffix_cons s i) by (fold n; lia).
      rewrite (suffix_cons s (i + 1)) by (fold n; lia). apply l_type_cons. }
    assert (Hgo : forall t,
               l_type (suffix s i) = t ->
               exists s', vset types i t = Some s' /\ Inv (i - 1) s').
    { intros t Ht. rewrite vset_in_range by lia. eexists. split; [reflexivity |].
      split; [unfold len in *; now rewrite length_list_set |].
      intros j Hj. rewrite nth_list_set_bool.
      destruct (Nat.eqb_spec (Z.to_nat i) (Z.to_nat j)) as [Eij | Nij].
      - assert (j = i) as -> by lia.
        destruct (Nat.ltb_spec (Z.to_nat i) (length types)); [congruence | unfold len in *; lia].
      - apply HJ. lia. }
    destruct (_ <? _); [now apply Hgo |].
    destruct (_ <? _); [now apply Hgo |].
    apply Hgo. rewrite Hs. symmetry. apply HJ. lia.
  - exists types. split; [exact E |]. split; [unfold n, len in *; lia |].
    intros j Hj. apply HT. lia.
Qed.

(** X24. [computeTypes] returns for a text of 1 to [INT_MAX] code units, and
    it marks position [i] as L-type ([true]) exactly when the suffix at
    [i + 1] is smaller than the suffix at [i] and the text does not repeat one
    code unit from [i] to its end.  So an S-type suffix is smaller than the
    next suffix, except in a final run of one code unit, where it is
    larger. *)
Theorem computeTypes_suffix_order (s : list Z) :
  1 <= len s <= Int32.max_int ->
  exists types,
    computeTypes s (len s) = Some types /\
    length types = length s /\
    forall i, 0 <= i < len s ->
      (nth (Z.to_nat i) types false = true <->
       lex_lt (suffix s (i + 1)) (suffix s i) /\
       ~ Forall (fun c => c = at_ s i) (suffix s i)).
Proof.
  intros Hn. destruct (computeTypes_l_type s Hn) as (types & E & L & H).
  exists types. split; [exact E |]. split; [exact L |].
  intros i Hi. rewrite (H i Hi), l_type_order. unfold lex_lt.
  now rewrite (suffix_cons s i Hi).
Qed.

(** [computeTypes_suffix_order] on "banana". *)
Lemma computeTypes_suffix_order_witness :
  exists types,
    computeTypes banana (len banana) = Some types /\
    length types = length banana /\
    forall i, 0 <= i < len banana ->
      (nth (Z.to_nat i) types false = true <->
       lex_lt (suffix banana (i + 1)) (suffix banana i) /\
       ~ Forall (fun c => c = at_ banana i) (suffix banana i)).
Proof.
  apply (computeTypes_suffix_order banana).
  unfold len. cbn [banana length]. rewrite max_int_val. lia.
Defined.

(** ** A text in ascending order *)

Lemma for_up_idle {St} (body : Z -> St -> option St) (s : St) count :
  forall lo,
    (forall i, lo <= i < lo + Z.of_nat count -> body i s = Some s) ->
    for_up count lo body s = Some s.
Proof.
  induction count as [| c IH]; intros lo H; [reflexivity |].
  cbn [for_up]. rewrite H by lia. cbn [bind]. apply IH. intros i Hi. apply H. lia.
Qed.

Lemma for_down_idle {St} (body : Z -> St -> option St) (s : St) count :
  forall hi,
    (forall i, hi - Z.of_nat count < i <= hi -> body i s = Some s) ->
    for_down count hi body s = Some s.
Proof.
  induction count as [| c IH]; intros hi H; [reflexivity |].
  cbn [for_down]. rewrite H by lia. cbn [bind]. apply IH. intros i Hi. apply H. lia.
Qed.

Lemma l_type_ascending u : StronglySorted Z.le u -> l_type u = false.
Proof.
  induction 1 as [| x u S IH F]; [reflexivity |].
  destruct u as [| y u]; [reflexivity |]. rewrite l_type_cons.
  apply Forall_inv in F. destruct (Z.ltb_spec x y); [reflexivity |].
  destruct (Z.ltb_spec y x); [lia | exact IH].
Qed.

Lemma skipn_sorted (u : list Z) k : StronglySorted Z.le u -> StronglySorted Z.le (skipn k u).
Proof.
  revert u. induction k as [| k IH]; intros u S; [exact S |].
  destruct u as [| x u]; [exact S |]. cbn [skipn]. apply IH.
  now apply StronglySorted_inv in S.
Qed.

Lemma all_false (types : list bool) n :
  length types = n -> (forall j, (j < n)%nat -> nth j types false = false) ->
  types = repeat false n.
Proof.
  revert n. induction types as [| t types IH]; intros n L H; cbn [length] in L; subst n.
  - reflexivity.
  - cbn [repeat]. f_equal; [exact (H 0%nat ltac:(lia)) |].
    apply IH; [reflexivity |]. intros j Hj. apply (H (S j)). lia.
Qed.

Lemma computeTypes_ascending (s : list Z) :
  1 <= len s <= Int32.max_int -> StronglySorted Z.le s ->
  computeTypes s (len s) = Some (repeat false (length s)).
Proof.
  intros Hn S. destruct (computeTypes_l_type s Hn) as (types & E & L & H).
  rewrite E. f_equal. apply all_false; [exact L |].
  intros j Hj. specialize (H (Z.of_nat j)). rewrite Nat2Z.id in H.
  rewrite H by (unfold len; lia). apply l_type_ascending. now apply skipn_sorted.
Qed.

Lemma max_char_bounds (text : list Z) (top : Z) :
  Forall (fun c => 0 <= c < top) text -> 0 < top ->
  forall m0, 0 <= m0 < top ->
    let m := fold_left (fun max_char c => if max_char <? c then c else max_char) text m0 in
    m0 <= m < top /\ Forall (fun c => c <= m) text.
Proof.
  intros F Ht. induction F as [| c text Hc F IH]; intros m0 Hm0; cbn [fold_left].
  - split; [lia | constructor].
  - destruct (Z.ltb_spec m0 c).
    + destruct (IH c Hc) as [H1 H2]. split; [lia |]. constructor; [lia | exact H2].
    + destruct (IH m0 Hm0) as [H1 H2]. split; [lia |]. constructor; [lia | exact H2].
Qed.

Lemma bucket_bounds_returns (s : list Z) (A : Z) :
  0 <= A -> Forall (fun c => 0 <= c < A) s ->
  exists starts ends, bucket_bounds s (len s) A = Some (starts, ends).
Proof.
  intros HA F. unfold bucket_bounds.
  destruct (Z.ltb_spec A 0); [lia |].
  set (zeros := repeat 0 (Z.to_nat A)).
  assert (Hz : len zeros = A) by (unfold zeros, len; rewrite repeat_length; lia).
  match goal with
  | |- context [for_range 0 (len s) ?body zeros] =>
      destruct (for_range_inv (fun (_ : Z) (b : list Z) => len b = A) body 0 (len s) zeros)
        as (buckets & -> & Hb)
  end.
  - apply len_nonneg.
  - exact Hz.
  - intros i b Hi Hlen. rewrite (vget_in_range s i 0) by lia. cbn [bind].
    assert (Hc : 0 <= nth (Z.to_nat i) s 0 < A).
    { rewrite Forall_forall in F. apply F. apply nth_In. unfold len in Hi. lia. }
    rewrite (vget_in_range b _ 0) by lia. cbn [bind].
    rewrite vset_in_range by lia. eexists. split; [reflexivity |]. now rewrite len_set.
  - cbn [bind].
    match goal with
    | |- context [for_range 0 A ?body (zeros, zeros, 0)] =>
        destruct (for_range_inv
                    (fun (_ : Z) (st : list Z * list Z * Z) =>
                       len (fst (fst st)) = A /\ len (snd (fst st)) = A)
                    body 0 A (zeros, zeros, 0))
          as ([[starts ends] sum] & -> & _)
    end.
    + exact HA.
    + now split.
    + intros i [[starts ends] sum] Hi [H1 H2]. cbn [fst snd] in H1, H2.
      rewrite vset_in_range by lia. cbn [bind].
      rewrite (vget_in_range buckets i 0) by lia. cbn [bind].
      rewrite vset_in_range by lia. cbn [bind].
      eexists. split; [reflexivity |]. cbn [fst snd]. now rewrite !len_set.
    + cbn [bind]. now exists starts, ends.
Qed.

Lemma nth_repeat_any {A} (v d : A) n j : nth j (repeat v n) d = if (j <? n)%nat then v else d.
Proof.
  destruct (Nat.ltb_spec j n); [now apply nth_repeat_lt |].
  apply nth_overflow. now rewrite repeat_length.
Qed.

Lemma induceSort_idle (s sa buckets bucket_ends : list Z) :
  len s <= Int32.max_int -> length sa = length s ->
  induceSort s (len s) sa (repeat false (length s)) buckets bucket_ends
  = Some (repeat (-1) (length s)).
Proof.
  intros Hn Hsa. unfold induceSort. rewrite Hsa. set (n := len s).
  set (sa0 := repeat (-1) (length s)).
  assert (Hlen : len sa0 = n) by (unfold sa0, len; now rewrite repeat_length).
  assert (Htypes : len (repeat false (length s)) = n)
    by (unfold len; now rewrite repeat_length).
  assert (Hscan : forall (heads : list Z) i, 0 <= i < n ->
            vget (fst (sa0, heads)) i = Some (-1)).
  { intros heads i Hi. cbn [fst]. rewrite (vget_in_range sa0 i 0) by lia.
    unfold sa0. rewrite nth_repeat_any.
    destruct (Nat.ltb_spec (Z.to_nat i) (length s)); [reflexivity | unfold n, len in Hi; lia]. }
  unfold for_range_down, for_range.
  rewrite for_down_idle.
  2:{ intros i Hi. unfold isLMS. destruct (Z.eqb_spec i 0); [reflexivity |].
      rewrite (vget_in_range _ i false) by lia. cbn [bind].
      rewrite nth_repeat_any.
      destruct (_ <? _)%nat; cbn [negb]; [| 
        rewrite sub_small by (rewrite max_int_val, min_int_val in *; unfold n in *; lia);
        rewrite (vget_in_range _ (i - 1) false) by lia; cbn [bind];
        rewrite nth_repeat_any; now destruct (_ <? _)%nat ].
      rewrite sub_small by (rewrite max_int_val, min_int_val in *; unfold n in *; lia).
      rewrite (vget_in_range _ (i - 1) false) by lia. cbn [bind].
      rewrite nth_repeat_any. now destruct (_ <? _)%nat. }
  cbn [bind fst].
  rewrite for_up_idle by (intros i Hi; rewrite Hscan by lia; reflexivity).
  cbn [bind fst].
  rewrite for_down_idle by (intros i Hi; rewrite Hscan by lia; reflexivity).
  reflexivity.
Qed.

Lemma computeLCP_unset (text : list Z) (n : nat) :
  (1 <= n)%nat -> Z.of_nat n <= Int32.max_int ->
  computeLCP text (repeat (-1) n) = None.
Proof.
  intros H1 Hn. unfold computeLCP. rewrite repeat_length, of_size_small by assumption.
  destruct (Z.ltb_spec (Z.of_nat n) 0); [lia |].
  unfold compute_rank, for_range.
  destruct (Z.to_nat (Z.of_nat n - 0)) as [| c] eqn:E; [lia |]. cbn [for_up].
  rewrite (vget_in_range (repeat (-1) n) 0 0) by (unfold len; rewrite repeat_length; lia).
  cbn [bind]. rewrite nth_repeat_any.
  destruct (Nat.ltb_spec (Z.to_nat 0) n); [| lia]. reflexivity.
Qed.

(** X25. On a text in ascending order (no code unit is larger than the next
    one) of at least two code units the SA-IS variant of the constructor
    leaves -1 in every entry of [sa_]: no position is LMS, so nothing is
    placed and nothing is induced.  That is not a permutation of the
    positions, and [computeLCP], which the constructor calls next, indexes
    [rank] with -1. *)
Theorem sais_ascending_text (text : list Z) :
  2 <= len text <= Int32.max_int ->
  Forall (fun c => 0 <= c < Int32.max_int) text ->
  StronglySorted Z.le text ->
  SuffixArray_new_sais text = Some (repeat (-1) (length text)) /\
  ~ Permutation (repeat (-1) (length text)) (iota (len text)) /\
  computeLCP text (repeat (-1) (length text)) = None.
Proof.
  intros Hn Hc Hs. split; [| split; [| apply computeLCP_unset; unfold len in Hn; lia]].
  - unfold SuffixArray_new_sais.
    destruct (Nat.eqb_spec (length text) 0) as [E | _]; [unfold len in Hn; lia |].
    assert (En : Int32.of_size (length text) = len text)
      by (apply of_size_small; exact (proj2 Hn)).
    rewrite En. unfold buildSAIS.
    destruct (Z.eqb_spec (len text) 0); [lia |].
    destruct (Z.eqb_spec (len text) 1); [lia |].
    rewrite computeTypes_ascending by (assumption || lia). cbn [bind].
    destruct (max_char_bounds text Int32.max_int Hc ltac:(rewrite max_int_val; lia) 0
                ltac:(rewrite max_int_val; lia)) as [Hm Hle].
    destruct (bucket_bounds_returns text (alphabet_size_of text)) as (starts & ends & ->).
    + unfold alphabet_size_of. rewrite add_small by (rewrite max_int_val, min_int_val in *; lia).
      lia.
    + unfold alphabet_size_of. rewrite add_small by (rewrite max_int_val, min_int_val in *; lia).
      rewrite Forall_forall in *. intros c I. specialize (Hc c I). specialize (Hle c I). lia.
    + cbn [bind]. apply induceSort_idle; [lia | apply repeat_length].
  - intros P. assert (I : In (-1) (iota (len text))).
    { apply (Permutation_in _ P). destruct (length text) eqn:E; [unfold len in Hn; lia |].
      now left. }
    apply in_iota in I. lia.
Qed.

(** [sais_ascending_text] on "abbc". *)
Lemma sais_ascending_text_witness :
  SuffixArray_new_sais [97; 98; 98; 99] = Some (repeat (-1) (length [97; 98; 98; 99])) /\
  ~ Permutation (repeat (-1) (length [97; 98; 98; 99])) (iota (len [97; 98; 98; 99])) /\
  computeLCP [97; 98; 98; 99] (repeat (-1) (length [97; 98; 98; 99])) = None.
Proof.
  apply (sais_ascending_text [97; 98; 98; 99]).
  - unfold len. cbn [length]. rewrite max_int_val. lia.
  - all_of ltac:(rewrite max_int_val; lia).
  - sorted_list.
Defined.

(** * Further laws of the logical operations and of the query parser *)

(** ** [proximityAnd] and the distance *)

Lemma occ_filter (f : Z -> bool) (l : list Z) z :
  occ (filter f l) z = if f z then occ l z else 0%nat.
Proof.
  induction l as [| x l IH]; [now destruct (f z) |].
  cbn [filter]. destruct (f x) eqn:Ex.
  - rewrite !occ_cons, IH. destruct (Z.eq_dec x z) as [<- |]; [now rewrite Ex |].
    now destruct (f z).
  - rewrite occ_cons, IH. destruct (Z.eq_dec x z) as [<- |]; [now rewrite Ex |].
    now destruct (f z).
Qed.

Lemma filter_sorted (R : Z -> Z -> Prop) (f : Z -> bool) (l : list Z) :
  StronglySorted R l -> StronglySorted R (filter f l).
Proof.
  induction 1 as [| x l S IH F]; [constructor |]. cbn [filter].
  destruct (f x); [| assumption]. constructor; [assumption |].
  apply (Forall_incl_rel x l); [assumption |]. intros z I. now apply filter_In in I.
Qed.

Lemma within_zero x b : within 0 x b = true <-> In x b.
Proof.
  rewrite within_spec. split.
  - intros (y & I & H). now replace x with y by lia.
  - intros I. exists x. split; [assumption | lia].
Qed.

(** X26. On sorted lists of text offsets [proximityAnd] grows with the
    distance: what it returns at a distance it returns at every larger one
    (without overflow).  At distance 0, when the first list has no
    repetition, it returns what [andOperation] returns. *)
Theorem proximityAnd_distance (a b : list Z) (d d' : Z) :
  0 <= d <= d' ->
  StronglySorted Z.le a -> StronglySorted Z.le b ->
  Forall position a -> Forall position b ->
  Forall (fun x => x + d' <= Int32.max_int) a ->
  (forall x, In x (proximityAnd a b d) -> In x (proximityAnd a b d')) /\
  (StronglySorted Z.lt a -> proximityAnd a b 0 = andOperation a b).
Proof.
  intros Hd Sa Sb Pa Pb Ha.
  assert (Ha0 : forall m, 0 <= m <= d' -> Forall (fun x => x + m <= Int32.max_int) a).
  { intros m Hm. eapply Forall_impl; [| exact Ha]. intros x Hx. cbv beta in *. lia. }
  split.
  - intros x.
    rewrite (proximityAnd_run a b d ltac:(lia) Sa Sb Pa Pb (Ha0 d ltac:(lia))).
    rewrite (proximityAnd_run a b d' ltac:(lia) Sa Sb Pa Pb Ha).
    rewrite !filter_In, !within_spec. intros [I (y & Iy & Hy)].
    split; [assumption |]. exists y. split; [assumption | lia].
  - intros Sa'.
    rewrite (proximityAnd_run a b 0 ltac:(lia) Sa Sb Pa Pb (Ha0 0 ltac:(lia))).
    unfold andOperation. apply sorted_occ_unique.
    + now apply filter_sorted.
    + now apply set_intersection_sorted.
    + intros z. rewrite occ_filter, set_intersection_occ by assumption.
      pose proof (strict_occ a z Sa') as H1.
      destruct (within 0 z b) eqn:E.
      * apply within_zero, occ_In in E. lia.
      * assert (occ b z = 0%nat); [| lia].
        destruct (occ b z) eqn:Eo; [reflexivity | exfalso].
        assert (I : In z b) by (apply occ_In; lia).
        apply within_zero in I. congruence.
Qed.

(** [proximityAnd_distance] at the distances 2 and 7. *)
Lemma proximityAnd_distance_witness :
  (forall x, In x (proximityAnd [1; 10; 20] [3; 10; 40] 2) ->
             In x (proximityAnd [1; 10; 20] [3; 10; 40] 7)) /\
  (StronglySorted Z.lt [1; 10; 20] ->
   proximityAnd [1; 10; 20] [3; 10; 40] 0 = andOperation [1; 10; 20] [3; 10; 40]).
Proof.
  apply (proximityAnd_distance [1; 10; 20] [3; 10; 40] 2 7);
    [lia | sorted_list | sorted_list | positions_list | positions_list |
     all_of ltac:(rewrite max_int_val; lia)].
Defined.

(** ** [tokenize]: operators *)

Lemma tokenize_cons_token tok q q' :
  (length q' < length q)%nat ->
  tokenize_loop (S (length q)) q [] = tokenize_loop (length q) q' [tok] ->
  exists toks,
    tokenize q' = Some toks /\ tokenize q = Some (tok :: toks).
Proof.
  intros Hlen E. unfold tokenize. rewrite E.
  rewrite (tokenize_loop_enough (length q) q' [tok]) by assumption.
  rewrite (tokenize_loop_acc _ q' [tok]).
  destruct (tokenize_loop_total (S (length q')) q' []) as (toks & -> & _); [lia |].
  cbn [option_map bind app]. eexists. split; reflexivity.
Qed.

(** X27. [tokenize] reads an operator from an underscore to the next one,
    white space included: when the query is white space, an underscore, a
    text [op] without underscore, a closing underscore and a rest, the result
    is the token of [op] followed by the tokens of the rest.  An operator that
    the end of the query cuts off, with no closing underscore, is read all
    the same. *)
Theorem tokenize_operator_first (sp op rest : list Z) :
  Forall space_like sp -> Forall (fun c => c <> 95) op ->
  (exists toks,
     tokenize rest = Some toks /\
     tokenize (sp ++ 95 :: op ++ 95 :: rest)
     = Some (operator_token op (95 :: op ++ [95]) :: toks)) /\
  tokenize (sp ++ 95 :: op)
  = Some [operator_token op (95 :: op); Token.mk TokenType.END []].
Proof.
  intros Hsp Hop. split.
  - apply tokenize_cons_token.
    + rewrite !length_app. cbn [length]. rewrite length_app. cbn [length]. lia.
    + now apply step_operator.
  - unfold tokenize. rewrite (step_operator_end _ sp op []) by assumption.
    rewrite app_nil_r.
    destruct (length (sp ++ 95 :: op)) eqn:E; [| reflexivity].
    rewrite length_app in E. cbn [length] in E. lia.
Qed.

(** [tokenize_operator_first] on the operator [_and_], and on [_and] at the end
    of the query: both are the token AND. *)
Lemma tokenize_operator_first_witness :
  (exists toks,
     tokenize [32; 98] = Some toks /\
     tokenize ([32] ++ 95 :: [97; 110; 100] ++ 95 :: [32; 98])
     = Some (Token.mk TokenType.AND [] :: toks)) /\
  tokenize ([32] ++ 95 :: [97; 110; 100])
  = Some [Token.mk TokenType.AND []; Token.mk TokenType.END []].
Proof.
  apply (tokenize_operator_first [32] [97; 110; 100] [32; 98]).
  - all_of reflexivity.
  - all_of discriminate.
Defined.

(** ** [parse] and [extractWords] *)

Lemma words_of_tokens s :
  map Token.value (filter (is_type TokenType.WORD) (tokens s)) = leaves (node_of s).
Proof.
  induction s as [w | x IH | l IHl r IHr | l IHl r IHr | x IH];
    cbn [tokens node_of leaves filter is_type Token.type Token.value map app].
  - reflexivity.
  - now rewrite IH, app_nil_r.
  - rewrite filter_app, map_app. cbn [filter is_type Token.type]. now rewrite IHl, IHr.
  - rewrite filter_app, map_app. cbn [filter is_type Token.type]. now rewrite IHl, IHr.
  - rewrite filter_app, map_app. cbn [filter is_type Token.type map]. now rewrite IH, app_nil_r.
Qed.

(** X28. [parse] and [extractWords] agree on the words: for a grammatical
    expression, spelled out token by token, the words [extractWords] returns
    are the leaves of the tree [parse] returns, from left to right. *)
Theorem parse_extractWords (s : syntax) :
  grammatical s ->
  exists t,
    parse (unlex (tokens s)) = Some (Some t) /\
    extractWords (unlex (tokens s)) = Some (leaves t).
Proof.
  intros G.
  assert (E : tokenize (unlex (tokens s)) = Some (tokens s ++ [Token.mk TokenType.END []])).
  { rewrite <- (app_nil_r (unlex (tokens s))), tokenize_unlex_app; [reflexivity |].
    now apply grammatical_canonical. }
  exists (node_of s). split.
  - now apply (parse_tokens_grammar s [Token.mk TokenType.END []]).
  - unfold extractWords. rewrite E. cbn [bind]. rewrite filter_app, map_app.
    cbn [filter is_type Token.type map]. now rewrite app_nil_r, words_of_tokens.
Qed.

(** [parse_extractWords] on [a _AND_ _NOT_ ( b _OR_ c )]. *)
Lemma parse_extractWords_witness :
  exists t,
    parse (unlex (tokens (SAnd (SWord [97]) (SNot (SParen (SOr (SWord [98]) (SWord [99]))))))) 
    = Some (Some t) /\
    extractWords (unlex (tokens (SAnd (SWord [97])
                                      (SNot (SParen (SOr (SWord [98]) (SWord [99])))))))
    = Some (leaves t).
Proof.
  apply (parse_extractWords (SAnd (SWord [97]) (SNot (SParen (SOr (SWord [98]) (SWord [99])))))).
  cbn [grammatical level]. unfold plain.
  repeat split; try lia; try discriminate; all_of reflexivity.
Defined.

